(** * PasteAwareTextInput: the paste-aware line-editing engine

    A shallow embedding of [src/cli/components/PasteAwareTextInput.tsx].

    - JavaScript strings are sequences of UTF-16 code units ([list N]);
      [length], [slice], [charAt] and the regular expressions the component
      uses are written out with their JavaScript behaviour, also for
      negative and out-of-range indices. Cursor offsets are integers ([Z]):
      the component computes them from lengths by adding and subtracting 1,
      and the owner may supply any number, of which the integers are
      modelled.
    - The component's refs ([valueRef], [caretOffsetRef],
      [lastEmittedValueRef], [lastPasteDetectedAtRef]) and its React state
      are the fields of one record that every handler passes along; the
      calls made to the owner's callbacks are appended to a log in the same
      record. The state has two fields: [displayValue] is the constant that
      [useState] returned in the latest render, which is what that render
      drew and what the handlers it created read; [nextDisplayValue] is the
      state as [setDisplayValue] left it, which the next render will take.
    - The collaborators that live in other modules (the clipboard/image
      translator and the paste registry) are fields of an environment
      record; a call to one of them either returns or throws.
    - The two [while] loops of each word-boundary function run on a bound
      taken from the distance to the end they move towards; the lemmas
      [skipSpaceBack_exit] to [skipSpaceFwd_exit] show that each loop ends
      because its condition fails, never because the bound ran out. *)

From Stdlib Require Import ZArith NArith List Bool Lia String Ascii.
From Stdlib Require Import DecimalString.
From Stdlib Require Import Permutation Sorted.
Import ListNotations.
Local Open Scope Z_scope.

(* ------------------------------------------------------------------ *)
(** ** JavaScript strings *)

Module JS.

Definition jsstring : Type := list N.

(** [s.length] *)
Definition len (s : jsstring) : Z := Z.of_nat (List.length s).

(** [a === b] on strings *)
Fixpoint eqb (a b : jsstring) : bool :=
  match a, b with
  | [], [] => true
  | x :: a', y :: b' => N.eqb x y && eqb a' b'
  | _, _ => false
  end.

(** An index argument of [slice], resolved against the length: a negative
    index counts from the end, and everything is clamped to [0, length]. *)
Definition relIndex (n k : Z) : Z :=
  if k <? 0 then Z.max (n + k) 0 else Z.min k n.

(** [s.slice(start, stop)] *)
Definition slice (s : jsstring) (start stop : Z) : jsstring :=
  let from := relIndex (len s) start in
  let to := relIndex (len s) stop in
  firstn (Z.to_nat (to - from)) (skipn (Z.to_nat from) s).

(** [s.slice(start)] *)
Definition sliceFrom (s : jsstring) (start : Z) : jsstring :=
  skipn (Z.to_nat (relIndex (len s) start)) s.

(** [s.charAt(pos)]: the empty string outside the string. *)
Definition charAt (s : jsstring) (pos : Z) : jsstring :=
  if (0 <=? pos) && (pos <? len s)
  then firstn 1 (skipn (Z.to_nat pos) s)
  else [].

(** [s.includes(c)] for a one-character [c] *)
Definition includes (s : jsstring) (c : N) : bool := existsb (N.eqb c) s.

(** The code points matched by the character class [\s]. *)
Definition isWhiteSpace (c : N) : bool :=
  ((9 <=? c) && (c <=? 13) || (c =? 32) || (c =? 160) || (c =? 5760)
   || (8192 <=? c) && (c <=? 8202) || (c =? 8232) || (c =? 8233)
   || (c =? 8239) || (c =? 8287) || (c =? 12288) || (c =? 65279))%N.

(** [/\s/.test(s)] and [/\S/.test(s)] *)
Definition testSpace (s : jsstring) : bool := existsb isWhiteSpace s.
Definition testNonSpace (s : jsstring) : bool :=
  existsb (fun c => negb (isWhiteSpace c)) s.

(** A string literal of the source that holds ASCII only. *)
Definition lit (s : string) : jsstring :=
  List.map N_of_ascii (list_ascii_of_string s).

(** An integral number inside a template literal. *)
Definition numberToString (z : Z) : jsstring :=
  lit (NilZero.string_of_int (Z.to_int z)).

(** [s.split(sep)] for a one-character separator *)
Fixpoint split (sep : N) (s : jsstring) : list jsstring :=
  match s with
  | [] => [[]]
  | c :: r =>
      if N.eqb c sep then [] :: split sep r
      else match split sep r with
           | p :: ps => (c :: p) :: ps
           | [] => [[c]]
           end
  end.

(** [while (cond(pos)) pos--] and [while (cond(pos)) pos++], with the
    number of iterations bounded by [fuel]. *)
Fixpoint whileDec (cond : Z -> bool) (fuel : nat) (pos : Z) : Z :=
  match fuel with
  | O => pos
  | S f => if cond pos then whileDec cond f (pos - 1) else pos
  end.

Fixpoint whileInc (cond : Z -> bool) (fuel : nat) (pos : Z) : Z :=
  match fuel with
  | O => pos
  | S f => if cond pos then whileInc cond f (pos + 1) else pos
  end.

End JS.

Import JS.

(* ------------------------------------------------------------------ *)
(** ** The pure helpers of the component *)

Definition CR : N := 13.
Definition LF : N := 10.
Definition ESC : N := 27.
(** U+21B5, the glyph shown for a line break *)
Definition RETURN_GLYPH : N := 8629.

(** Number of matches of [/\r\n|\r|\n/g]. *)
Fixpoint lineBreaks (text : jsstring) : Z :=
  match text with
  | [] => 0
  | c :: rest =>
      if N.eqb c CR then
        match rest with
        | d :: rest' =>
            if N.eqb d LF then 1 + lineBreaks rest' else 1 + lineBreaks rest
        | [] => 1
        end
      else if N.eqb c LF then 1 + lineBreaks rest
      else lineBreaks rest
  end.

Definition countLines (text : jsstring) : Z := lineBreaks text + 1.

(** [text.replace(/\r\n|\r|\n/g, RETURN_GLYPH)] *)
Fixpoint sanitizeForDisplay (text : jsstring) : jsstring :=
  match text with
  | [] => []
  | c :: rest =>
      if N.eqb c CR then
        match rest with
        | d :: rest' =>
            if N.eqb d LF then RETURN_GLYPH :: sanitizeForDisplay rest'
            else RETURN_GLYPH :: sanitizeForDisplay rest
        | [] => [RETURN_GLYPH]
        end
      else if N.eqb c LF then RETURN_GLYPH :: sanitizeForDisplay rest
      else c :: sanitizeForDisplay rest
  end.

(** The three steps of [findPreviousWordBoundary] after [pos = cursorPos - 1].
    Every step is guarded by [pos > 0], and each loop lowers [pos] by one per
    iteration, so [Z.to_nat pos] iterations are enough. *)
Definition skipSpaceBack (text : jsstring) (pos : Z) : Z :=
  whileDec (fun p => (0 <? p) && testSpace (charAt text p)) (Z.to_nat pos) pos.

Definition skipWordBack (text : jsstring) (pos : Z) : Z :=
  whileDec (fun p => (0 <? p) && testNonSpace (charAt text p)) (Z.to_nat pos) pos.

Definition findPreviousWordBoundary (text : jsstring) (cursorPos : Z) : Z :=
  if cursorPos =? 0 then 0
  else
    let pos := cursorPos - 1 in
    let pos := skipSpaceBack text pos in
    let pos := skipWordBack text pos in
    let pos := if (0 <? pos) && testSpace (charAt text pos) then pos + 1 else pos in
    Z.max 0 pos.

(** The loops of [findNextWordBoundary]; each raises [pos] by one per
    iteration and stops at [text.length]. *)
Definition skipWordFwd (text : jsstring) (pos : Z) : Z :=
  whileInc (fun p => (p <? len text) && testNonSpace (charAt text p))
           (Z.to_nat (len text - pos)) pos.

Definition skipSpaceFwd (text : jsstring) (pos : Z) : Z :=
  whileInc (fun p => (p <? len text) && testSpace (charAt text p))
           (Z.to_nat (len text - pos)) pos.

Definition findNextWordBoundary (text : jsstring) (cursorPos : Z) : Z :=
  if len text <=? cursorPos then len text
  else
    let pos := cursorPos in
    let pos := skipWordFwd text pos in
    let pos := skipSpaceFwd text pos in
    pos.

(** ["left" | "right"] *)
Inductive WordDirection : Type := dirLeft | dirRight.

(** [/^\u001b\[(?:1;)?(?:3|4|7|8|9)D$/] for [final = "D"], and the same
    pattern ending in ["C"]. *)
Definition isOptionModifier (c : N) : bool :=
  ((c =? 51) || (c =? 52) || (c =? 55) || (c =? 56) || (c =? 57))%N.

Definition modifierThenFinal (final : N) (s : jsstring) : bool :=
  match s with
  | [m; f] => isOptionModifier m && N.eqb f final
  | _ => false
  end.

Definition optionArrowPattern (final : N) (s : jsstring) : bool :=
  match s with
  | e :: b :: rest =>
      N.eqb e ESC && N.eqb b 91 &&
      (modifierThenFinal final rest
       || match rest with
          | one :: semi :: rest' =>
              N.eqb one 49 && N.eqb semi 59 && modifierThenFinal final rest'
          | _ => false
          end)
  | _ => false
  end.

Definition OPTION_LEFT_PATTERN : jsstring -> bool := optionArrowPattern 68.
Definition OPTION_RIGHT_PATTERN : jsstring -> bool := optionArrowPattern 67.

Definition startsWithEsc (s : jsstring) : bool :=
  match s with
  | c :: _ => N.eqb c ESC
  | [] => false
  end.

Definition detectOptionWordDirection (sequence : jsstring) : option WordDirection :=
  if negb (startsWithEsc sequence) then None
  else if eqb sequence [ESC; 98%N] || eqb sequence [ESC; 66%N] then Some dirLeft
  else if eqb sequence [ESC; 102%N] || eqb sequence [ESC; 70%N] then Some dirRight
  else if OPTION_LEFT_PATTERN sequence then Some dirLeft
  else if OPTION_RIGHT_PATTERN sequence then Some dirRight
  else None.

(* ------------------------------------------------------------------ *)
(** ** The paste registry and the other collaborators *)

(** A call into another module returns a value or throws. *)
Inductive Throws (A : Type) : Type :=
| Returns (a : A)
| Raises.
Arguments Returns {A} a.
Arguments Raises {A}.

Record PasteRecord : Type := mkPasteRecord {
  pasteId : Z;
  fullText : jsstring
}.

Record Registry : Type := mkRegistry {
  nextId : Z;
  records : list PasteRecord
}.

(** The record stored under an id, if any. *)
Fixpoint lookupPaste (rs : list PasteRecord) (i : Z) : option jsstring :=
  match rs with
  | [] => None
  | r :: rs' => if pasteId r =? i then Some (fullText r) else lookupPaste rs' i
  end.

(** Modelled from the spec: [allocatePaste] of helpers/pasteRegistry, which
    is not among the sources. The spec gives
    [allocate(fullText) -> id (monotonic, process-lifetime unique ids)]:
    the text is stored under the next id, and the counter moves on. *)
Definition registryAllocate (r : Registry) (text : jsstring) : Z * Registry :=
  (nextId r,
   mkRegistry (nextId r + 1) (mkPasteRecord (nextId r) text :: records r)).

(** What the component imports from helpers/clipboard and
    helpers/pasteRegistry, and the clock. *)
Record Env : Type := mkEnv {
  translatePasteForImages : jsstring -> Throws jsstring;
  tryImportClipboardImageMac : option jsstring;
  allocatePaste : Registry -> jsstring -> Throws (Z * Registry);
  dateNow : Z
}.

(** The collaborators when nothing fails and the pasted text names no image. *)
Definition plainEnv : Env :=
  mkEnv (fun t => Returns t) None (fun r t => Returns (registryAllocate r t)) 0.

(* ------------------------------------------------------------------ *)
(** ** The component's state *)

(** A call to one of the owner's callbacks. *)
Inductive Callback : Type :=
| OnChange (value : jsstring)
| OnCursorMove (position : Z)
| OnSubmit (value : jsstring).

(** The props that do not change what a handler computes from the refs:
    [focus], and whether the optional callbacks were supplied. *)
Record Props : Type := mkProps {
  focus : bool;
  onCursorMove : bool;
  onSubmit : bool
}.

Record World : Type := mkWorld {
  displayValue : jsstring;
  nextDisplayValue : jsstring;
  valueRef : jsstring;
  caretOffsetRef : Z;
  lastEmittedValueRef : jsstring;
  lastPasteDetectedAtRef : Z;
  registry : Registry;
  calls : list Callback
}.

(** The state after the first render with [value]. *)
Definition mount (value : jsstring) (reg : Registry) : World :=
  mkWorld value value value (len value) value 0 reg [].

Definition setCaret (pos : Z) (w : World) : World :=
  mkWorld (displayValue w) (nextDisplayValue w) (valueRef w) pos
          (lastEmittedValueRef w) (lastPasteDetectedAtRef w) (registry w)
          (calls w).

Definition call (c : Callback) (w : World) : World :=
  mkWorld (displayValue w) (nextDisplayValue w) (valueRef w) (caretOffsetRef w)
          (lastEmittedValueRef w) (lastPasteDetectedAtRef w) (registry w)
          (calls w ++ [c]).

Definition setRegistry (r : Registry) (w : World) : World :=
  mkWorld (displayValue w) (nextDisplayValue w) (valueRef w) (caretOffsetRef w)
          (lastEmittedValueRef w) (lastPasteDetectedAtRef w) r (calls w).

Definition setLastPasteDetectedAt (t : Z) (w : World) : World :=
  mkWorld (displayValue w) (nextDisplayValue w) (valueRef w) (caretOffsetRef w)
          (lastEmittedValueRef w) t (registry w) (calls w).

(** [useState] in a render after the first: the constant [displayValue] of
    that render is the state, as the latest [setDisplayValue] left it. *)
Definition useState (w : World) : World :=
  mkWorld (nextDisplayValue w) (nextDisplayValue w) (valueRef w)
          (caretOffsetRef w) (lastEmittedValueRef w) (lastPasteDetectedAtRef w)
          (registry w) (calls w).

(** What a handler leaves behind: it ran to its end, or an exception left it. *)
Inductive Outcome : Type :=
| Done (w : World)
| Thrown (w : World).

(** The owner's inputs that the two effects depend on. *)
Record OwnerProps : Type := mkOwnerProps {
  value : jsstring;
  cursorPosition : option Z
}.

(** The effect with dependency [value]. Its [setDisplayValue(value)] changes
    the state for the next render, not the constant of this one. *)
Definition valueSyncEffect (value : jsstring) (w : World) : World :=
  if negb (eqb value (lastEmittedValueRef w)) then
    mkWorld (displayValue w) value value (len value) (lastEmittedValueRef w)
            (lastPasteDetectedAtRef w) (registry w) (calls w)
  else w.

(** The effect with dependency [cursorPosition]. Its
    [setDisplayValue(prev => prev)], like the one of [updateCursor], leaves
    the state as it is. *)
Definition cursorPositionEffect (cursorPosition : option Z) (w : World) : World :=
  match cursorPosition with
  | Some n => setCaret n w
  | None => w
  end.

Definition optZ_eqb (a b : option Z) : bool :=
  match a, b with
  | Some x, Some y => x =? y
  | None, None => true
  | _, _ => false
  end.

(** A render with new inputs from the owner: the body runs, with
    [displayValue] the state, and then React runs, in the order of their
    declaration, the effects whose dependency changed. *)
Definition rerender (old new : OwnerProps) (w : World) : World :=
  let w := useState w in
  let w := if eqb (value old) (value new) then w
           else valueSyncEffect (value new) w in
  if optZ_eqb (cursorPosition old) (cursorPosition new) then w
  else cursorPositionEffect (cursorPosition new) w.

Section Component.

Context (env : Env) (props : Props).

Definition updateCursor (newPos : Z) (w : World) : World :=
  let clamped := Z.max 0 (Z.min newPos (len (valueRef w))) in
  let w := setCaret clamped w in
  if onCursorMove props then call (OnCursorMove clamped) w else w.

Definition updateValue (newValue : jsstring) (newCursor : option Z) (w : World)
  : World :=
  let w := mkWorld (displayValue w) newValue newValue (caretOffsetRef w)
                   newValue (lastPasteDetectedAtRef w) (registry w) (calls w) in
  let w := call (OnChange newValue) w in
  match newCursor with
  | Some c => updateCursor c w
  | None => w
  end.

Definition deleteCharacter (forward : bool) (w : World) : World :=
  let current := valueRef w in
  let pos := caretOffsetRef w in
  if forward then
    if pos <? len current then
      updateValue (slice current 0 pos ++ sliceFrom current (pos + 1)) (Some pos) w
    else w
  else
    if 0 <? pos then
      updateValue (slice current 0 (pos - 1) ++ sliceFrom current pos)
                  (Some (pos - 1)) w
    else w.

(** The placeholder put in the buffer for a large paste. *)
Definition pastePlaceholder (pasteId lines : Z) : jsstring :=
  lit "[Pasted text #" ++ numberToString pasteId ++ lit " +"
      ++ numberToString lines ++ lit " lines]".

Definition handleInsert (text : jsstring) (isPaste : bool) (w : World) : Outcome :=
  let current := valueRef w in
  let pos := caretOffsetRef w in
  let isLarge := isPaste || (5 <? len text) in
  let finish insertion w :=
    Done (updateValue (slice current 0 pos ++ insertion ++ sliceFrom current pos)
                      (Some (pos + len insertion)) w) in
  if isLarge then
    match translatePasteForImages env text with
    | Raises => Thrown w
    | Returns translated =>
        let lines := countLines translated in
        if (500 <? len text) || (5 <? lines) then
          match allocatePaste env (registry w) translated with
          | Raises => Thrown w
          | Returns (pasteId, reg) =>
              finish (pastePlaceholder pasteId lines) (setRegistry reg w)
          end
        else finish (sanitizeForDisplay translated) w
    end
  else finish (sanitizeForDisplay text) w.

(** The wrapper the source keeps beside [handleInsert]. *)
Definition handleStringInsert (text : jsstring) (isPaste : bool) (w : World)
  : Outcome :=
  handleInsert text isPaste w.

End Component.

(** The key descriptor that comes with an input notification. *)
Record Key : Type := mkKey {
  isPasted : bool;
  meta : bool;
  ctrl : bool;
  shift : bool;
  return_ : bool;
  leftArrow : bool;
  rightArrow : bool;
  backspace : bool;
  delete : bool
}.

(** A key descriptor with no flag set, and one with only [backspace]. *)
Definition plainKey : Key :=
  mkKey false false false false false false false false false.
Definition backspaceKey : Key :=
  mkKey false false false false false false false true false.
Definition deleteKey : Key :=
  mkKey false false false false false false false false true.

(** The state of the loop over the payload in the batch path. *)
Record Batch : Type := mkBatch {
  nextValue : jsstring;
  nextPos : Z;
  processed : bool
}.

(** [nextValue.slice(0, nextPos - 1) + nextValue.slice(nextPos)] *)
Definition removeBefore (v : jsstring) (pos : Z) : jsstring :=
  slice v 0 (pos - 1) ++ sliceFrom v pos.

(** One iteration of the loop over the payload. *)
Definition batchStep (b : Batch) (code : N) : Batch :=
  if N.eqb code 127 || N.eqb code 8 then
    if 0 <? nextPos b
    then mkBatch (removeBefore (nextValue b) (nextPos b)) (nextPos b - 1) true
    else mkBatch (nextValue b) (nextPos b) true
  else if (32 <=? code)%N then
    mkBatch (slice (nextValue b) 0 (nextPos b) ++ [code]
               ++ sliceFrom (nextValue b) (nextPos b))
            (nextPos b + 1) true
  else b.

(** The deletion applied first when the key is flagged as backspace and the
    payload holds no backspace or DEL itself. *)
Definition detachedBackspace (input : jsstring) (key : Key) (b : Batch) : Batch :=
  let hasRawBackspace := includes input 8 || includes input 127 in
  if backspace key && negb hasRawBackspace then
    if 0 <? nextPos b
    then mkBatch (removeBefore (nextValue b) (nextPos b)) (nextPos b - 1) true
    else b
  else b.

Definition batch (input : jsstring) (key : Key) (w : World) : Batch :=
  fold_left batchStep input
    (detachedBackspace input key (mkBatch (valueRef w) (caretOffsetRef w) false)).

Definition isV (input : jsstring) : bool :=
  eqb input [118%N] || eqb input [86%N].

Section Handlers.

Context (env : Env) (props : Props).

(** Step 5 of the input handler: the explicit keys. *)
Definition explicitKeys (key : Key) (w : World) : World :=
  if backspace key then deleteCharacter props false w
  else if delete key then deleteCharacter props true w
  else w.

(** Step 4: typing and composed input, then step 5. *)
Definition batchPath (input : jsstring) (key : Key) (w : World) : World :=
  if 0 <? len input then
    let b := batch input key w in
    if processed b then updateValue props (nextValue b) (Some (nextPos b)) w
    else explicitKeys key w
  else explicitKeys key w.

(** Step 3: navigation and special keys, then steps 4 and 5. *)
Definition navigation (input : jsstring) (key : Key) (w : World) : World :=
  if return_ key then
    if onSubmit props then call (OnSubmit (displayValue w)) w else w
  else if leftArrow key then updateCursor props (caretOffsetRef w - 1) w
  else if rightArrow key then updateCursor props (caretOffsetRef w + 1) w
  else if ctrl key || meta key then w
  else batchPath input key w.

(** Step 2: the paste shortcuts, then the rest. *)
Definition pasteShortcuts (input : jsstring) (key : Key) (w : World) : Outcome :=
  if (meta key && isV input) || (ctrl key && shift key && isV input) then
    match tryImportClipboardImageMac env with
    | Some placeholder =>
        if 0 <? len placeholder then handleInsert env props placeholder true w
        else Done (navigation input key w)
    | None => Done (navigation input key w)
    end
  else Done (navigation input key w).

(** The handler given to [useInput]. *)
Definition inputHandler (input : jsstring) (key : Key) (w : World) : Outcome :=
  if isPasted key then
    let w := setLastPasteDetectedAt (dateNow env) w in
    let payload := input in
    match translatePasteForImages env payload with
    | Raises => Thrown w
    | Returns translated =>
        let translated :=
          if (len translated =? 0) && (len payload =? 0) then
            match tryImportClipboardImageMac env with
            | Some clip => if 0 <? len clip then clip else translated
            | None => translated
            end
          else translated in
        if 0 <? len translated then handleInsert env props translated true w
        else pasteShortcuts input key w
    end
  else pasteShortcuts input key w.

(** [useInput] calls the handler only while the input has the focus. *)
Definition useInput (input : jsstring) (key : Key) (w : World) : Outcome :=
  if focus props then inputHandler input key w else Done w.

Definition moveCursorToPreviousWord (w : World) : World :=
  updateCursor props (findPreviousWordBoundary (valueRef w) (caretOffsetRef w)) w.

Definition moveCursorToNextWord (w : World) : World :=
  updateCursor props (findNextWordBoundary (valueRef w) (caretOffsetRef w)) w.

Definition deletePreviousWord (w : World) : World :=
  let curPos := caretOffsetRef w in
  let wordStart := findPreviousWordBoundary (valueRef w) curPos in
  if wordStart =? curPos then w
  else
    let current := valueRef w in
    updateValue props (slice current 0 wordStart ++ sliceFrom current curPos)
                (Some wordStart) w.

(** The direction of the first part after an ESC that names one. *)
Fixpoint firstDirection (parts : list jsstring) : option WordDirection :=
  match parts with
  | [] => None
  | p :: ps =>
      match detectOptionWordDirection (ESC :: p) with
      | Some d => Some d
      | None => firstDirection ps
      end
  end.

(** The listener on the raw input stream, for a payload with sequence
    [sequence]. *)
Definition handleRawInput (sequence : jsstring) (w : World) : World :=
  if negb (focus props) then w
  else if len sequence =? 0 then w
  else if eqb sequence [127%N] || eqb sequence [8%N] then
    deleteCharacter props false w
  else if eqb sequence [ESC; 127%N] || eqb sequence [ESC; 8%N]
          || eqb sequence [ESC; 8%N] || eqb sequence [23%N] then
    deletePreviousWord w
  else if (len sequence <=? 32) && includes sequence ESC then
    match firstDirection (tl (split ESC sequence)) with
    | Some dirLeft => moveCursorToPreviousWord w
    | Some dirRight => moveCursorToNextWord w
    | None => w
    end
  else w.

End Handlers.

(* ------------------------------------------------------------------ *)
(** ** Properties of states, runs, and the worded models *)

(** The invariant of the edit buffer. *)
Definition cursorInRange (w : World) : Prop :=
  0 <= caretOffsetRef w <= len (valueRef w).

(** The world an outcome leaves. *)
Definition worldOf (o : Outcome) : World :=
  match o with
  | Done w => w
  | Thrown w => w
  end.

(** The calls [updateCursor] adds to the log. *)
Definition cursorCalls (props : Props) (pos : Z) : list Callback :=
  if onCursorMove props then [OnCursorMove pos] else [].

Definition clamp (n pos : Z) : Z := Z.max 0 (Z.min pos n).

(** A state keeps [lastEmittedValueRef], or the new one was handed to
    [onChange] in the same step. *)
Definition emittedOrKept (w w' : World) : Prop :=
  lastEmittedValueRef w' = lastEmittedValueRef w
  \/ exists cs, calls w' = calls w ++ OnChange (lastEmittedValueRef w') :: cs.

(** The sequences the raw listener maps to a backward word deletion:
    ESC DEL, ESC BS and ctrl-W. *)
Definition wordDeleteSequences : list jsstring :=
  [[ESC; 127%N]; [ESC; 8%N]; [23%N]].

(** A code point that the batch path inserts. *)
Definition printable (c : N) : Prop := (32 <= c)%N /\ c <> 127%N.

(** One input notification per character, each with an unflagged key; the
    run stops at the first handler that throws. *)
Fixpoint typeCharacters (env : Env) (props : Props) (chars : list N) (w : World)
  : Outcome :=
  match chars with
  | [] => Done w
  | c :: rest =>
      match inputHandler env props [c] plainKey w with
      | Done w' => typeCharacters env props rest w'
      | Thrown w' => Thrown w'
      end
  end.

(** The composition rule as the specification words it, on the buffer seen
    as the text left of the cursor and the text right of it: a backward
    deletion drops the last character on the left, an insertion adds one
    there. *)
Definition Gap : Type := (jsstring * jsstring)%type.

Definition gapOf (text : jsstring) (pos : Z) : Gap :=
  (firstn (Z.to_nat pos) text, skipn (Z.to_nat pos) text).

Definition gapText (g : Gap) : jsstring := fst g ++ snd g.
Definition gapCursor (g : Gap) : Z := len (fst g).

Definition deleteBackward (g : Gap) : Gap := (removelast (fst g), snd g).
Definition insertCode (c : N) (g : Gap) : Gap := (fst g ++ [c], snd g).

Definition applyCode (g : Gap) (c : N) : Gap :=
  if N.eqb c 8 || N.eqb c 127 then deleteBackward g
  else if (32 <=? c)%N then insertCode c g
  else g.

Definition composedInput (backspaceFlag : bool) (payload : jsstring) (g : Gap)
  : Gap :=
  let literal := includes payload 8 || includes payload 127 in
  let g := if backspaceFlag && negb literal then deleteBackward g else g in
  fold_left applyCode payload g.

(** A key descriptor of a Character event: not a paste, no modifier, none of
    the navigation keys, no Delete flag. The Backspace flag is free. *)
Definition characterKey (key : Key) : Prop :=
  isPasted key = false /\ meta key = false /\ ctrl key = false
  /\ return_ key = false /\ leftArrow key = false /\ rightArrow key = false
  /\ delete key = false.

(** The batch state stands for the gap. *)
Definition represents (b : Batch) (g : Gap) : Prop :=
  nextValue b = gapText g /\ nextPos b = gapCursor g.

(** The two functions as the specification words them. The pointer of
    [previousWordBoundary] starts on the character left of the cursor (the
    reading under which the specification's own example gives 6); it steps
    left over whitespace, then left over non-whitespace, steps right by one
    if it landed on whitespace, and the result is clamped to 0. Outside the
    text [charAt] is empty and matches neither class, which is what stops
    each step. *)
Definition previousWordBoundary (text : jsstring) (pos : Z) : Z :=
  if pos =? 0 then 0
  else
    let p := pos - 1 in
    let p := whileDec (fun q => testSpace (charAt text q)) (Z.to_nat (p + 1)) p in
    let p := whileDec (fun q => testNonSpace (charAt text q)) (Z.to_nat (p + 1)) p in
    let p := if testSpace (charAt text p) then p + 1 else p in
    Z.max 0 p.

Definition nextWordBoundary (text : jsstring) (pos : Z) : Z :=
  if len text <=? pos then len text
  else
    let p := whileInc (fun q => testNonSpace (charAt text q))
                      (Z.to_nat (len text - pos)) pos in
    let p := whileInc (fun q => testSpace (charAt text q))
                      (Z.to_nat (len text - p)) p in
    p.

(** The state after [handleInsert] spliced [insertion] in at the cursor. *)
Definition inserted (props : Props) (insertion : jsstring) (w : World) : World :=
  updateValue props
    (slice (valueRef w) 0 (caretOffsetRef w) ++ insertion
       ++ sliceFrom (valueRef w) (caretOffsetRef w))
    (Some (caretOffsetRef w + len insertion)) w.



(** The claim as it is stated, at one insertion: when the translator or the
    registry throws, the handler still returns, having inserted the text it
    was given, untranslated, with its line breaks substituted. *)
Definition fallsBackAsStated (env : Env) (props : Props) (text : jsstring)
           (isPaste : bool) (w : World) : Prop :=
  (translatePasteForImages env text = Raises
   \/ exists translated,
        translatePasteForImages env text = Returns translated
        /\ allocatePaste env (registry w) translated = Raises) ->
  handleInsert env props text isPaste w =
  Done (inserted props (sanitizeForDisplay text) w).

(** Collaborators that throw on every call, and collaborators of which only
    the registry throws. *)
Definition throwingEnv : Env :=
  mkEnv (fun _ => Raises) None (fun _ _ => Raises) 0.

Definition fullRegistryEnv : Env :=
  mkEnv (fun t => Returns t) None (fun _ _ => Raises) 0.

(** The cursor offset that a render brings: the [cursorPosition] of the new
    props when it is not the one of the render before. *)
Definition nudge (old new : OwnerProps) : option Z :=
  if optZ_eqb (cursorPosition old) (cursorPosition new) then None
  else cursorPosition new.


(* ------------------------------------------------------------------ *)
(** ** Rendering, and further properties of texts and states *)

(** What the component returns to be drawn: the placeholder, dimmed, or the
    text in three spans with the middle one inverted. *)
Inductive Rendered : Type :=
| ShowPlaceholder (text : jsstring)
| ShowLine (beforeCursor cursorChar afterCursor : jsstring).

(** The rendering part of the component, for the [placeholder] prop. *)
Definition render (placeholder : option jsstring) (w : World) : Rendered :=
  let cursorIndex := Z.min (Z.max 0 (caretOffsetRef w)) (len (displayValue w)) in
  let beforeCursor := slice (displayValue w) 0 cursorIndex in
  let cursorChar :=
    match charAt (displayValue w) cursorIndex with
    | [] => [32%N]
    | c => c
    end in
  let afterCursor := sliceFrom (displayValue w) (cursorIndex + 1) in
  match placeholder with
  | Some p =>
      if (len (displayValue w) =? 0) && (0 <? len p) then ShowPlaceholder p
      else ShowLine beforeCursor cursorChar afterCursor
  | None => ShowLine beforeCursor cursorChar afterCursor
  end.

(** A code unit that is neither CR nor LF, and a text without line breaks. *)
Definition notBreak (c : N) : Prop := c <> CR /\ c <> LF.
Definition singleLine (text : jsstring) : Prop := Forall notBreak text.

(** Occurrences of a code unit in a text. *)
Definition occurrences (c : N) (text : jsstring) : Z :=
  Z.of_nat (count_occ N.eq_dec text c).

(** The state that the next render will draw is the buffer. *)
Definition displaySynced (w : World) : Prop := nextDisplayValue w = valueRef w.

(** The sequences that name a word movement: ESC followed by the letter
    ([b] or [f], small or capital), and the modified arrows
    [ESC [ m final] and [ESC [ 1 ; m final] for a modifier digit [m] among
    3, 4, 7, 8, 9. *)
Definition modifiedArrows (final : N) : list jsstring :=
  flat_map (fun m => [[ESC; 91; m; final]; [ESC; 91; 49; 59; m; final]]%N)
           [51; 52; 55; 56; 57]%N.

Definition wordLeftSequences : list jsstring :=
  [[ESC; 98%N]; [ESC; 66%N]] ++ modifiedArrows 68.

Definition wordRightSequences : list jsstring :=
  [[ESC; 102%N]; [ESC; 70%N]] ++ modifiedArrows 67.

Definition isOnChange (c : Callback) : bool :=
  match c with
  | OnChange _ => true
  | _ => false
  end.

(** A step that leaves the text alone: the display state, the buffer and the
    last emitted value are as before, and the calls it added hold no
    [onChange]. *)
Definition quietStep (w w' : World) : Prop :=
  displayValue w' = displayValue w
  /\ nextDisplayValue w' = nextDisplayValue w
  /\ valueRef w' = valueRef w
  /\ lastEmittedValueRef w' = lastEmittedValueRef w
  /\ exists cs, calls w' = calls w ++ cs
                /\ forallb (fun c => negb (isOnChange c)) cs = true.

(** A step that commits a new text [v]: the buffer and the last emitted
    value are [v], and [v] is the state handed to [setDisplayValue] for the
    next render, while the constant [displayValue] of the current render is
    as before; the cursor is inside [v], and the calls added are one
    [onChange] with [v] and then the report of the cursor. *)
Definition emittingStep (props : Props) (w w' : World) : Prop :=
  exists v,
    nextDisplayValue w' = v /\ displayValue w' = displayValue w
    /\ valueRef w' = v /\ lastEmittedValueRef w' = v
    /\ 0 <= caretOffsetRef w' <= len v
    /\ calls w' = calls w ++ OnChange v :: cursorCalls props (caretOffsetRef w').

Definition oneStep (props : Props) (w w' : World) : Prop :=
  quietStep w w' \/ emittingStep props w w'.

(** Two states with the same display state, buffer, last emitted value and
    log. *)
Definition sameText (w w0 : World) : Prop :=
  displayValue w0 = displayValue w /\ nextDisplayValue w0 = nextDisplayValue w
  /\ valueRef w0 = valueRef w
  /\ lastEmittedValueRef w0 = lastEmittedValueRef w /\ calls w0 = calls w.

(** Key descriptors with only an arrow flag set. *)
Definition leftArrowKey : Key :=
  mkKey false false false false false true false false false.
Definition rightArrowKey : Key :=
  mkKey false false false false false false true false false.

(** The code units of a payload that the batch path inserts when the payload
    holds no backspace and no DEL. *)
Definition insertable (payload : jsstring) : jsstring :=
  filter (fun c => (32 <=? c)%N) payload.

(** The sequences on which the raw listener deletes: DEL, BS, and the three
    of the word deletion. *)
Definition deletingSequences : list jsstring :=
  [[127%N]; [8%N]] ++ wordDeleteSequences.

(* ------------------------------------------------------------------ *)
(** ** Dynamic models

    The module that [ModelSelector.tsx] imports as [agent/customModels].
    [loadProxyConfig] reads a file; what it returns is the parameter
    [config] here: [None] for its [null] (no file, or a file that cannot be
    read or parsed), and otherwise the parsed object, taken to have the
    declared type [ProxyConfig], with each object given as the list of its
    entries in the order in which [for ... in] visits them. Numbers are
    integers. A set of handles is the list of its members in the order of
    insertion. *)

Module CustomModels.

Record UpdateArgs : Type := mkUpdateArgs {
  context_window : option Z;
  max_output_tokens : option Z;
  enable_reasoner : option bool;
  max_reasoning_tokens : option Z
}.

Record UiModel : Type := mkUiModel {
  id : jsstring;
  handle : jsstring;
  label : jsstring;
  description : jsstring;
  isDefault : option bool;
  isFeatured : option bool;
  updateArgs : option UpdateArgs
}.

(** An entry of [models] in the configuration, with the optional chains
    [limit?.context], [limit?.output] and [options?.thinking?.budgetTokens]
    flattened: each is absent when any link of its chain is. *)
Record ModelConf : Type := mkModelConf {
  name : option jsstring;
  limitContext : option Z;
  limitOutput : option Z;
  reasoning : option bool;
  budgetTokens : option Z
}.

Record Provider : Type := mkProvider {
  models : option (list (jsstring * ModelConf))
}.

Record ProxyConfig : Type := mkProxyConfig {
  provider : option (list (jsstring * Provider))
}.

(** What [configModels] holds: a model's configuration under the model's
    key, and a number under the key with the prefix. *)
Inductive MapValue : Type :=
| VConf (conf : ModelConf)
| VNum (n : Z).

Definition JsMap : Type := list (jsstring * MapValue).

(** [map.get(key)] *)
Fixpoint mapGet (key : jsstring) (m : JsMap) : option MapValue :=
  match m with
  | [] => None
  | (k, v) :: rest => if eqb k key then Some v else mapGet key rest
  end.

(** [map.set(key, value)]: a key that is present keeps its place. *)
Fixpoint mapSet (key : jsstring) (value : MapValue) (m : JsMap) : JsMap :=
  match m with
  | [] => [(key, value)]
  | (k, v) :: rest =>
      if eqb k key then (k, value) :: rest else (k, v) :: mapSet key value rest
  end.

Definition SORT_PREFIX : jsstring := lit "_sort_order_".

(** The inner loop over the models of one provider, from [sortIndex]. *)
Fixpoint setModels (entries : list (jsstring * ModelConf)) (sortIndex : Z)
         (m : JsMap) : JsMap :=
  match entries with
  | [] => m
  | (modelKey, conf) :: rest =>
      let m := mapSet modelKey (VConf conf) m in
      let m := mapSet (SORT_PREFIX ++ modelKey) (VNum sortIndex) m in
      setModels rest (sortIndex + 1) m
  end.

(** The outer loop over the providers. *)
Fixpoint setProviders (providers : list (jsstring * Provider)) (m : JsMap) : JsMap :=
  match providers with
  | [] => m
  | (_, p) :: rest =>
      let m := match models p with
               | Some entries => setModels entries 0 m
               | None => m
               end in
      setProviders rest m
  end.

Definition configModels (config : option ProxyConfig) : JsMap :=
  match config with
  | Some c =>
      match provider c with
      | Some providers => setProviders providers []
      | None => []
      end
  | None => []
  end.

(** The sort index of an entry: a number, or the object found under the
    prefixed key when that key is itself the key of a model. *)
Inductive SortIndex : Type :=
| SortNum (n : Z)
| SortObject.

Definition truthyNumber (n : option Z) : option Z :=
  match n with
  | Some v => if v =? 0 then None else Some v
  | None => None
  end.

(** [conf] where the code takes the branch [if (conf)], as the fields it
    reads there: an object gives its own, a number other than 0 has none. *)
Definition emptyConf : ModelConf := mkModelConf None None None None None.

Definition truthyConf (v : option MapValue) : option ModelConf :=
  match v with
  | Some (VConf c) => Some c
  | Some (VNum n) => if n =? 0 then None else Some emptyConf
  | None => None
  end.

Definition modelKeyOf (handle : jsstring) : jsstring :=
  match split 47 handle with
  | _ :: key :: _ => key
  | _ => handle
  end.

Definition providerPrefixOf (handle : jsstring) : jsstring :=
  match split 47 handle with
  | prefix :: _ => prefix
  | [] => []
  end.

Definition describe (providerPrefix : jsstring) (configured : bool) : jsstring :=
  (if eqb providerPrefix (lit "openai-proxy") then lit "Model via ProxyPal"
   else lit "Dynamic model from " ++ providerPrefix)
    ++ (if configured then lit " (Configured)" else []).

(** The object pushed for one handle, with its [_sortIndex] beside it;
    [count] is [dynamicModels.length] at that moment. *)
Definition dynamicEntry (cm : JsMap) (handle : jsstring) (count : Z)
  : UiModel * SortIndex :=
  let modelKey := modelKeyOf handle in
  let providerPrefix := providerPrefixOf handle in
  let conf := truthyConf (mapGet modelKey cm) in
  let label :=
    match conf with
    | Some c => match name c with
                | Some n => if 0 <? len n then n else modelKey
                | None => modelKey
                end
    | None => modelKey
    end in
  let isConfigured := match conf with Some _ => true | None => false end in
  let args :=
    match conf with
    | Some c =>
        mkUpdateArgs (truthyNumber (limitContext c)) (truthyNumber (limitOutput c))
                     (match reasoning c with Some true => Some true | _ => None end)
                     (truthyNumber (budgetTokens c))
    | None => mkUpdateArgs None None None None
    end in
  let sortOrder := mapGet (SORT_PREFIX ++ modelKey) cm in
  let sortIndex :=
    match isConfigured, sortOrder with
    | true, Some (VNum n) => SortNum n
    | true, Some (VConf _) => SortObject
    | _, _ => SortNum (9999 + count)
    end in
  (mkUiModel handle handle label (describe providerPrefix isConfigured)
             None None (Some args),
   sortIndex).

(** [set.has(handle)] *)
Definition has (handles : list jsstring) (handle : jsstring) : bool :=
  existsb (eqb handle) handles.

(** The loop over the available handles, in the order of the set. *)
Definition collect (cm : JsMap) (availableHandles knownHandles : list jsstring)
  : list (UiModel * SortIndex) :=
  fold_left
    (fun dynamicModels handle =>
       if negb (has knownHandles handle)
       then dynamicModels
              ++ [dynamicEntry cm handle (Z.of_nat (List.length dynamicModels))]
       else dynamicModels)
    availableHandles [].

(** The sort indexes as numbers, when they all are. *)
Fixpoint numbered (entries : list (UiModel * SortIndex))
  : option (list (UiModel * Z)) :=
  match entries with
  | [] => Some []
  | (m, SortNum n) :: rest =>
      match numbered rest with
      | Some l => Some ((m, n) :: l)
      | None => None
      end
  | (_, SortObject) :: _ => None
  end.

(** [array.sort((a, b) => a._sortIndex - b._sortIndex)] on numbers: the
    sort is stable, so the result is the one ordered rearrangement that keeps
    entries of equal index in their order. *)
Fixpoint insertEntry (e : UiModel * Z) (sorted : list (UiModel * Z))
  : list (UiModel * Z) :=
  match sorted with
  | [] => [e]
  | x :: rest =>
      if snd e <=? snd x then e :: x :: rest else x :: insertEntry e rest
  end.

Fixpoint sortEntries (entries : list (UiModel * Z)) : list (UiModel * Z) :=
  match entries with
  | [] => []
  | e :: rest => insertEntry e (sortEntries rest)
  end.

(** [getDynamicModels(availableHandles, knownHandles)]. [None] stands for
    the one case left open: a sort index that is an object makes the
    comparator yield NaN, and the order of the result is then up to the
    engine. *)
Definition getDynamicModels (config : option ProxyConfig)
           (availableHandles knownHandles : list jsstring) : option (list UiModel) :=
  match numbered (collect (configModels config) availableHandles knownHandles) with
  | Some entries => Some (List.map fst (sortEntries entries))
  | None => None
  end.

(** The keys of the models of a configuration. *)
Definition providerKeys (p : Provider) : list jsstring :=
  match models p with
  | Some entries => List.map fst entries
  | None => []
  end.

Definition modelKeys (config : option ProxyConfig) : list jsstring :=
  match config with
  | Some c =>
      match provider c with
      | Some providers => flat_map (fun kp => providerKeys (snd kp)) providers
      | None => []
      end
  | None => []
  end.

(** No model of the configuration has a key that begins with the prefix of
    the sort orders. *)
Definition plainKeys (config : option ProxyConfig) : Prop :=
  forall k rest, In k (modelKeys config) -> k <> SORT_PREFIX ++ rest.

(** The model listed for a handle that the configuration does not know. *)
Definition unconfiguredModel (handle : jsstring) : UiModel :=
  mkUiModel handle handle (modelKeyOf handle)
            (describe (providerPrefixOf handle) false)
            None None (Some (mkUpdateArgs None None None None)).

(** The entries pushed for unconfigured handles, from the count [n] on. *)
Fixpoint unconfiguredFrom (n : Z) (handles : list jsstring) : list (UiModel * Z) :=
  match handles with
  | [] => []
  | h :: rest => (unconfiguredModel h, 9999 + n) :: unconfiguredFrom (n + 1) rest
  end.

(** A model whose key, the second segment of its handle, is the key of a
    model of the configuration. *)
Definition configured (config : option ProxyConfig) (m : UiModel) : Prop :=
  In (modelKeyOf (handle m)) (modelKeys config).

(** A key that does not begin with the prefix of the sort orders. *)
Definition plainKey (k : jsstring) : Prop := forall rest, k <> SORT_PREFIX ++ rest.

(** No provider of the configuration lists 10000 models or more. *)
Definition smallProviders (config : option ProxyConfig) : Prop :=
  match config with
  | Some c =>
      match provider c with
      | Some providers =>
          Forall (fun kp => Z.of_nat (List.length (providerKeys (snd kp))) < 10000)
                 providers
      | None => True
      end
  | None => True
  end.

End CustomModels.

(* ------------------------------------------------------------------ *)
(** ** The model selector

    [src/cli/components/ModelSelector.tsx]: the list of models with a window
    of ten rows that follows the selection. The list itself
    ([filteredModels]) and the flags [isLoading] and [refreshing] are React
    state fed by the asynchronous loader; a handler sees them as they were
    at the latest render, and they are parameters here. *)

Module ModelSelector.

(** The type the component imports from [agent/customModels]. *)
Definition UiModel : Type := CustomModels.UiModel.
Definition id : UiModel -> jsstring := CustomModels.id.
Definition handle : UiModel -> jsstring := CustomModels.handle.

(** A model with the handle [h] as its id and its label and nothing else. *)
Definition plainModel (h : jsstring) : UiModel :=
  CustomModels.mkUiModel h h h [] None None None.

(** [array.slice(start, stop)] *)
Definition arraySlice {A : Type} (l : list A) (start stop : Z) : list A :=
  let n := Z.of_nat (List.length l) in
  let from := relIndex n start in
  let to := relIndex n stop in
  firstn (Z.to_nat (to - from)) (skipn (Z.to_nat from) l).

(** [array[i]]: undefined outside the array. *)
Definition at_ {A : Type} (l : list A) (i : Z) : option A :=
  if i <? 0 then None else nth_error l (Z.to_nat i).

(** [array.findIndex(p)]: -1 when no element passes. *)
Fixpoint findIndexFrom {A : Type} (p : A -> bool) (l : list A) (i : Z) : Z :=
  match l with
  | [] => -1
  | x :: rest => if p x then i else findIndexFrom p rest (i + 1)
  end.

Definition findIndex {A : Type} (p : A -> bool) (l : list A) : Z :=
  findIndexFrom p l 0.

(** [availableModels]: not loaded yet ([undefined]), the loader failed
    ([null]), or the set of the handles the loader returned. *)
Inductive Availability : Type :=
| NotLoaded
| Failed
| Loaded (handles : list jsstring).

(** The list drawn, from the models the component knows ([typedModels], the
    table of [agent/model]) and the availability. *)
Definition filteredModelsOf (config : option CustomModels.ProxyConfig)
           (typedModels : list UiModel) (availableModels : Availability)
  : option (list UiModel) :=
  match availableModels with
  | NotLoaded => Some []
  | Failed => Some typedModels
  | Loaded handles =>
      let knownModels :=
        filter (fun model => CustomModels.has handles (handle model)) typedModels in
      let knownHandles := List.map handle knownModels in
      match CustomModels.getDynamicModels config handles knownHandles with
      | Some dynamicModels => Some (knownModels ++ dynamicModels)
      | None => None
      end
  end.

(** The calls the component makes: to its owner, and to the loader. *)
Inductive SelectorCall : Type :=
| OnCancel
| OnSelect (modelId : jsstring)
| LoadModels (forceRefresh : bool).

Record Selector : Type := mkSelector {
  selectedIndex : Z;
  startIndex : Z;
  initializedRef : bool;
  selectorCalls : list SelectorCall
}.

(** The state of the first render. *)
Definition initial : Selector := mkSelector 0 0 false [].

Record SelectorKey : Type := mkSelectorKey {
  escape : bool;
  upArrow : bool;
  downArrow : bool;
  return_ : bool
}.

Definition VISIBLE_COUNT : Z := 10.

Definition setSelectedIndex (i : Z) (s : Selector) : Selector :=
  mkSelector i (startIndex s) (initializedRef s) (selectorCalls s).

Definition setStartIndex (i : Z) (s : Selector) : Selector :=
  mkSelector (selectedIndex s) i (initializedRef s) (selectorCalls s).

Definition selectorCall (c : SelectorCall) (s : Selector) : Selector :=
  mkSelector (selectedIndex s) (startIndex s) (initializedRef s)
             (selectorCalls s ++ [c]).

Section Rendered.

Context (filteredModels : list UiModel) (isLoading refreshing : bool)
        (currentModel : option jsstring).

(** The effect that puts the selection on the current model, once. *)
Definition initialSelection (s : Selector) : Selector :=
  if negb (initializedRef s) && (0 <? Z.of_nat (List.length filteredModels)) then
    let index :=
      findIndex (fun m => match currentModel with
                          | Some c => eqb (handle m) c
                          | None => false
                          end) filteredModels in
    let s :=
      if 0 <=? index then
        let s := setSelectedIndex index s in
        if VISIBLE_COUNT - 1 <? index
        then setStartIndex (Z.max 0 (index - VISIBLE_COUNT / 2)) s
        else s
      else s in
    mkSelector (selectedIndex s) (startIndex s) true (selectorCalls s)
  else s.

Definition visibleModels (s : Selector) : list UiModel :=
  arraySlice filteredModels (startIndex s) (startIndex s + VISIBLE_COUNT).

Definition totalItems : Z := Z.of_nat (List.length filteredModels).

(** The handler given to [useInput]. *)
Definition selectorInput (input : jsstring) (key : SelectorKey) (s : Selector)
  : Selector :=
  if escape key then selectorCall OnCancel s
  else if eqb input [114%N] && negb refreshing then
    selectorCall (LoadModels true) s
  else if isLoading || refreshing || (totalItems =? 0) then s
  else if upArrow key then
    let nextIndex := Z.max 0 (selectedIndex s - 1) in
    let s' := setSelectedIndex nextIndex s in
    if nextIndex <? startIndex s then setStartIndex nextIndex s' else s'
  else if downArrow key then
    let nextIndex := Z.min (totalItems - 1) (selectedIndex s + 1) in
    let s' := setSelectedIndex nextIndex s in
    if startIndex s + VISIBLE_COUNT <=? nextIndex
    then setStartIndex (nextIndex - VISIBLE_COUNT + 1) s'
    else s'
  else if return_ key then
    match at_ filteredModels (selectedIndex s) with
    | Some selectedModel => selectorCall (OnSelect (id selectedModel)) s
    | None => s
    end
  else s.

(** The two hints around the rows: how many models lie above the window,
    and how many below it; [None] when the hint is not drawn. *)
Definition moreAbove (s : Selector) : option Z :=
  if 0 <? startIndex s then Some (startIndex s) else None.

Definition moreBelow (s : Selector) : option Z :=
  if startIndex s + VISIBLE_COUNT <? totalItems
  then Some (totalItems - (startIndex s + VISIBLE_COUNT))
  else None.

End Rendered.

(** The selection is a row of the list and lies inside the window. *)
Definition selectionVisible (total : Z) (s : Selector) : Prop :=
  0 <= startIndex s <= selectedIndex s
  /\ selectedIndex s < startIndex s + VISIBLE_COUNT
  /\ selectedIndex s < total.

End ModelSelector.

(* ------------------------------------------------------------------ *)
(** ** Facts about JavaScript strings *)

Lemma eqb_eq (a b : jsstring) : eqb a b = true <-> a = b.
Proof.
  revert b; induction a as [|x a IH]; intros [|y b]; simpl; split;
    try congruence; try reflexivity.
  - intros H. apply andb_true_iff in H as [Hx Hab].
    apply N.eqb_eq in Hx. apply IH in Hab. congruence.
  - intros H. injection H as -> ->.
    rewrite N.eqb_refl. simpl. now apply IH.
Qed.

Lemma eqb_refl (a : jsstring) : eqb a a = true.
Proof. now apply eqb_eq. Qed.

Lemma eqb_neq (a b : jsstring) : eqb a b = false <-> a <> b.
Proof.
  split.
  - intros H E. apply eqb_eq in E. congruence.
  - intros H. destruct (eqb a b) eqn:E; [|reflexivity].
    apply eqb_eq in E. contradiction.
Qed.

Lemma len_nonneg (s : jsstring) : 0 <= len s.
Proof. unfold len. lia. Qed.

Lemma len_app (a b : jsstring) : len (a ++ b) = len a + len b.
Proof. unfold len. rewrite length_app. lia. Qed.

Lemma len_cons (c : N) (s : jsstring) : len (c :: s) = len s + 1.
Proof. unfold len. simpl List.length. lia. Qed.

(** Inside the string, [slice(0, pos)] and [slice(pos)] are the two sides of
    the cursor. *)
Lemma slice_prefix (s : jsstring) (pos : Z) :
  0 <= pos <= len s -> slice s 0 pos = firstn (Z.to_nat pos) s.
Proof.
  intros H. unfold slice, relIndex.
  assert (E0 : (0 <? 0) = false) by reflexivity. rewrite E0.
  assert (Ep : (pos <? 0) = false) by (apply Z.ltb_ge; lia). rewrite Ep.
  rewrite (Z.min_l 0) by lia.
  rewrite (Z.min_l pos) by lia. simpl skipn. f_equal. lia.
Qed.

Lemma sliceFrom_suffix (s : jsstring) (pos : Z) :
  0 <= pos <= len s -> sliceFrom s pos = skipn (Z.to_nat pos) s.
Proof.
  intros H. unfold sliceFrom, relIndex.
  assert (Ep : (pos <? 0) = false) by (apply Z.ltb_ge; lia). rewrite Ep.
  now rewrite Z.min_l by lia.
Qed.

(** Past the end, [slice(pos)] is empty and [slice(0, pos)] is everything. *)
Lemma sliceFrom_beyond (s : jsstring) (pos : Z) :
  len s <= pos -> sliceFrom s pos = [].
Proof.
  intros H. pose proof (len_nonneg s) as Hn. unfold sliceFrom, relIndex.
  assert (Ep : (pos <? 0) = false) by (apply Z.ltb_ge; lia). rewrite Ep.
  rewrite Z.min_r by lia. apply skipn_all2. unfold len. lia.
Qed.

Lemma slice_split_at (bf af : jsstring) :
  slice (bf ++ af) 0 (len bf) = bf /\ sliceFrom (bf ++ af) (len bf) = af.
Proof.
  pose proof (len_nonneg bf) as Hb. pose proof (len_nonneg af) as Ha.
  split.
  - rewrite slice_prefix by (rewrite len_app; lia).
    unfold len. rewrite Nat2Z.id.
    rewrite firstn_app, firstn_all, Nat.sub_diag. simpl. apply app_nil_r.
  - rewrite sliceFrom_suffix by (rewrite len_app; lia).
    unfold len. rewrite Nat2Z.id.
    rewrite skipn_app, skipn_all, Nat.sub_diag. reflexivity.
Qed.

Lemma firstn_skipn_len (s : jsstring) (pos : Z) :
  0 <= pos <= len s -> len (firstn (Z.to_nat pos) s) = pos.
Proof.
  intros H. unfold len in *. rewrite length_firstn. lia.
Qed.

Lemma len_skipn (s : jsstring) (pos : Z) :
  0 <= pos <= len s -> len (skipn (Z.to_nat pos) s) = len s - pos.
Proof.
  intros H. unfold len in *. rewrite length_skipn. lia.
Qed.

(** The character before the cursor is the last one of the left side. *)
Lemma slice_removelast (bf af : jsstring) :
  bf <> [] -> slice (bf ++ af) 0 (len bf - 1) = removelast bf.
Proof.
  intros Hne.
  destruct (exists_last Hne) as [bf' [c ->]].
  rewrite removelast_last.
  rewrite len_app. change (len [c]) with 1.
  replace (len bf' + 1 - 1) with (len bf') by lia.
  rewrite <- app_assoc. apply slice_split_at.
Qed.

(* ------------------------------------------------------------------ *)
(** ** The loops terminate by their own condition *)

Lemma whileDec_le (cond : Z -> bool) (fuel : nat) (pos : Z) :
  whileDec cond fuel pos <= pos.
Proof.
  revert pos; induction fuel as [|f IH]; intros pos; simpl; [lia|].
  destruct (cond pos); [|lia]. specialize (IH (pos - 1)). lia.
Qed.

Lemma whileDec_nonneg (cond : Z -> bool) (fuel : nat) (pos : Z) :
  (forall p, cond p = true -> 0 < p) -> 0 <= pos ->
  0 <= whileDec cond fuel pos.
Proof.
  intros Hg. revert pos; induction fuel as [|f IH]; intros pos Hp; simpl; [lia|].
  destruct (cond pos) eqn:E; [|lia]. apply IH. apply Hg in E. lia.
Qed.

(** With [Z.to_nat pos] iterations a guarded backward loop stops because its
    condition fails, not because the bound was reached. *)
Lemma whileDec_exit (cond : Z -> bool) (fuel : nat) (pos : Z) :
  (forall p, cond p = true -> 0 < p) -> (Z.to_nat pos <= fuel)%nat ->
  cond (whileDec cond fuel pos) = false.
Proof.
  intros Hg. revert pos; induction fuel as [|f IH]; intros pos Hf; simpl.
  - destruct (cond pos) eqn:E; [|reflexivity]. apply Hg in E. lia.
  - destruct (cond pos) eqn:E; [|exact E]. apply IH. apply Hg in E. lia.
Qed.

Lemma whileInc_ge (cond : Z -> bool) (fuel : nat) (pos : Z) :
  pos <= whileInc cond fuel pos.
Proof.
  revert pos; induction fuel as [|f IH]; intros pos; simpl; [lia|].
  destruct (cond pos); [|lia]. specialize (IH (pos + 1)). lia.
Qed.

Lemma whileInc_bounded (cond : Z -> bool) (bound : Z) (fuel : nat) (pos : Z) :
  (forall p, cond p = true -> p < bound) -> pos <= bound ->
  whileInc cond fuel pos <= bound.
Proof.
  intros Hg. revert pos; induction fuel as [|f IH]; intros pos Hp; simpl; [lia|].
  destruct (cond pos) eqn:E; [|lia]. apply IH. apply Hg in E. lia.
Qed.

Lemma whileInc_exit (cond : Z -> bool) (bound : Z) (fuel : nat) (pos : Z) :
  (forall p, cond p = true -> p < bound) -> (Z.to_nat (bound - pos) <= fuel)%nat ->
  cond (whileInc cond fuel pos) = false.
Proof.
  intros Hg. revert pos; induction fuel as [|f IH]; intros pos Hf; simpl.
  - destruct (cond pos) eqn:E; [|reflexivity]. apply Hg in E. lia.
  - destruct (cond pos) eqn:E; [|exact E]. apply IH. apply Hg in E. lia.
Qed.

Lemma guard_back (test : jsstring -> bool) (text : jsstring) (p : Z) :
  (0 <? p) && test (charAt text p) = true -> 0 < p.
Proof. intros H. apply andb_true_iff in H as [H _]. now apply Z.ltb_lt. Qed.

Lemma guard_fwd (test : jsstring -> bool) (text : jsstring) (p : Z) :
  (p <? len text) && test (charAt text p) = true -> p < len text.
Proof. intros H. apply andb_true_iff in H as [H _]. now apply Z.ltb_lt. Qed.

(** Both loops of [findPreviousWordBoundary] end with their condition false. *)
Lemma skipSpaceBack_exit (text : jsstring) (pos : Z) :
  let r := skipSpaceBack text pos in
  (0 <? r) && testSpace (charAt text r) = false.
Proof.
  unfold skipSpaceBack.
  apply (whileDec_exit (fun p => (0 <? p) && testSpace (charAt text p))).
  - intros p. apply guard_back.
  - lia.
Qed.

Lemma skipWordBack_exit (text : jsstring) (pos : Z) :
  let r := skipWordBack text pos in
  (0 <? r) && testNonSpace (charAt text r) = false.
Proof.
  unfold skipWordBack.
  apply (whileDec_exit (fun p => (0 <? p) && testNonSpace (charAt text p))).
  - intros p. apply guard_back.
  - lia.
Qed.

(** Both loops of [findNextWordBoundary] end with their condition false. *)
Lemma skipWordFwd_exit (text : jsstring) (pos : Z) :
  let r := skipWordFwd text pos in
  (r <? len text) && testNonSpace (charAt text r) = false.
Proof.
  unfold skipWordFwd.
  apply (whileInc_exit (fun p => (p <? len text) && testNonSpace (charAt text p))
                       (len text)).
  - intros p. apply guard_fwd.
  - lia.
Qed.

Lemma skipSpaceFwd_exit (text : jsstring) (pos : Z) :
  let r := skipSpaceFwd text pos in
  (r <? len text) && testSpace (charAt text r) = false.
Proof.
  unfold skipSpaceFwd.
  apply (whileInc_exit (fun p => (p <? len text) && testSpace (charAt text p))
                       (len text)).
  - intros p. apply guard_fwd.
  - lia.
Qed.

(** For a cursor at or right of the start, the previous word boundary lies
    between the start and the cursor. *)
Lemma findPreviousWordBoundary_range (text : jsstring) (cursorPos : Z) :
  0 <= cursorPos ->
  0 <= findPreviousWordBoundary text cursorPos <= cursorPos.
Proof.
  intros H. unfold findPreviousWordBoundary.
  destruct (cursorPos =? 0) eqn:E0; [lia|].
  apply Z.eqb_neq in E0.
  set (p1 := skipSpaceBack text (cursorPos - 1)).
  set (p2 := skipWordBack text p1).
  assert (H1 : 0 <= p1 <= cursorPos - 1).
  { unfold p1, skipSpaceBack. split.
    - apply whileDec_nonneg; [intros p; apply guard_back | lia].
    - apply whileDec_le. }
  assert (H2 : 0 <= p2 <= p1).
  { unfold p2, skipWordBack. split.
    - apply whileDec_nonneg; [intros p; apply guard_back | lia].
    - apply whileDec_le. }
  destruct ((0 <? p2) && testSpace (charAt text p2)); lia.
Qed.

Lemma findNextWordBoundary_range (text : jsstring) (cursorPos : Z) :
  0 <= cursorPos ->
  0 <= findNextWordBoundary text cursorPos <= len text.
Proof.
  intros H. pose proof (len_nonneg text) as Hn. unfold findNextWordBoundary.
  destruct (len text <=? cursorPos) eqn:E; [lia|].
  apply Z.leb_gt in E.
  set (p1 := skipWordFwd text cursorPos).
  assert (H1 : cursorPos <= p1 <= len text).
  { unfold p1, skipWordFwd. split.
    - apply whileInc_ge.
    - apply whileInc_bounded; [intros p; apply guard_fwd | lia]. }
  unfold skipSpaceFwd. split.
  - pose proof (whileInc_ge
      (fun p => (p <? len text) && testSpace (charAt text p))
      (Z.to_nat (len text - p1)) p1). lia.
  - apply whileInc_bounded; [intros p; apply guard_fwd | lia].
Qed.

(* ------------------------------------------------------------------ *)
(** ** The cursor and the buffer *)

Lemma updateCursor_world (props : Props) (newPos : Z) (w : World) :
  updateCursor props newPos w =
  mkWorld (displayValue w) (nextDisplayValue w) (valueRef w)
          (clamp (len (valueRef w)) newPos)
          (lastEmittedValueRef w) (lastPasteDetectedAtRef w) (registry w)
          (calls w ++ cursorCalls props (clamp (len (valueRef w)) newPos)).
Proof.
  unfold updateCursor, cursorCalls, clamp, call, setCaret.
  destruct (onCursorMove props); simpl; [reflexivity|].
  now rewrite app_nil_r.
Qed.

Lemma updateValue_world (props : Props) (v : jsstring) (c : Z) (w : World) :
  updateValue props v (Some c) w =
  mkWorld (displayValue w) v v (clamp (len v) c) v
          (lastPasteDetectedAtRef w) (registry w)
          (calls w ++ OnChange v :: cursorCalls props (clamp (len v) c)).
Proof.
  unfold updateValue. rewrite updateCursor_world. unfold call. simpl.
  now rewrite <- app_assoc.
Qed.

Lemma clamp_range (n pos : Z) : 0 <= n -> 0 <= clamp n pos <= n.
Proof. unfold clamp. lia. Qed.

Lemma clamp_id (n pos : Z) : 0 <= pos <= n -> clamp n pos = pos.
Proof. unfold clamp. lia. Qed.

Lemma updateCursor_inRange (props : Props) (newPos : Z) (w : World) :
  cursorInRange (updateCursor props newPos w).
Proof.
  rewrite updateCursor_world. unfold cursorInRange. simpl.
  apply clamp_range, len_nonneg.
Qed.

Lemma updateValue_inRange (props : Props) (v : jsstring) (c : Z) (w : World) :
  cursorInRange (updateValue props v (Some c) w).
Proof.
  rewrite updateValue_world. unfold cursorInRange. simpl.
  apply clamp_range, len_nonneg.
Qed.

Lemma deleteCharacter_inRange (props : Props) (forward : bool) (w : World) :
  cursorInRange w -> cursorInRange (deleteCharacter props forward w).
Proof.
  intros H. unfold deleteCharacter.
  destruct forward.
  - destruct (caretOffsetRef w <? len (valueRef w)); [|exact H].
    apply updateValue_inRange.
  - destruct (0 <? caretOffsetRef w); [|exact H].
    apply updateValue_inRange.
Qed.

Lemma handleInsert_inRange (env : Env) (props : Props) (text : jsstring)
      (isPaste : bool) (w : World) :
  cursorInRange w -> cursorInRange (worldOf (handleInsert env props text isPaste w)).
Proof.
  intros H. unfold handleInsert.
  destruct (isPaste || (5 <? len text)).
  - destruct (translatePasteForImages env text) as [translated|]; [|exact H].
    destruct ((500 <? len text) || (5 <? countLines translated)).
    + destruct (allocatePaste env (registry w) translated) as [[i reg]|]; [|exact H].
      apply updateValue_inRange.
    + apply updateValue_inRange.
  - apply updateValue_inRange.
Qed.

Lemma navigation_inRange (props : Props) (input : jsstring) (key : Key) (w : World) :
  cursorInRange w -> cursorInRange (navigation props input key w).
Proof.
  intros H. unfold navigation.
  destruct (return_ key).
  { destruct (onSubmit props); exact H. }
  destruct (leftArrow key); [apply updateCursor_inRange|].
  destruct (rightArrow key); [apply updateCursor_inRange|].
  destruct (ctrl key || meta key); [exact H|].
  assert (He : cursorInRange (explicitKeys props key w)).
  { unfold explicitKeys.
    destruct (backspace key); [now apply deleteCharacter_inRange|].
    destruct (delete key); [now apply deleteCharacter_inRange|exact H]. }
  unfold batchPath.
  destruct (0 <? len input); [|exact He].
  destruct (processed (batch input key w)); [|exact He].
  apply updateValue_inRange.
Qed.

Lemma pasteShortcuts_inRange (env : Env) (props : Props) (input : jsstring)
      (key : Key) (w : World) :
  cursorInRange w -> cursorInRange (worldOf (pasteShortcuts env props input key w)).
Proof.
  intros H. unfold pasteShortcuts.
  destruct ((meta key && isV input) || (ctrl key && shift key && isV input)).
  - destruct (tryImportClipboardImageMac env) as [p|].
    + destruct (0 <? len p).
      * now apply handleInsert_inRange.
      * simpl. now apply navigation_inRange.
    + simpl. now apply navigation_inRange.
  - simpl. now apply navigation_inRange.
Qed.

Lemma inputHandler_inRange (env : Env) (props : Props) (input : jsstring)
      (key : Key) (w : World) :
  cursorInRange w -> cursorInRange (worldOf (inputHandler env props input key w)).
Proof.
  intros H. unfold inputHandler.
  destruct (isPasted key); [|now apply pasteShortcuts_inRange].
  assert (H' : cursorInRange (setLastPasteDetectedAt (dateNow env) w)) by exact H.
  destruct (translatePasteForImages env input) as [translated|]; [|exact H'].
  match goal with
  | |- context [if 0 <? len ?t then _ else _] => destruct (0 <? len t)
  end.
  - now apply handleInsert_inRange.
  - now apply pasteShortcuts_inRange.
Qed.

Lemma handleRawInput_inRange (props : Props) (sequence : jsstring) (w : World) :
  cursorInRange w -> cursorInRange (handleRawInput props sequence w).
Proof.
  intros H. unfold handleRawInput.
  destruct (negb (focus props)); [exact H|].
  destruct (len sequence =? 0); [exact H|].
  destruct (eqb sequence [127%N] || eqb sequence [8%N]);
    [now apply deleteCharacter_inRange|].
  match goal with
  | |- context [if ?c then deletePreviousWord _ _ else _] => destruct c
  end.
  { unfold deletePreviousWord.
    match goal with |- context [if ?c then w else _] => destruct c end;
      [exact H | apply updateValue_inRange]. }
  destruct ((len sequence <=? 32) && includes sequence ESC); [|exact H].
  destruct (firstDirection (tl (split ESC sequence))) as [[|]|];
    [apply updateCursor_inRange | apply updateCursor_inRange | exact H].
Qed.

Lemma valueSyncEffect_inRange (value : jsstring) (w : World) :
  cursorInRange w -> cursorInRange (valueSyncEffect value w).
Proof.
  intros H. unfold valueSyncEffect.
  destruct (negb (eqb value (lastEmittedValueRef w))); [|exact H].
  unfold cursorInRange. simpl. pose proof (len_nonneg value). lia.
Qed.

(** A render takes the state, runs the value effect when [value] changed,
    and then sets the cursor to the offset it brings, if any. *)
Lemma rerender_effects (old new : OwnerProps) (w : World) :
  rerender old new w =
  cursorPositionEffect (nudge old new)
    (if eqb (value old) (value new) then useState w
     else valueSyncEffect (value new) (useState w)).
Proof.
  unfold rerender, nudge.
  destruct (optZ_eqb (cursorPosition old) (cursorPosition new)); reflexivity.
Qed.

Lemma nudge_none (old new : OwnerProps) :
  cursorPosition old = cursorPosition new -> nudge old new = None.
Proof.
  intros H. unfold nudge. rewrite H.
  destruct (cursorPosition new) as [y|]; simpl; [|reflexivity].
  now rewrite Z.eqb_refl.
Qed.

Lemma nudge_some (old new : OwnerProps) :
  cursorPosition old <> cursorPosition new ->
  nudge old new = cursorPosition new.
Proof.
  intros H. unfold nudge.
  destruct (optZ_eqb (cursorPosition old) (cursorPosition new)) eqn:E;
    [|reflexivity].
  exfalso. apply H.
  destruct (cursorPosition old) as [x|], (cursorPosition new) as [y|];
    simpl in E; try discriminate; [|reflexivity].
  apply Z.eqb_eq in E. now subst.
Qed.

(** A render whose dependencies both changed runs the value effect and then
    the cursor effect. *)
Lemma rerender_both (old new : OwnerProps) (w : World) :
  value old <> value new -> cursorPosition old <> cursorPosition new ->
  rerender old new w =
  cursorPositionEffect (cursorPosition new)
    (valueSyncEffect (value new) (useState w)).
Proof.
  intros Hv Hc. rewrite rerender_effects, (nudge_some old new Hc).
  apply eqb_neq in Hv. now rewrite Hv.
Qed.

(** A render whose [value] alone changed runs the value effect only. *)
Lemma rerender_value (old new : OwnerProps) (w : World) :
  value old <> value new -> cursorPosition old = cursorPosition new ->
  rerender old new w = valueSyncEffect (value new) (useState w).
Proof.
  intros Hv Hc. rewrite rerender_effects, (nudge_none old new Hc).
  apply eqb_neq in Hv. now rewrite Hv.
Qed.

(** A render whose [value] is the one of the render before runs no value
    effect. *)
Lemma rerender_same_value (old new : OwnerProps) (w : World) :
  value old = value new ->
  rerender old new w = cursorPositionEffect (nudge old new) (useState w).
Proof.
  intros Hv. rewrite rerender_effects, Hv. now rewrite eqb_refl.
Qed.

(* ------------------------------------------------------------------ *)
(** ** Reconciliation with the owner's value *)




Lemma updateValue_emitted (props : Props) (v : jsstring) (c : Z) (w : World) :
  emittedOrKept w (updateValue props v (Some c) w).
Proof.
  right. rewrite updateValue_world. simpl. eauto.
Qed.

Lemma kept (w : World) : emittedOrKept w w.
Proof. now left. Qed.

Lemma updateCursor_kept (props : Props) (p : Z) (w : World) :
  emittedOrKept w (updateCursor props p w).
Proof. left. now rewrite updateCursor_world. Qed.

Lemma deleteCharacter_emitted (props : Props) (forward : bool) (w : World) :
  emittedOrKept w (deleteCharacter props forward w).
Proof.
  unfold deleteCharacter. destruct forward.
  - destruct (caretOffsetRef w <? len (valueRef w));
      [apply updateValue_emitted | apply kept].
  - destruct (0 <? caretOffsetRef w);
      [apply updateValue_emitted | apply kept].
Qed.

Lemma handleInsert_emitted (env : Env) (props : Props) (text : jsstring)
      (isPaste : bool) (w : World) :
  emittedOrKept w (worldOf (handleInsert env props text isPaste w)).
Proof.
  unfold handleInsert.
  destruct (isPaste || (5 <? len text)).
  - destruct (translatePasteForImages env text) as [translated|]; [|apply kept].
    destruct ((500 <? len text) || (5 <? countLines translated)).
    + destruct (allocatePaste env (registry w) translated) as [[i reg]|];
        [|apply kept].
      apply (updateValue_emitted props _ _ (setRegistry reg w)).
    + apply updateValue_emitted.
  - apply updateValue_emitted.
Qed.

Lemma navigation_emitted (props : Props) (input : jsstring) (key : Key) (w : World) :
  emittedOrKept w (navigation props input key w).
Proof.
  unfold navigation.
  destruct (return_ key).
  { destruct (onSubmit props); now left. }
  destruct (leftArrow key); [apply updateCursor_kept|].
  destruct (rightArrow key); [apply updateCursor_kept|].
  destruct (ctrl key || meta key); [apply kept|].
  assert (He : emittedOrKept w (explicitKeys props key w)).
  { unfold explicitKeys.
    destruct (backspace key); [apply deleteCharacter_emitted|].
    destruct (delete key); [apply deleteCharacter_emitted|apply kept]. }
  unfold batchPath.
  destruct (0 <? len input); [|exact He].
  destruct (processed (batch input key w)); [|exact He].
  apply updateValue_emitted.
Qed.

Lemma pasteShortcuts_emitted (env : Env) (props : Props) (input : jsstring)
      (key : Key) (w : World) :
  emittedOrKept w (worldOf (pasteShortcuts env props input key w)).
Proof.
  unfold pasteShortcuts.
  destruct ((meta key && isV input) || (ctrl key && shift key && isV input)).
  - destruct (tryImportClipboardImageMac env) as [p|].
    + destruct (0 <? len p).
      * apply handleInsert_emitted.
      * apply navigation_emitted.
    + apply navigation_emitted.
  - apply navigation_emitted.
Qed.

Lemma inputHandler_emitted (env : Env) (props : Props) (input : jsstring)
      (key : Key) (w : World) :
  emittedOrKept w (worldOf (inputHandler env props input key w)).
Proof.
  unfold inputHandler.
  destruct (isPasted key); [|apply pasteShortcuts_emitted].
  destruct (translatePasteForImages env input) as [translated|]; [|now left].
  match goal with
  | |- context [if 0 <? len ?t then _ else _] => destruct (0 <? len t)
  end.
  - apply (handleInsert_emitted env props _ true
             (setLastPasteDetectedAt (dateNow env) w)).
  - apply (pasteShortcuts_emitted env props input key
             (setLastPasteDetectedAt (dateNow env) w)).
Qed.

Lemma handleRawInput_emitted (props : Props) (sequence : jsstring) (w : World) :
  emittedOrKept w (handleRawInput props sequence w).
Proof.
  unfold handleRawInput.
  destruct (negb (focus props)); [apply kept|].
  destruct (len sequence =? 0); [apply kept|].
  destruct (eqb sequence [127%N] || eqb sequence [8%N]);
    [apply deleteCharacter_emitted|].
  match goal with
  | |- context [if ?c then deletePreviousWord _ _ else _] => destruct c
  end.
  { unfold deletePreviousWord.
    match goal with |- context [if ?c then w else _] => destruct c end;
      [apply kept | apply updateValue_emitted]. }
  destruct ((len sequence <=? 32) && includes sequence ESC); [|apply kept].
  destruct (firstDirection (tl (split ESC sequence))) as [[|]|];
    [apply updateCursor_kept | apply updateCursor_kept | apply kept].
Qed.

(** C10 (external replacement is silent). The value effect, whatever value
    the owner supplies, adds no call to the log (neither [onChange] nor
    [onCursorMove]) and leaves [lastEmittedValueRef] and the registry as they
    were; so does a whole render. [updateValue] sets [lastEmittedValueRef] to
    the value it hands to [onChange], and a step of the input handler or of
    the raw listener changes [lastEmittedValueRef] only in that way. *)
Theorem external_replacement_is_silent (env : Env) (props : Props) :
  (forall value w,
      let w1 := valueSyncEffect value w in
      calls w1 = calls w
      /\ lastEmittedValueRef w1 = lastEmittedValueRef w
      /\ registry w1 = registry w)
  /\ (forall old new w,
        let w1 := rerender old new w in
        calls w1 = calls w /\ lastEmittedValueRef w1 = lastEmittedValueRef w)
  /\ (forall v c w,
        let w1 := updateValue props v c w in
        lastEmittedValueRef w1 = v
        /\ exists cs, calls w1 = calls w ++ OnChange v :: cs)
  /\ (forall input key w,
        emittedOrKept w (worldOf (inputHandler env props input key w)))
  /\ (forall sequence w, emittedOrKept w (handleRawInput props sequence w)).
Proof.
  assert (Hsync : forall value w,
             calls (valueSyncEffect value w) = calls w
             /\ lastEmittedValueRef (valueSyncEffect value w) = lastEmittedValueRef w
             /\ registry (valueSyncEffect value w) = registry w).
  { intros value w. unfold valueSyncEffect.
    destruct (negb (eqb value (lastEmittedValueRef w))); simpl; auto. }
  assert (Hcur : forall c w,
             calls (cursorPositionEffect c w) = calls w
             /\ lastEmittedValueRef (cursorPositionEffect c w) = lastEmittedValueRef w).
  { intros [n|] w; simpl; auto. }
  split; [exact Hsync|]. split; [|split; [|split]].
  - intros old new w. cbv zeta. rewrite rerender_effects.
    set (w0 := if eqb (value old) (value new) then useState w
               else valueSyncEffect (value new) (useState w)).
    assert (H0 : calls w0 = calls w
                 /\ lastEmittedValueRef w0 = lastEmittedValueRef w).
    { unfold w0. destruct (eqb (value old) (value new)); [auto|].
      destruct (Hsync (value new) (useState w)) as [? [? _]]. auto. }
    destruct H0 as [Hc Hl].
    destruct (Hcur (nudge old new) w0) as [Hc' Hl']. split; congruence.
  - intros v [c|] w; cbv zeta.
    + rewrite updateValue_world. simpl. eauto.
    + unfold updateValue, call. simpl. eauto.
  - apply inputHandler_emitted.
  - apply handleRawInput_emitted.
Qed.

(* ------------------------------------------------------------------ *)
(** ** Deleting at the ends of the buffer *)

(** C8 (boundary deletions). With the cursor at 0 a backward deletion returns
    the state it was given, and with the cursor at the length of the text a
    forward deletion does: text, cursor and the log of calls are the same, so
    nothing was emitted; [deleteCharacter] has no failing outcome. The same
    holds for the Backspace and Delete keys arriving at the input handler and
    for a lone DEL on the raw stream. *)
Theorem boundary_deletions (env : Env) (props : Props) (w : World) :
  (caretOffsetRef w = 0 ->
     deleteCharacter props false w = w
     /\ inputHandler env props [] backspaceKey w = Done w
     /\ handleRawInput props [127%N] w = w)
  /\ (caretOffsetRef w = len (valueRef w) ->
        deleteCharacter props true w = w
        /\ inputHandler env props [] deleteKey w = Done w).
Proof.
  split.
  - intros H0.
    assert (Hd : deleteCharacter props false w = w).
    { unfold deleteCharacter. now rewrite H0. }
    split; [exact Hd|]. split.
    + change (Done (deleteCharacter props false w) = Done w). now rewrite Hd.
    + unfold handleRawInput. destruct (negb (focus props)); [reflexivity|].
      exact Hd.
  - intros Hl.
    assert (Hd : deleteCharacter props true w = w).
    { unfold deleteCharacter. rewrite Hl. now rewrite Z.ltb_irrefl. }
    split; [exact Hd|].
    change (Done (deleteCharacter props true w) = Done w). now rewrite Hd.
Qed.

Lemma boundary_deletions_witness :
  let props := mkProps true true true in
  let atStart := setCaret 0 (mount (lit "abc") (mkRegistry 1 [])) in
  let atEnd := mount (lit "abc") (mkRegistry 1 []) in
  (caretOffsetRef atStart = 0
   /\ inputHandler plainEnv props [] backspaceKey atStart = Done atStart)
  /\ (caretOffsetRef atEnd = len (valueRef atEnd)
      /\ inputHandler plainEnv props [] deleteKey atEnd = Done atEnd).
Proof.
  intros props atStart atEnd. split.
  - split; [reflexivity|].
    destruct (boundary_deletions plainEnv props atStart) as [H _].
    destruct (H eq_refl) as [_ [Hk _]]. exact Hk.
  - split; [reflexivity|].
    destruct (boundary_deletions plainEnv props atEnd) as [_ H].
    destruct (H eq_refl) as [_ Hk]. exact Hk.
Defined.

(* ------------------------------------------------------------------ *)
(** ** The cursor invariant *)

(** Every operation that moves the cursor through [updateCursor] keeps it
    inside the text: the input handler, whatever it ends with, the raw
    listener and the value effect keep [cursorInRange]. *)
Lemma cursor_invariant_of_handlers (env : Env) (props : Props) (w : World) :
  cursorInRange w ->
  (forall input key, cursorInRange (worldOf (inputHandler env props input key w)))
  /\ (forall sequence, cursorInRange (handleRawInput props sequence w))
  /\ (forall value, cursorInRange (valueSyncEffect value w))
  /\ (forall pos, cursorInRange (updateCursor props pos w)).
Proof.
  intros H. repeat split.
  - now apply inputHandler_inRange.
  - now apply inputHandler_inRange.
  - now apply handleRawInput_inRange.
  - now apply handleRawInput_inRange.
  - now apply valueSyncEffect_inRange.
  - now apply valueSyncEffect_inRange.
  - apply updateCursor_inRange.
  - apply updateCursor_inRange.
Qed.

(** C3 (cursor invariant), at the input where it breaks. The effect for the
    [cursorPosition] prop stores the owner's offset as it is: on the text
    ["abc"], a render that brings [cursorPosition = 7] leaves the cursor at
    7, beyond the length 3, and one that brings [-1] leaves it at -1. A
    character typed next is then spliced in by [slice] with that negative
    index: it lands before the last character of the text. *)
Theorem cursorPosition_is_not_clamped :
  let w := mount (lit "abc") (mkRegistry 1 []) in
  let supply n := rerender (mkOwnerProps (lit "abc") None)
                           (mkOwnerProps (lit "abc") (Some n)) w in
  cursorInRange w
  /\ valueRef (supply 7) = lit "abc"
  /\ caretOffsetRef (supply 7) = 7
  /\ ~ cursorInRange (supply 7)
  /\ caretOffsetRef (supply (-1)) = -1
  /\ ~ cursorInRange (supply (-1))
  /\ valueRef (worldOf (inputHandler plainEnv (mkProps true true true)
                                    (lit "x") plainKey (supply (-1))))
     = lit "abxc".
Proof.
  cbv zeta. unfold cursorInRange.
  repeat split; try reflexivity; vm_compute; intuition discriminate.
Qed.

(* ------------------------------------------------------------------ *)
(** ** Deleting the previous word *)

Lemma handleRawInput_wordDelete (props : Props) (sequence : jsstring) (w : World) :
  focus props = true -> In sequence wordDeleteSequences ->
  handleRawInput props sequence w = deletePreviousWord props w.
Proof.
  intros Hf Hin. unfold handleRawInput. rewrite Hf.
  destruct Hin as [<-|[<-|[<-|[]]]]; reflexivity.
Qed.

(** With the input focused and the cursor inside the text, a
    word-delete-backward sequence removes the characters from
    [findPreviousWordBoundary text pos] up to [pos] and nothing else: the new
    text is what lay before that position followed by what lay from the
    cursor on, the cursor is at that position, and the step is one
    [updateValue]. When that position is the cursor itself the state, log
    included, is returned as it was. *)
Lemma deletePreviousWord_span (props : Props) (sequence : jsstring) (w : World) :
  focus props = true ->
  In sequence wordDeleteSequences ->
  cursorInRange w ->
  let text := valueRef w in
  let pos := caretOffsetRef w in
  let start := findPreviousWordBoundary text pos in
  let next := firstn (Z.to_nat start) text ++ skipn (Z.to_nat pos) text in
  (start = pos -> handleRawInput props sequence w = w)
  /\ (start <> pos ->
        handleRawInput props sequence w =
        mkWorld (displayValue w) next next start next
                (lastPasteDetectedAtRef w) (registry w)
                (calls w ++ OnChange next :: cursorCalls props start)
        /\ len next = len text - (pos - start)).
Proof.
  intros Hf Hin Hr. cbv zeta.
  rewrite (handleRawInput_wordDelete props sequence w Hf Hin).
  unfold deletePreviousWord, cursorInRange in *.
  pose proof (findPreviousWordBoundary_range (valueRef w) (caretOffsetRef w))
    as Hs.
  remember (valueRef w) as text eqn:Et.
  remember (caretOffsetRef w) as pos eqn:Ep.
  remember (findPreviousWordBoundary text pos) as start eqn:Es.
  assert (Hs' : 0 <= start <= pos) by (apply Hs; lia).
  split.
  - intros E. rewrite E. now rewrite Z.eqb_refl.
  - intros E. apply Z.eqb_neq in E. rewrite E.
    assert (Hl : len (firstn (Z.to_nat start) text ++ skipn (Z.to_nat pos) text)
                 = len text - (pos - start)).
    { rewrite len_app.
      rewrite firstn_skipn_len by lia. rewrite len_skipn by lia. lia. }
    split; [|exact Hl].
    rewrite updateValue_world.
    rewrite slice_prefix by lia. rewrite sliceFrom_suffix by lia.
    rewrite clamp_id by lia. reflexivity.
Qed.

(* ------------------------------------------------------------------ *)
(** ** Typing *)

Lemma batchStep_printable (b : Batch) (c : N) :
  printable c ->
  batchStep b c =
  mkBatch (slice (nextValue b) 0 (nextPos b) ++ [c]
             ++ sliceFrom (nextValue b) (nextPos b))
          (nextPos b + 1) true.
Proof.
  intros [H32 H127]. unfold batchStep.
  assert (E1 : N.eqb c 127 = false) by now apply N.eqb_neq.
  assert (E2 : N.eqb c 8 = false) by (apply N.eqb_neq; lia).
  assert (E3 : (32 <=? c)%N = true) by now apply N.leb_le.
  now rewrite E1, E2, E3.
Qed.

Lemma type_at_end (env : Env) (props : Props) (c : N) (w : World) :
  printable c -> caretOffsetRef w = len (valueRef w) ->
  exists w',
    inputHandler env props [c] plainKey w = Done w'
    /\ valueRef w' = valueRef w ++ [c]
    /\ caretOffsetRef w' = len (valueRef w ++ [c]).
Proof.
  intros Hc He.
  assert (Hb : batch [c] plainKey w =
               mkBatch (valueRef w ++ [c]) (len (valueRef w) + 1) true).
  { unfold batch. simpl fold_left.
    change (detachedBackspace [c] plainKey
              (mkBatch (valueRef w) (caretOffsetRef w) false))
      with (mkBatch (valueRef w) (caretOffsetRef w) false).
    rewrite batchStep_printable by exact Hc. cbn [nextValue nextPos].
    rewrite He.
    pose proof (len_nonneg (valueRef w)).
    rewrite slice_prefix by lia. rewrite sliceFrom_beyond by lia.
    unfold len at 1. rewrite Nat2Z.id, firstn_all. reflexivity. }
  exists (updateValue props (valueRef w ++ [c]) (Some (len (valueRef w) + 1)) w).
  split; [|split].
  - change (inputHandler env props [c] plainKey w)
      with (Done (if processed (batch [c] plainKey w)
                  then updateValue props (nextValue (batch [c] plainKey w))
                                   (Some (nextPos (batch [c] plainKey w))) w
                  else explicitKeys props plainKey w)).
    now rewrite Hb.
  - now rewrite updateValue_world.
  - rewrite updateValue_world. cbn [caretOffsetRef].
    rewrite len_app. change (len [c]) with 1.
    apply clamp_id. pose proof (len_nonneg (valueRef w)). lia.
Qed.

Lemma typeCharacters_at_end (env : Env) (props : Props) (chars : list N) :
  Forall printable chars ->
  forall w, caretOffsetRef w = len (valueRef w) ->
  exists w',
    typeCharacters env props chars w = Done w'
    /\ valueRef w' = valueRef w ++ chars
    /\ caretOffsetRef w' = len (valueRef w ++ chars).
Proof.
  induction 1 as [|c rest Hc _ IH]; intros w He.
  - exists w. rewrite app_nil_r. auto.
  - destruct (type_at_end env props c w Hc He) as [w1 [H1 [Hv Hp]]].
    rewrite <- Hv in Hp.
    destruct (IH w1 Hp) as [w2 [H2 [Hv2 Hp2]]].
    exists w2. cbn [typeCharacters]. rewrite H1. split; [exact H2|].
    rewrite Hp2, Hv2, Hv, <- app_assoc. auto.
Qed.

(** C9 (insertion concatenation). Typing any finite sequence of characters
    that the batch path inserts (code points from 32 on, DEL apart), one
    input notification each, into a buffer mounted empty: every handler
    returns, the text is the sequence typed, in order, and the cursor is its
    length. *)
Theorem insertion_concatenation (env : Env) (props : Props) (reg : Registry)
        (chars : list N) :
  Forall printable chars ->
  exists w',
    typeCharacters env props chars (mount [] reg) = Done w'
    /\ valueRef w' = chars
    /\ caretOffsetRef w' = len chars.
Proof.
  intros H.
  destruct (typeCharacters_at_end env props chars H (mount [] reg) eq_refl)
    as [w' [Hrun [Hv Hp]]].
  exists w'. auto.
Qed.

Lemma insertion_concatenation_witness :
  Forall printable (lit "hi!")
  /\ exists w',
      typeCharacters plainEnv (mkProps true true true) (lit "hi!")
                     (mount [] (mkRegistry 1 [])) = Done w'
      /\ valueRef w' = lit "hi!"
      /\ caretOffsetRef w' = 3.
Proof.
  assert (H : Forall printable (lit "hi!")).
  { repeat constructor; try discriminate; apply N.leb_le; reflexivity. }
  split; [exact H|].
  exact (insertion_concatenation plainEnv (mkProps true true true)
           (mkRegistry 1 []) (lit "hi!") H).
Defined.

(* ------------------------------------------------------------------ *)
(** ** Composed input *)

Lemma len_zero_nil (s : jsstring) : len s <= 0 -> s = [].
Proof. destruct s; [reflexivity|]. rewrite len_cons. pose proof (len_nonneg s). lia. Qed.

Lemma len_removelast (s : jsstring) : s <> [] -> len (removelast s) = len s - 1.
Proof.
  intros H. destruct (exists_last H) as [s' [c ->]].
  rewrite removelast_last, len_app. change (len [c]) with 1. lia.
Qed.

Lemma removeBefore_gap (g : Gap) :
  0 < gapCursor g ->
  removeBefore (gapText g) (gapCursor g) = gapText (deleteBackward g)
  /\ gapCursor g - 1 = gapCursor (deleteBackward g).
Proof.
  destruct g as [bf af]. unfold gapCursor, gapText, deleteBackward, removeBefore.
  cbn [fst snd]. intros H.
  assert (Hne : bf <> []) by (intros ->; discriminate H).
  rewrite slice_removelast by exact Hne.
  destruct (slice_split_at bf af) as [_ ->].
  now rewrite len_removelast.
Qed.

Lemma deleteBackward_at_start (g : Gap) :
  gapCursor g <= 0 -> deleteBackward g = g.
Proof.
  destruct g as [bf af]. unfold gapCursor, deleteBackward. cbn [fst snd].
  intros H. now rewrite (len_zero_nil bf H).
Qed.

Lemma batchStep_represents (b : Batch) (g : Gap) (c : N) :
  represents b g -> represents (batchStep b c) (applyCode g c).
Proof.
  intros [Hv Hp]. unfold batchStep, applyCode.
  rewrite (orb_comm (N.eqb c 127)).
  destruct (N.eqb c 8 || N.eqb c 127).
  - destruct (0 <? nextPos b) eqn:E.
    + apply Z.ltb_lt in E. rewrite Hp in E.
      destruct (removeBefore_gap g E) as [H1 H2].
      split; cbn [nextValue nextPos]; congruence.
    + apply Z.ltb_ge in E. rewrite Hp in E.
      rewrite deleteBackward_at_start by exact E. now split.
  - destruct (32 <=? c)%N; [|now split].
    split; cbn [nextValue nextPos].
    + rewrite Hv, Hp.
      destruct g as [bf af]. unfold gapText, gapCursor, insertCode. cbn [fst snd].
      destruct (slice_split_at bf af) as [-> ->].
      now rewrite <- app_assoc.
    + rewrite Hp.
      destruct g as [bf af]. unfold gapCursor, insertCode. cbn [fst snd].
      rewrite len_app. reflexivity.
Qed.

Lemma fold_represents (payload : jsstring) :
  forall b g, represents b g ->
  represents (fold_left batchStep payload b) (fold_left applyCode payload g).
Proof.
  induction payload as [|c rest IH]; intros b g H; [exact H|].
  simpl. apply IH. now apply batchStep_represents.
Qed.

Lemma detachedBackspace_represents (input : jsstring) (key : Key) (b : Batch) (g : Gap) :
  represents b g ->
  represents (detachedBackspace input key b)
             (if backspace key && negb (includes input 8 || includes input 127)
              then deleteBackward g else g).
Proof.
  intros [Hv Hp]. unfold detachedBackspace.
  destruct (backspace key && negb (includes input 8 || includes input 127));
    [|now split].
  destruct (0 <? nextPos b) eqn:E.
  - apply Z.ltb_lt in E. rewrite Hp in E.
    destruct (removeBefore_gap g E) as [H1 H2].
    split; cbn [nextValue nextPos]; congruence.
  - apply Z.ltb_ge in E. rewrite Hp in E.
    rewrite deleteBackward_at_start by exact E. now split.
Qed.

Lemma gapOf_represents (w : World) :
  cursorInRange w ->
  represents (mkBatch (valueRef w) (caretOffsetRef w) false)
             (gapOf (valueRef w) (caretOffsetRef w)).
Proof.
  intros H. unfold represents, gapOf, gapText, gapCursor. cbn [fst snd nextValue nextPos].
  split.
  - now rewrite firstn_skipn.
  - symmetry. now apply firstn_skipn_len.
Qed.

Lemma batch_represents (input : jsstring) (key : Key) (w : World) :
  cursorInRange w ->
  represents (batch input key w)
             (composedInput (backspace key) input
                            (gapOf (valueRef w) (caretOffsetRef w))).
Proof.
  intros H. unfold batch, composedInput.
  apply fold_represents, detachedBackspace_represents, gapOf_represents, H.
Qed.

Lemma batchStep_unprocessed (b : Batch) (c : N) :
  processed (batchStep b c) = false -> batchStep b c = b.
Proof.
  unfold batchStep.
  destruct (N.eqb c 127 || N.eqb c 8).
  - destruct (0 <? nextPos b); discriminate.
  - destruct (32 <=? c)%N; [discriminate|reflexivity].
Qed.

Lemma batchStep_processed (b : Batch) (c : N) :
  processed b = true -> processed (batchStep b c) = true.
Proof.
  intros H. unfold batchStep.
  destruct (N.eqb c 127 || N.eqb c 8).
  - destruct (0 <? nextPos b); reflexivity.
  - destruct (32 <=? c)%N; [reflexivity|exact H].
Qed.

Lemma fold_processed (payload : jsstring) :
  forall b, processed b = true -> processed (fold_left batchStep payload b) = true.
Proof.
  induction payload as [|c rest IH]; intros b H; [exact H|].
  simpl. apply IH. now apply batchStep_processed.
Qed.

Lemma fold_unprocessed (payload : jsstring) :
  forall b, processed (fold_left batchStep payload b) = false ->
            fold_left batchStep payload b = b.
Proof.
  induction payload as [|c rest IH]; intros b H; [reflexivity|].
  simpl in *. rewrite (IH _ H). apply batchStep_unprocessed.
  now rewrite (IH _ H) in H.
Qed.

(** A literal backspace or DEL in the payload marks the batch as processed. *)
Lemma fold_literal_processed (payload : jsstring) :
  includes payload 8 || includes payload 127 = true ->
  forall b, processed (fold_left batchStep payload b) = true.
Proof.
  induction payload as [|c rest IH]; intros H b; [discriminate H|].
  simpl fold_left.
  destruct (N.eqb c 127 || N.eqb c 8) eqn:E.
  - apply fold_processed. unfold batchStep. rewrite E.
    destruct (0 <? nextPos b); reflexivity.
  - apply IH. apply orb_false_iff in E as [E1 E2].
    unfold includes in *. cbn [existsb] in H.
    rewrite (N.eqb_sym 8 c), (N.eqb_sym 127 c), E1, E2 in H. exact H.
Qed.

Lemma detachedBackspace_unprocessed (input : jsstring) (key : Key) (b : Batch) :
  processed (detachedBackspace input key b) = false ->
  detachedBackspace input key b = b
  /\ (backspace key = true ->
      includes input 8 || includes input 127 = true \/ nextPos b <= 0).
Proof.
  unfold detachedBackspace.
  destruct (backspace key); cbn [andb].
  - destruct (includes input 8 || includes input 127); cbn [negb].
    + intros _. split; [reflexivity|]. intros _. now left.
    + destruct (0 <? nextPos b) eqn:E; [discriminate|].
      intros _. split; [reflexivity|]. intros _. right. now apply Z.ltb_ge.
  - intros _. split; [reflexivity|discriminate].
Qed.

(** For the key of a Character event the handler is the batch path. *)
Lemma inputHandler_character (env : Env) (props : Props) (input : jsstring)
      (key : Key) (w : World) :
  characterKey key ->
  inputHandler env props input key w = Done (batchPath props input key w).
Proof.
  intros (Hp & Hm & Hc & Hr & Hl & Hrt & _).
  unfold inputHandler, pasteShortcuts, navigation.
  now rewrite Hp, Hm, Hc, Hr, Hl, Hrt.
Qed.

(** C4 (composition rule). For a Character event with a non-empty payload and
    the cursor inside the text, the handler returns, and the text and cursor
    it leaves are those of the rule as worded: one backward deletion first
    when the key carries the Backspace flag and the payload holds neither
    code point 8 nor 127, then the payload from left to right, where 8 and
    127 delete backward at the cursor, code points from 32 on are inserted at
    the cursor and move it right, and the other code points below 32 are
    skipped. The pass is atomic: the log gains nothing, or exactly one
    [onChange] carrying the final text (followed by the cursor report). For a
    payload of one inserted character under the Backspace flag, with the
    cursor past the start, the character before the cursor is replaced and
    the length of the text is unchanged. *)
Theorem composition_rule (env : Env) (props : Props) (input : jsstring)
        (key : Key) (w : World) :
  characterKey key -> 0 < len input -> cursorInRange w ->
  let text := valueRef w in
  let pos := caretOffsetRef w in
  let g := composedInput (backspace key) input (gapOf text pos) in
  exists w',
    inputHandler env props input key w = Done w'
    /\ valueRef w' = gapText g
    /\ caretOffsetRef w' = gapCursor g
    /\ (calls w' = calls w
        \/ calls w' = calls w ++ OnChange (gapText g) :: cursorCalls props (gapCursor g))
    /\ (forall c, input = [c] -> printable c -> backspace key = true -> 0 < pos ->
          valueRef w' = removelast (firstn (Z.to_nat pos) text) ++ [c]
                          ++ skipn (Z.to_nat pos) text
          /\ len (valueRef w') = len text).
Proof.
  intros Hk Hlen Hr. cbv zeta.
  pose proof (batch_represents input key w Hr) as [Hv Hp].
  set (g := composedInput (backspace key) input
                          (gapOf (valueRef w) (caretOffsetRef w))) in *.
  assert (Hsingle : forall c, input = [c] -> printable c -> backspace key = true ->
            0 < caretOffsetRef w ->
            gapText g = removelast (firstn (Z.to_nat (caretOffsetRef w)) (valueRef w))
                          ++ [c] ++ skipn (Z.to_nat (caretOffsetRef w)) (valueRef w)
            /\ len (gapText g) = len (valueRef w)).
  { intros c -> [H32 H127] Hb Hpos. unfold g, composedInput, includes.
    assert (E8 : N.eqb 8 c = false) by (apply N.eqb_neq; lia).
    assert (E127 : N.eqb 127 c = false) by (apply N.eqb_neq; congruence).
    assert (E8' : N.eqb c 8 = false) by (apply N.eqb_neq; lia).
    assert (E127' : N.eqb c 127 = false) by (apply N.eqb_neq; congruence).
    assert (E32 : (32 <=? c)%N = true) by now apply N.leb_le.
    cbn [existsb]. rewrite Hb, E8, E127. cbn [fold_left andb orb negb].
    unfold applyCode. rewrite E8', E127', E32.
    unfold gapText, insertCode, deleteBackward, gapOf. cbn [fst snd andb orb negb].
    rewrite <- app_assoc. split; [reflexivity|].
    assert (Hne : firstn (Z.to_nat (caretOffsetRef w)) (valueRef w) <> []).
    { intros E. pose proof (firstn_skipn_len (valueRef w) (caretOffsetRef w) Hr) as Hl.
      rewrite E in Hl. change (len []) with 0 in Hl. lia. }
    rewrite !len_app, len_removelast by exact Hne.
    rewrite firstn_skipn_len by exact Hr. rewrite len_skipn by exact Hr.
    change (len [c]) with 1. lia. }
  rewrite (inputHandler_character env props input key w Hk).
  unfold batchPath. apply Z.ltb_lt in Hlen. rewrite Hlen.
  destruct (processed (batch input key w)) eqn:Eproc.
  - eexists. split; [reflexivity|].
    rewrite updateValue_world. cbn [valueRef caretOffsetRef calls].
    rewrite Hv, Hp.
    assert (Hc : clamp (len (gapText g)) (gapCursor g) = gapCursor g).
    { apply clamp_id. unfold gapText, gapCursor. rewrite len_app.
      pose proof (len_nonneg (fst g)). pose proof (len_nonneg (snd g)). lia. }
    rewrite Hc. split; [reflexivity|]. split; [reflexivity|].
    split; [now right|].
    intros c Hi Hc' Hb Hpos. destruct (Hsingle c Hi Hc' Hb Hpos) as [H1 H2].
    now rewrite H1 in *.
  - assert (Hsame : batch input key w
                    = mkBatch (valueRef w) (caretOffsetRef w) false).
    { unfold batch in *. rewrite (fold_unprocessed _ _ Eproc) in Eproc |- *.
      now apply detachedBackspace_unprocessed. }
    assert (He : explicitKeys props key w = w).
    { unfold explicitKeys. destruct Hk as (_ & _ & _ & _ & _ & _ & Hd).
      rewrite Hd. destruct (backspace key) eqn:Hb; [|reflexivity].
      unfold batch in Eproc.
      pose proof Eproc as Eproc'.
      rewrite (fold_unprocessed _ _ Eproc) in Eproc'.
      destruct (detachedBackspace_unprocessed input key _ Eproc') as [_ Hor].
      destruct (Hor Hb) as [Hlit|Hz].
      - rewrite (fold_literal_processed input Hlit) in Eproc. discriminate.
      - cbn [nextPos] in Hz. unfold deleteCharacter.
        assert (E : (0 <? caretOffsetRef w) = false) by (apply Z.ltb_ge; lia).
        now rewrite E. }
    rewrite He. exists w. split; [reflexivity|].
    rewrite Hsame in Hv, Hp. cbn [nextValue nextPos] in Hv, Hp.
    split; [exact Hv|]. split; [exact Hp|]. split; [now left|].
    intros c Hi Hc' Hb Hpos. destruct (Hsingle c Hi Hc' Hb Hpos) as [H1 H2].
    split; [now transitivity (gapText g) | reflexivity].
Qed.

(** The correction of the specification: on ["cafe"] with the cursor at the
    end, the Backspace flag with payload [U+00E9] gives ["caf"] followed by
    that character, and the length stays 4. *)
Lemma composition_rule_witness :
  let w := mount (lit "cafe") (mkRegistry 1 []) in
  characterKey backspaceKey /\ 0 < len [233%N] /\ cursorInRange w
  /\ exists w',
      inputHandler plainEnv (mkProps true true true) [233%N] backspaceKey w = Done w'
      /\ valueRef w' = lit "caf" ++ [233%N]
      /\ len (valueRef w') = len (valueRef w).
Proof.
  intros w.
  assert (Hk : characterKey backspaceKey) by (repeat split).
  assert (Hl : 0 < len [233%N]) by reflexivity.
  assert (Hr : cursorInRange w) by (vm_compute; split; discriminate).
  destruct (composition_rule plainEnv (mkProps true true true) [233%N]
              backspaceKey w Hk Hl Hr) as [w' [Hrun [_ [_ [_ Hone]]]]].
  assert (Hc : printable 233) by (split; [apply N.leb_le; reflexivity | discriminate]).
  destruct (Hone 233%N eq_refl Hc eq_refl eq_refl) as [Hv Hlen].
  split; [exact Hk|]. split; [exact Hl|]. split; [exact Hr|].
  exists w'. split; [exact Hrun|]. split; [exact Hv|exact Hlen].
Defined.

(* ------------------------------------------------------------------ *)
(** ** Word boundaries *)

Lemma charAt_outside (text : jsstring) (p : Z) :
  p < 0 \/ len text <= p -> charAt text p = [].
Proof.
  intros H. unfold charAt.
  destruct ((0 <=? p) && (p <? len text)) eqn:E; [|reflexivity].
  apply andb_true_iff in E as [E1 E2].
  apply Z.leb_le in E1. apply Z.ltb_lt in E2. lia.
Qed.

Lemma whileInc_ext (c1 c2 : Z -> bool) (fuel : nat) (pos : Z) :
  (forall p, c1 p = c2 p) -> whileInc c1 fuel pos = whileInc c2 fuel pos.
Proof.
  intros H. revert pos; induction fuel as [|f IH]; intros pos; simpl;
    [reflexivity|].
  rewrite H. destruct (c2 pos); [apply IH|reflexivity].
Qed.

Lemma guard_fwd_redundant (test : jsstring -> bool) (text : jsstring) (p : Z) :
  test [] = false ->
  (p <? len text) && test (charAt text p) = test (charAt text p).
Proof.
  intros Ht. destruct (p <? len text) eqn:E; [reflexivity|].
  apply Z.ltb_ge in E. rewrite charAt_outside by now right.
  now rewrite Ht.
Qed.

(** The forward function is the one the specification words. *)
Lemma findNextWordBoundary_spec (text : jsstring) (pos : Z) :
  findNextWordBoundary text pos = nextWordBoundary text pos.
Proof.
  unfold findNextWordBoundary, nextWordBoundary, skipWordFwd, skipSpaceFwd.
  destruct (len text <=? pos); [reflexivity|].
  rewrite (whileInc_ext
             (fun p => (p <? len text) && testNonSpace (charAt text p))
             (fun q => testNonSpace (charAt text q)))
    by (intros p; now apply guard_fwd_redundant).
  apply whileInc_ext. intros p. now apply guard_fwd_redundant.
Qed.

(** A backward loop without the guard [pos > 0] goes one step further than
    the guarded one exactly when the guarded one stopped at 0 on a character
    of the class skipped. *)
Lemma whileDec_unguarded (test : jsstring -> bool) (text : jsstring) :
  test [] = false ->
  forall (n : nat) (p : Z), 0 <= p -> (Z.to_nat p <= n)%nat ->
  whileDec (fun q => test (charAt text q)) (S n) p =
  let r := whileDec (fun q => (0 <? q) && test (charAt text q)) n p in
  if (r =? 0) && test (charAt text 0) then -1 else r.
Proof.
  intros Ht. induction n as [|m IH]; intros p Hp Hn.
  - assert (p = 0) by lia. subst p. simpl.
    destruct (test (charAt text 0)); reflexivity.
  - cbn [whileDec] in *. destruct (p =? 0) eqn:E0.
    + apply Z.eqb_eq in E0. subst p. cbn [Z.ltb Z.compare andb].
      change (0 =? 0) with true. cbn [andb].
      destruct (test (charAt text 0)) eqn:T0; [|reflexivity].
      change (0 - 1) with (-1).
      rewrite (charAt_outside text (-1)) by (left; lia).
      now rewrite Ht.
    + pose proof E0 as Ne. apply Z.eqb_neq in Ne.
      assert (Hlt : (0 <? p) = true) by (apply Z.ltb_lt; lia).
      rewrite Hlt. cbn [andb].
      destruct (test (charAt text p)) eqn:T.
      * specialize (IH (p - 1)). cbn [whileDec] in IH. apply IH; lia.
      * cbv zeta. rewrite E0. reflexivity.
Qed.

(** Where the text does not begin with whitespace, the backward function is
    the one the specification words. *)
Lemma findPreviousWordBoundary_spec (text : jsstring) (pos : Z) :
  testSpace (charAt text 0) = false ->
  findPreviousWordBoundary text pos = previousWordBoundary text pos.
Proof.
  intros H0. unfold findPreviousWordBoundary, previousWordBoundary.
  destruct (pos =? 0) eqn:E; [reflexivity|]. apply Z.eqb_neq in E.
  unfold skipSpaceBack, skipWordBack.
  destruct (Z.ltb_spec (pos - 1) 0) as [Hneg|Hpos].
  - replace (Z.to_nat (pos - 1)) with O by lia.
    replace (Z.to_nat (pos - 1 + 1)) with O by lia.
    cbn [whileDec].
    replace (Z.to_nat (pos - 1)) with O by lia.
    replace (Z.to_nat (pos - 1 + 1)) with O by lia.
    cbn [whileDec].
    rewrite (charAt_outside text (pos - 1)) by (left; lia).
    assert (Hl : (0 <? pos - 1) = false) by (apply Z.ltb_ge; lia).
    rewrite Hl. reflexivity.
  - replace (Z.to_nat (pos - 1 + 1)) with (S (Z.to_nat (pos - 1))) by lia.
    rewrite (whileDec_unguarded testSpace text eq_refl) by lia.
    cbv zeta. rewrite H0, andb_false_r.
    set (r1 := whileDec (fun q => (0 <? q) && testSpace (charAt text q))
                        (Z.to_nat (pos - 1)) (pos - 1)).
    assert (Hr1 : 0 <= r1).
    { apply whileDec_nonneg; [intros p; apply guard_back | lia]. }
    replace (Z.to_nat (r1 + 1)) with (S (Z.to_nat r1)) by lia.
    rewrite (whileDec_unguarded testNonSpace text eq_refl) by lia.
    cbv zeta.
    set (r2 := whileDec (fun q => (0 <? q) && testNonSpace (charAt text q))
                        (Z.to_nat r1) r1).
    assert (Hr2 : 0 <= r2).
    { apply whileDec_nonneg; [intros p; apply guard_back | lia]. }
    destruct (r2 =? 0) eqn:E2.
    + apply Z.eqb_eq in E2. rewrite E2. cbn [Z.ltb Z.compare andb].
      destruct (testNonSpace (charAt text 0)).
      * rewrite (charAt_outside text (-1)) by (left; lia). reflexivity.
      * rewrite H0. reflexivity.
    + apply Z.eqb_neq in E2.
      assert (Hlt : (0 <? r2) = true) by (apply Z.ltb_lt; lia).
      rewrite Hlt. reflexivity.
Qed.

(** C6 (word-boundary functions), at the input where the code leaves it.
    Both examples of the claim hold, [findPreviousWordBoundary] returns 0 at
    position 0, and [findNextWordBoundary] returns the length from the length
    on. On the text [" b"] with the cursor at 2 the steps of the claim land on
    the whitespace at index 0 and step right, to 1, the start of the word
    before the cursor; [findPreviousWordBoundary] guards that last step with
    [pos > 0] and returns 0. Deleting the previous word there removes the
    leading blank too, while on ["  b"] it removes the word only. *)
Theorem previous_boundary_at_leading_blank :
  findPreviousWordBoundary (lit "hello world") 11 = 6
  /\ findNextWordBoundary (lit "hello world") 0 = 6
  /\ (forall text, findPreviousWordBoundary text 0 = 0)
  /\ (forall text pos, len text <= pos -> findNextWordBoundary text pos = len text)
  /\ previousWordBoundary (lit " b") 2 = 1
  /\ findPreviousWordBoundary (lit " b") 2 = 0
  /\ findPreviousWordBoundary (lit "  b") 3 = 2
  /\ previousWordBoundary (lit "  b") 3 = 2.
Proof.
  repeat split; try reflexivity.
  intros text pos H. unfold findNextWordBoundary.
  apply Z.leb_le in H. now rewrite H.
Qed.

(* ------------------------------------------------------------------ *)
(** ** Deleting the previous word, against the worded boundary *)

(** C7 (word deletion), at the input where the code leaves it. The span of
    the claim starts at [previousWordBoundary text pos], the function as the
    specification words it. Where the text does not begin with whitespace
    the code removes that span: the new text is what lay before the boundary
    followed by what lay from the cursor on, the cursor is at the boundary,
    one [onChange] carries the new text, and when the boundary is the cursor
    the state is returned as it was. On [" b"] with the cursor at 2 the
    boundary of the claim is 1, so the span is the word [b] and [" "] should
    stay with the cursor at 1; ctrl-W removes the blank too and leaves the
    empty text with the cursor at 0. On ["  b"] it removes the word only. *)
Theorem word_delete_back :
  (forall (props : Props) (sequence : jsstring) (w : World),
      focus props = true ->
      In sequence wordDeleteSequences ->
      cursorInRange w ->
      testSpace (charAt (valueRef w) 0) = false ->
      let text := valueRef w in
      let pos := caretOffsetRef w in
      let start := previousWordBoundary text pos in
      let next := firstn (Z.to_nat start) text ++ skipn (Z.to_nat pos) text in
      (start = pos -> handleRawInput props sequence w = w)
      /\ (start <> pos ->
            handleRawInput props sequence w =
            mkWorld (displayValue w) next next start next
                    (lastPasteDetectedAtRef w) (registry w)
                    (calls w ++ OnChange next :: cursorCalls props start)
            /\ len next = len text - (pos - start)))
  /\ (let props := mkProps true true true in
      let w := mount (lit " b") (mkRegistry 1 []) in
      let text := valueRef w in
      let pos := caretOffsetRef w in
      let start := previousWordBoundary text pos in
      cursorInRange w /\ pos = 2 /\ start = 1
      /\ firstn (Z.to_nat start) text ++ skipn (Z.to_nat pos) text = lit " "
      /\ valueRef (handleRawInput props [23%N] w) = []
      /\ caretOffsetRef (handleRawInput props [23%N] w) = 0
      /\ calls (handleRawInput props [23%N] w) = [OnChange []; OnCursorMove 0])
  /\ (let props := mkProps true true true in
      let w := mount (lit "  b") (mkRegistry 1 []) in
      previousWordBoundary (valueRef w) (caretOffsetRef w) = 2
      /\ valueRef (handleRawInput props [23%N] w) = lit "  "
      /\ caretOffsetRef (handleRawInput props [23%N] w) = 2).
Proof.
  split; [|split].
  - intros props sequence w Hf Hin Hr H0. cbv zeta.
    rewrite <- (findPreviousWordBoundary_spec (valueRef w) (caretOffsetRef w) H0).
    exact (deletePreviousWord_span props sequence w Hf Hin Hr).
  - cbv zeta. unfold cursorInRange.
    repeat split; try reflexivity; vm_compute; discriminate.
  - cbv zeta. repeat split; reflexivity.
Qed.

(** ctrl-W at the end of ["hello world"] leaves ["hello "] and the cursor
    at 6. *)
Lemma word_delete_back_witness :
  let props := mkProps true true true in
  let w := mount (lit "hello world") (mkRegistry 1 []) in
  focus props = true
  /\ In [23%N] wordDeleteSequences
  /\ cursorInRange w
  /\ testSpace (charAt (valueRef w) 0) = false
  /\ previousWordBoundary (valueRef w) (caretOffsetRef w) = 6
  /\ valueRef (handleRawInput props [23%N] w) = lit "hello "
  /\ caretOffsetRef (handleRawInput props [23%N] w) = 6.
Proof.
  intros props w.
  assert (Hf : focus props = true) by reflexivity.
  assert (Hin : In [23%N] wordDeleteSequences) by (right; right; left; reflexivity).
  assert (Hr : cursorInRange w) by (vm_compute; split; discriminate).
  assert (H0 : testSpace (charAt (valueRef w) 0) = false) by reflexivity.
  destruct word_delete_back as [Hgen _].
  destruct (Hgen props [23%N] w Hf Hin Hr H0) as [_ Hdel].
  assert (Hne : previousWordBoundary (valueRef w) (caretOffsetRef w)
                <> caretOffsetRef w) by (vm_compute; discriminate).
  destruct (Hdel Hne) as [Heq _].
  split; [exact Hf|]. split; [exact Hin|]. split; [exact Hr|].
  split; [exact H0|]. split; [reflexivity|].
  rewrite Heq. split; reflexivity.
Defined.

(* ------------------------------------------------------------------ *)
(** ** Classifying an insertion *)

(** With the cursor inside the text, the insertion sits between the two
    sides of the cursor, and the cursor ends right after it. *)
Lemma inserted_world (props : Props) (insertion : jsstring) (w : World) :
  cursorInRange w ->
  let before := firstn (Z.to_nat (caretOffsetRef w)) (valueRef w) in
  let after := skipn (Z.to_nat (caretOffsetRef w)) (valueRef w) in
  let next := before ++ insertion ++ after in
  inserted props insertion w =
  mkWorld (displayValue w) next next (caretOffsetRef w + len insertion) next
          (lastPasteDetectedAtRef w) (registry w)
          (calls w ++ OnChange next
                 :: cursorCalls props (caretOffsetRef w + len insertion)).
Proof.
  intros H. cbv zeta. unfold inserted. rewrite updateValue_world.
  rewrite slice_prefix by exact H. rewrite sliceFrom_suffix by exact H.
  rewrite clamp_id; [reflexivity|].
  rewrite !len_app. rewrite firstn_skipn_len by exact H.
  rewrite len_skipn by exact H. unfold cursorInRange in H.
  pose proof (len_nonneg insertion). lia.
Qed.

(** The registry of the specification hands out its next id and holds the
    text under it. *)
Lemma registryAllocate_holds (r : Registry) (text : jsstring) :
  let (id, r') := registryAllocate r text in
  id = nextId r /\ nextId r' = nextId r + 1
  /\ lookupPaste (records r') id = Some text.
Proof.
  unfold registryAllocate. cbn [nextId records lookupPaste pasteId fullText].
  now rewrite Z.eqb_refl.
Qed.




(** The paste branch of the input handler hands a non-empty translation to
    [handleInsert], after it recorded the time of the paste. *)
Lemma inputHandler_paste (env : Env) (props : Props) (input : jsstring)
      (key : Key) (w : World) (translated : jsstring) :
  isPasted key = true ->
  translatePasteForImages env input = Returns translated ->
  0 < len translated ->
  inputHandler env props input key w =
  handleInsert env props translated true (setLastPasteDetectedAt (dateNow env) w).
Proof.
  intros Hp Ht Hl. unfold inputHandler. rewrite Hp, Ht.
  assert (E0 : (len translated =? 0) = false) by (apply Z.eqb_neq; lia).
  rewrite E0. cbn [andb]. apply Z.ltb_lt in Hl. now rewrite Hl.
Qed.






(* ------------------------------------------------------------------ *)
(** ** A collaborator that throws *)

(** C5, counterexample. With a translator that throws, the paste of
    ["pasted"] into ["ab"] does not return: the exception leaves
    [handleInsert], and the buffer is still ["ab"]. With a registry that
    throws, the paste of six lines ends in the same way. *)
Lemma failure_fallback_counterexample :
  let props := mkProps true true true in
  let w := mount (lit "ab") (mkRegistry 1 []) in
  let sixLines := [97; 10; 98; 10; 99; 10; 100; 10; 101; 10; 102]%N in
  (~ fallsBackAsStated throwingEnv props (lit "pasted") true w
   /\ handleInsert throwingEnv props (lit "pasted") true w = Thrown w)
  /\ (~ fallsBackAsStated fullRegistryEnv props sixLines true w
      /\ handleInsert fullRegistryEnv props sixLines true w = Thrown w).
Proof.
  cbv zeta. split; (split; [|reflexivity]); intros H.
  - assert (Hfail : translatePasteForImages throwingEnv (lit "pasted") = Raises)
      by reflexivity.
    specialize (H (or_introl Hfail)). vm_compute in H. discriminate H.
  - match type of H with
    | fallsBackAsStated ?e _ ?t _ ?w0 =>
        assert (Hfail : exists translated,
                   translatePasteForImages e t = Returns translated
                   /\ allocatePaste e (registry w0) translated = Raises)
          by (exists t; split; reflexivity)
    end.
    specialize (H (or_intror Hfail)). vm_compute in H. discriminate H.
Qed.

(** C5 (failure of a collaborator), amended. For an insertion that goes
    through the classifier, if the translator throws, or if the registry's
    [allocatePaste] throws where a placeholder is due, [handleInsert] ends by
    that exception and the state is the one it was called in: nothing is
    inserted, text, cursor and [lastEmittedValueRef] are as before, and the
    log of calls has not grown. In the bracketed-paste branch of the input
    handler the exception leaves the handler in the same way, with only the
    time of the paste recorded. *)
Theorem failure_propagates (env : Env) (props : Props) (text : jsstring)
        (isPaste : bool) (w : World) :
  isPaste = true \/ 5 < len text ->
  (translatePasteForImages env text = Raises
   \/ exists translated,
        translatePasteForImages env text = Returns translated
        /\ (5 < countLines translated \/ 500 < len text)
        /\ allocatePaste env (registry w) translated = Raises) ->
  handleInsert env props text isPaste w = Thrown w
  /\ (forall key,
        isPasted key = true -> translatePasteForImages env text = Raises ->
        inputHandler env props text key w =
        Thrown (setLastPasteDetectedAt (dateNow env) w))
  /\ (forall key payload,
        isPasted key = true ->
        translatePasteForImages env payload = Returns text -> 0 < len text ->
        inputHandler env props payload key w =
        Thrown (setLastPasteDetectedAt (dateNow env) w)).
Proof.
  intros Hroute Hfail.
  assert (Hlarge : isPaste || (5 <? len text) = true).
  { destruct Hroute as [->|H]; [reflexivity|].
    apply Z.ltb_lt in H. rewrite H. apply orb_true_r. }
  assert (Hthrow : forall paste w0, registry w0 = registry w ->
            paste || (5 <? len text) = true ->
            handleInsert env props text paste w0 = Thrown w0).
  { intros paste w0 Hreg Hl. unfold handleInsert. rewrite Hl.
    destruct Hfail as [Hr|[translated [Ht [Hbig Ha]]]].
    - now rewrite Hr.
    - rewrite Ht.
      assert (Hb : (500 <? len text) || (5 <? countLines translated) = true).
      { destruct Hbig as [H|H]; apply Z.ltb_lt in H; rewrite H;
          [apply orb_true_r | reflexivity]. }
      rewrite Hb, Hreg, Ha. reflexivity. }
  split; [now apply Hthrow|]. split.
  - intros key Hp Hr. unfold inputHandler. now rewrite Hp, Hr.
  - intros key payload Hp Ht Hl.
    rewrite (inputHandler_paste env props payload key w text Hp Ht Hl).
    now apply Hthrow.
Qed.

Lemma failure_propagates_witness :
  let w := mount (lit "ab") (mkRegistry 1 []) in
  (true = true \/ 5 < len (lit "pasted"))
  /\ translatePasteForImages throwingEnv (lit "pasted") = Raises
  /\ handleInsert throwingEnv (mkProps true true true) (lit "pasted") true w
     = Thrown w.
Proof.
  intros w.
  assert (Hroute : true = true \/ 5 < len (lit "pasted")) by (left; reflexivity).
  assert (Hr : translatePasteForImages throwingEnv (lit "pasted") = Raises)
    by reflexivity.
  destruct (failure_propagates throwingEnv (mkProps true true true)
              (lit "pasted") true w Hroute (or_introl Hr)) as [Hrun _].
  split; [exact Hroute|]. split; [exact Hr|exact Hrun].
Defined.

(* ------------------------------------------------------------------ *)
(** ** Line breaks *)

(** Induction over a text two code units at a time, as the line-break
    pattern reads it. *)
Lemma text_ind2 (P : jsstring -> Prop) :
  P [] -> (forall c, P [c]) ->
  (forall c d rest, P rest -> P (d :: rest) -> P (c :: d :: rest)) ->
  forall text, P text.
Proof.
  intros H0 H1 H2 text.
  assert (H : P text /\ forall c, P (c :: text)).
  { induction text as [|d rest [IH1 IH2]].
    - split; [exact H0|exact H1].
    - split; [apply IH2|]. intros c. apply H2; [exact IH1|apply IH2]. }
  apply H.
Qed.

Lemma lineBreaks_nonneg (text : jsstring) : 0 <= lineBreaks text.
Proof.
  induction text as [| c | c d rest IH1 IH2] using text_ind2.
  - simpl. lia.
  - simpl. destruct (N.eqb c CR); [lia|]. destruct (N.eqb c LF); lia.
  - cbn [lineBreaks] in *. destruct (N.eqb c CR).
    + destruct (N.eqb d LF); lia.
    + destruct (N.eqb c LF); lia.
Qed.

Lemma lineBreaks_le_len (text : jsstring) : lineBreaks text <= len text.
Proof.
  induction text as [| c | c d rest IH1 IH2] using text_ind2.
  - simpl. unfold len. simpl. lia.
  - simpl. unfold len. simpl.
    destruct (N.eqb c CR); [lia|]. destruct (N.eqb c LF); lia.
  - rewrite !len_cons in *. cbn [lineBreaks] in *. destruct (N.eqb c CR).
    + destruct (N.eqb d LF); lia.
    + destruct (N.eqb c LF); lia.
Qed.

Lemma glyph_notBreak : notBreak RETURN_GLYPH.
Proof. split; discriminate. Qed.

Lemma notBreak_eqb (c : N) :
  notBreak c <-> N.eqb c CR = false /\ N.eqb c LF = false.
Proof.
  unfold notBreak. rewrite !N.eqb_neq. reflexivity.
Qed.

Lemma sanitizeForDisplay_singleLine (text : jsstring) :
  singleLine (sanitizeForDisplay text).
Proof.
  unfold singleLine.
  induction text as [| c | c d rest IH1 IH2] using text_ind2.
  - constructor.
  - simpl. destruct (N.eqb c CR) eqn:E1.
    + repeat constructor; discriminate.
    + destruct (N.eqb c LF) eqn:E2.
      * repeat constructor; discriminate.
      * constructor; [now apply notBreak_eqb | constructor].
  - cbn [sanitizeForDisplay] in *. destruct (N.eqb c CR) eqn:E1.
    + destruct (N.eqb d LF); constructor;
        solve [apply glyph_notBreak | assumption].
    + destruct (N.eqb c LF) eqn:E2.
      * constructor; [apply glyph_notBreak | assumption].
      * constructor; [now apply notBreak_eqb | assumption].
Qed.

Lemma sanitizeForDisplay_len (text : jsstring) :
  len (sanitizeForDisplay text) <= len text.
Proof.
  induction text as [| c | c d rest IH1 IH2] using text_ind2.
  - simpl. lia.
  - simpl. destruct (N.eqb c CR); [|destruct (N.eqb c LF)];
      rewrite !len_cons; lia.
  - cbn [sanitizeForDisplay] in *. destruct (N.eqb c CR).
    + destruct (N.eqb d LF); rewrite !len_cons in *; lia.
    + destruct (N.eqb c LF); rewrite !len_cons in *; lia.
Qed.

(** A text without line breaks is one line, and is displayed as it is. *)
Lemma singleLine_fixed (text : jsstring) :
  singleLine text -> sanitizeForDisplay text = text /\ lineBreaks text = 0.
Proof.
  unfold singleLine. induction 1 as [|c rest Hc _ [IH1 IH2]].
  - split; reflexivity.
  - apply notBreak_eqb in Hc as [E1 E2].
    cbn [sanitizeForDisplay lineBreaks]. rewrite E1, E2.
    split; [now rewrite IH1 | exact IH2].
Qed.

Lemma lineBreaks_zero_singleLine (text : jsstring) :
  lineBreaks text = 0 -> singleLine text.
Proof.
  unfold singleLine.
  induction text as [| c | c d rest IH1 IH2] using text_ind2; intros H.
  - constructor.
  - simpl in H. destruct (N.eqb c CR) eqn:E1; [discriminate|].
    destruct (N.eqb c LF) eqn:E2; [discriminate|].
    constructor; [now apply notBreak_eqb | constructor].
  - cbn [lineBreaks] in *. destruct (N.eqb c CR) eqn:E1.
    + pose proof (lineBreaks_nonneg rest). pose proof (lineBreaks_nonneg (d :: rest)).
      cbn [lineBreaks] in *. destruct (N.eqb d LF); lia.
    + destruct (N.eqb c LF) eqn:E2.
      * pose proof (lineBreaks_nonneg (d :: rest)). cbn [lineBreaks] in *. lia.
      * constructor; [now apply notBreak_eqb | now apply IH2].
Qed.

(** X1. What [sanitizeForDisplay] returns holds no CR and no LF, is never
    longer than the text given, and is left as it is by a second pass. *)
Theorem sanitizeForDisplay_output (text : jsstring) :
  singleLine (sanitizeForDisplay text)
  /\ len (sanitizeForDisplay text) <= len text
  /\ sanitizeForDisplay (sanitizeForDisplay text) = sanitizeForDisplay text.
Proof.
  split; [apply sanitizeForDisplay_singleLine|].
  split; [apply sanitizeForDisplay_len|].
  apply singleLine_fixed, sanitizeForDisplay_singleLine.
Qed.

(** X2. [countLines] is at least 1 and at most the length plus 1; it is 1
    exactly for the texts without CR and LF, and those are the texts that
    [sanitizeForDisplay] returns unchanged. *)
Theorem countLines_one_line (text : jsstring) :
  1 <= countLines text <= len text + 1
  /\ (countLines text = 1 <-> singleLine text)
  /\ (sanitizeForDisplay text = text <-> singleLine text).
Proof.
  unfold countLines.
  pose proof (lineBreaks_nonneg text). pose proof (lineBreaks_le_len text).
  split; [lia|]. split; split.
  - intros E. apply lineBreaks_zero_singleLine. lia.
  - intros S. destruct (singleLine_fixed text S) as [_ E]. lia.
  - intros E. rewrite <- E. apply sanitizeForDisplay_singleLine.
  - intros S. now apply singleLine_fixed.
Qed.

Lemma occurrences_cons (g c : N) (text : jsstring) :
  occurrences g (c :: text) = (if N.eqb c g then 1 else 0) + occurrences g text.
Proof.
  unfold occurrences. cbn [count_occ].
  destruct (N.eq_dec c g) as [->|Hne].
  - rewrite N.eqb_refl. lia.
  - apply N.eqb_neq in Hne. rewrite Hne. lia.
Qed.

Lemma occurrences_same (g : N) (text : jsstring) :
  occurrences g (g :: text) = 1 + occurrences g text.
Proof. rewrite occurrences_cons. now rewrite N.eqb_refl. Qed.

Lemma occurrences_other (g c : N) (text : jsstring) :
  c <> g -> occurrences g (c :: text) = occurrences g text.
Proof.
  intros H. rewrite occurrences_cons. apply N.eqb_neq in H. now rewrite H.
Qed.

Lemma occurrences_singleLine (text : jsstring) :
  singleLine text -> occurrences CR text = 0 /\ occurrences LF text = 0.
Proof.
  unfold singleLine. induction 1 as [|c rest [H1 H2] _ [IH1 IH2]].
  - split; reflexivity.
  - rewrite !occurrences_other by assumption. now split.
Qed.

Lemma sanitizeForDisplay_cons (c : N) (rest : jsstring) :
  sanitizeForDisplay (c :: rest) =
  if N.eqb c CR then
    match rest with
    | d :: rest' =>
        if N.eqb d LF then RETURN_GLYPH :: sanitizeForDisplay rest'
        else RETURN_GLYPH :: sanitizeForDisplay rest
    | [] => [RETURN_GLYPH]
    end
  else if N.eqb c LF then RETURN_GLYPH :: sanitizeForDisplay rest
  else c :: sanitizeForDisplay rest.
Proof. reflexivity. Qed.

Lemma lineBreaks_cons (c : N) (rest : jsstring) :
  lineBreaks (c :: rest) =
  if N.eqb c CR then
    match rest with
    | d :: rest' =>
        if N.eqb d LF then 1 + lineBreaks rest' else 1 + lineBreaks rest
    | [] => 1
    end
  else if N.eqb c LF then 1 + lineBreaks rest
  else lineBreaks rest.
Proof. reflexivity. Qed.

(** X3. [sanitizeForDisplay] puts in one glyph for every line break that
    [countLines] counts: the glyphs of the result are those of the text plus
    [countLines text - 1], and no CR and no LF is left. *)
Theorem sanitizeForDisplay_counts_breaks (text : jsstring) :
  occurrences RETURN_GLYPH (sanitizeForDisplay text)
  = occurrences RETURN_GLYPH text + (countLines text - 1)
  /\ occurrences CR (sanitizeForDisplay text) = 0
  /\ occurrences LF (sanitizeForDisplay text) = 0.
Proof.
  unfold countLines. split;
    [|apply occurrences_singleLine, sanitizeForDisplay_singleLine].
  replace (lineBreaks text + 1 - 1) with (lineBreaks text) by lia.
  assert (HCR : CR <> RETURN_GLYPH) by discriminate.
  assert (HLF : LF <> RETURN_GLYPH) by discriminate.
  induction text as [| c | c d rest IH1 IH2] using text_ind2.
  - reflexivity.
  - cbn [sanitizeForDisplay lineBreaks].
    destruct (N.eqb c CR) eqn:E1; [|destruct (N.eqb c LF) eqn:E2].
    + apply N.eqb_eq in E1. subst c. reflexivity.
    + apply N.eqb_eq in E2. subst c. reflexivity.
    + rewrite !occurrences_cons. change (occurrences RETURN_GLYPH []) with 0. lia.
  - rewrite sanitizeForDisplay_cons, lineBreaks_cons.
    destruct (N.eqb c CR) eqn:E1; [destruct (N.eqb d LF) eqn:E3
                                   | destruct (N.eqb c LF) eqn:E2].
    + apply N.eqb_eq in E1, E3. subst c d.
      rewrite occurrences_same, IH1.
      rewrite (occurrences_other _ CR), (occurrences_other _ LF) by assumption.
      lia.
    + apply N.eqb_eq in E1. subst c.
      rewrite occurrences_same, IH2.
      rewrite (occurrences_other _ CR) by assumption. lia.
    + apply N.eqb_eq in E2. subst c.
      rewrite occurrences_same, IH2.
      rewrite (occurrences_other _ LF) by assumption. lia.
    + rewrite (occurrences_cons _ c (sanitizeForDisplay _)),
        (occurrences_cons _ c (d :: rest)). rewrite IH2. lia.
Qed.

(* ------------------------------------------------------------------ *)
(** ** Where the word boundaries fall *)

Lemma charAt_inside (text : jsstring) (p : Z) :
  0 <= p < len text -> exists c, charAt text p = [c].
Proof.
  intros H. unfold charAt.
  assert (E : (0 <=? p) && (p <? len text) = true).
  { apply andb_true_iff. split; [apply Z.leb_le | apply Z.ltb_lt]; lia. }
  rewrite E.
  destruct (skipn (Z.to_nat p) text) as [|c rest] eqn:Es.
  - exfalso. pose proof (len_skipn text p) as Hl. rewrite Es in Hl.
    change (len []) with 0 in Hl. lia.
  - exists c. reflexivity.
Qed.

(** Inside the text a character is whitespace or it is not. *)
Lemma charAt_class (text : jsstring) (p : Z) :
  0 <= p < len text ->
  testNonSpace (charAt text p) = negb (testSpace (charAt text p)).
Proof.
  intros H. destruct (charAt_inside text p H) as [c ->].
  unfold testNonSpace, testSpace. simpl. now rewrite !orb_false_r.
Qed.

Lemma test_inside (test : jsstring -> bool) (text : jsstring) (p : Z) :
  test [] = false -> test (charAt text p) = true -> 0 <= p < len text.
Proof.
  intros Ht H.
  destruct (Z.ltb_spec p 0) as [Hn|Hn].
  - rewrite charAt_outside in H by now left. congruence.
  - destruct (Z.ltb_spec p (len text)) as [Hl|Hl]; [lia|].
    rewrite charAt_outside in H by now right. congruence.
Qed.

(** A backward loop that moved did so because its condition held one
    position right of where it stopped. *)
Lemma whileDec_moved (cond : Z -> bool) (fuel : nat) (pos : Z) :
  whileDec cond fuel pos < pos -> cond (whileDec cond fuel pos + 1) = true.
Proof.
  revert pos; induction fuel as [|f IH]; intros pos H; simpl in *; [lia|].
  destruct (cond pos) eqn:E; [|lia].
  destruct (Z.eq_dec (whileDec cond f (pos - 1)) (pos - 1)) as [Heq|Hne].
  - rewrite Heq. now replace (pos - 1 + 1) with pos by lia.
  - apply IH. pose proof (whileDec_le cond f (pos - 1)). lia.
Qed.

Lemma whileInc_moved (cond : Z -> bool) (fuel : nat) (pos : Z) :
  pos < whileInc cond fuel pos -> cond (whileInc cond fuel pos - 1) = true.
Proof.
  revert pos; induction fuel as [|f IH]; intros pos H; simpl in *; [lia|].
  destruct (cond pos) eqn:E; [|lia].
  destruct (Z.eq_dec (whileInc cond f (pos + 1)) (pos + 1)) as [Heq|Hne].
  - rewrite Heq. now replace (pos + 1 - 1) with pos by lia.
  - apply IH. pose proof (whileInc_ge cond f (pos + 1)). lia.
Qed.

Lemma whileInc_first (cond : Z -> bool) (fuel : nat) (pos : Z) :
  cond pos = true -> (0 < fuel)%nat -> pos < whileInc cond fuel pos.
Proof.
  intros H Hf. destruct fuel as [|f]; [lia|]. simpl. rewrite H.
  pose proof (whileInc_ge cond f (pos + 1)). lia.
Qed.

(** X4. From a cursor right of the start, [findPreviousWordBoundary] moves
    strictly left, and not below 0; with the cursor inside the text it stops
    at 0 or on the first character of a word, that is, on a non-whitespace
    character with whitespace before it. *)
Theorem findPreviousWordBoundary_lands (text : jsstring) (pos : Z) :
  0 < pos ->
  let r := findPreviousWordBoundary text pos in
  0 <= r < pos
  /\ (pos <= len text ->
      r = 0
      \/ (testSpace (charAt text (r - 1)) = true
          /\ testNonSpace (charAt text r) = true)).
Proof.
  intros Hpos. cbv zeta. unfold findPreviousWordBoundary.
  assert (E0 : (pos =? 0) = false) by (apply Z.eqb_neq; lia). rewrite E0.
  pose proof (skipSpaceBack_exit text (pos - 1)) as X1.
  set (r1 := skipSpaceBack text (pos - 1)) in *.
  pose proof (skipWordBack_exit text r1) as X2.
  set (r2 := skipWordBack text r1) in *.
  cbv zeta in X1, X2.
  assert (H1 : 0 <= r1 <= pos - 1).
  { unfold r1, skipSpaceBack. split.
    - apply whileDec_nonneg; [intros p; apply guard_back | lia].
    - apply whileDec_le. }
  assert (H2 : 0 <= r2 <= r1).
  { unfold r2, skipWordBack. split.
    - apply whileDec_nonneg; [intros p; apply guard_back | lia].
    - apply whileDec_le. }
  destruct ((0 <? r2) && testSpace (charAt text r2)) eqn:E.
  - (* stopped on whitespace right of the start: one step right *)
    assert (Hlt : r2 < r1).
    { destruct (Z.eq_dec r2 r1) as [Heq|Hne]; [|lia].
      rewrite Heq in E. congruence. }
    split; [lia|]. intros _. right.
    apply andb_true_iff in E as [_ Es].
    rewrite Z.max_r by lia. replace (r2 + 1 - 1) with r2 by lia.
    split; [exact Es|].
    pose proof (whileDec_moved
                  (fun p => (0 <? p) && testNonSpace (charAt text p))
                  (Z.to_nat r1) r1 Hlt) as Hm.
    fold (skipWordBack text r1) in Hm. fold r2 in Hm.
    apply andb_true_iff in Hm as [_ Hm]. exact Hm.
  - split; [lia|]. intros Hin. left.
    destruct (Z.eq_dec r2 0) as [Hz|Hnz]; [lia|].
    exfalso.
    assert (Hr2 : (0 <? r2) = true) by (apply Z.ltb_lt; lia).
    rewrite Hr2 in E, X2. cbn [andb] in E, X2.
    rewrite charAt_class in X2 by lia. rewrite E in X2. discriminate.
Qed.

Lemma findPreviousWordBoundary_lands_witness :
  0 < 11
  /\ findPreviousWordBoundary (lit "hello world") 11 = 6
  /\ testSpace (charAt (lit "hello world") 5) = true.
Proof.
  pose proof (findPreviousWordBoundary_lands (lit "hello world") 11 eq_refl)
    as [_ H].
  split; [reflexivity|]. split; [reflexivity|].
  destruct (H ltac:(discriminate)) as [H0|[Hs _]]; [discriminate H0|exact Hs].
Defined.

(** X5. From a cursor inside the text, [findNextWordBoundary] moves strictly
    right, and not beyond the length; it stops at the end of the text or on
    the first character of a word, that is, on a non-whitespace character
    with whitespace before it. *)
Theorem findNextWordBoundary_lands (text : jsstring) (pos : Z) :
  0 <= pos < len text ->
  let r := findNextWordBoundary text pos in
  pos < r <= len text
  /\ (r = len text
      \/ (testSpace (charAt text (r - 1)) = true
          /\ testNonSpace (charAt text r) = true)).
Proof.
  intros Hpos. cbv zeta. unfold findNextWordBoundary.
  assert (E0 : (len text <=? pos) = false) by (apply Z.leb_gt; lia). rewrite E0.
  pose proof (skipWordFwd_exit text pos) as X1.
  set (r1 := skipWordFwd text pos) in *.
  pose proof (skipSpaceFwd_exit text r1) as X2.
  set (r2 := skipSpaceFwd text r1) in *.
  cbv zeta in X1, X2.
  assert (H1 : pos <= r1 <= len text).
  { unfold r1, skipWordFwd. split.
    - apply whileInc_ge.
    - apply whileInc_bounded; [intros p; apply guard_fwd | lia]. }
  assert (H2 : r1 <= r2 <= len text).
  { unfold r2, skipSpaceFwd. split.
    - apply whileInc_ge.
    - apply whileInc_bounded; [intros p; apply guard_fwd | lia]. }
  assert (Hmove : r1 < len text -> r1 < r2).
  { intros Hl.
    assert (Hlt : (r1 <? len text) = true) by (apply Z.ltb_lt; lia).
    rewrite Hlt in X1. cbn [andb] in X1.
    rewrite charAt_class in X1 by lia. apply negb_false_iff in X1.
    unfold r2, skipSpaceFwd. apply whileInc_first.
    - now rewrite Hlt, X1.
    - lia. }
  split.
  - split; [|lia].
    destruct (Z.eq_dec r1 pos) as [Heq|Hne]; [|lia].
    assert (r1 < r2) by (apply Hmove; lia). lia.
  - destruct (Z.eq_dec r2 (len text)) as [Hend|Hin]; [now left|]. right.
    assert (Hlt : (r2 <? len text) = true) by (apply Z.ltb_lt; lia).
    rewrite Hlt in X2. cbn [andb] in X2.
    assert (Hr : r1 < r2) by (apply Hmove; lia).
    pose proof (whileInc_moved
                  (fun p => (p <? len text) && testSpace (charAt text p))
                  (Z.to_nat (len text - r1)) r1 Hr) as Hm.
    fold (skipSpaceFwd text r1) in Hm. fold r2 in Hm.
    apply andb_true_iff in Hm as [_ Hm].
    split; [exact Hm|].
    rewrite charAt_class by lia. now rewrite X2.
Qed.

Lemma findNextWordBoundary_lands_witness :
  0 <= 0 < len (lit "hello world")
  /\ findNextWordBoundary (lit "hello world") 0 = 6
  /\ 0 < findNextWordBoundary (lit "hello world") 0.
Proof.
  assert (H : 0 <= 0 < len (lit "hello world")) by (split; [discriminate|reflexivity]).
  pose proof (findNextWordBoundary_lands (lit "hello world") 0 H) as [[Hlt _] _].
  split; [exact H|]. split; [reflexivity|exact Hlt].
Defined.

(* ------------------------------------------------------------------ *)
(** ** The sequences of the word movements *)

(** Decide the comparisons of code units one variable at a time, computing
    in between. *)
Ltac decide_codes :=
  repeat (cbn [andb orb negb];
          match goal with
          | |- context [N.eqb ?x ?k] =>
              is_var x; destruct (N.eqb_spec x k) as [->|?]
          end);
  cbn [andb orb negb].

Lemma detectOptionWordDirection_table (sequence : jsstring) :
  detectOptionWordDirection sequence =
  if existsb (eqb sequence) wordLeftSequences then Some dirLeft
  else if existsb (eqb sequence) wordRightSequences then Some dirRight
  else None.
Proof.
  destruct sequence as [|a [|b [|c [|d [|e [|f [|g rest]]]]]]];
    cbv [detectOptionWordDirection startsWithEsc OPTION_LEFT_PATTERN
         OPTION_RIGHT_PATTERN optionArrowPattern modifierThenFinal
         isOptionModifier wordLeftSequences wordRightSequences modifiedArrows
         flat_map app existsb eqb ESC];
    decide_codes; reflexivity.
Qed.

Lemma existsb_eqb_In (s : jsstring) (l : list jsstring) :
  existsb (eqb s) l = true <-> In s l.
Proof.
  rewrite existsb_exists. split.
  - intros [x [Hin Heq]]. apply eqb_eq in Heq. now subst.
  - intros Hin. exists s. split; [exact Hin|apply eqb_refl].
Qed.

(** X6. [detectOptionWordDirection] answers left exactly for the twelve
    sequences of [wordLeftSequences] and right exactly for the twelve of
    [wordRightSequences]; every other sequence gets no direction. *)
Theorem detectOptionWordDirection_exact (sequence : jsstring) :
  (detectOptionWordDirection sequence = Some dirLeft
   <-> In sequence wordLeftSequences)
  /\ (detectOptionWordDirection sequence = Some dirRight
      <-> In sequence wordRightSequences)
  /\ (detectOptionWordDirection sequence = None
      <-> ~ In sequence wordLeftSequences /\ ~ In sequence wordRightSequences).
Proof.
  assert (Hdisj : In sequence wordLeftSequences ->
                  In sequence wordRightSequences -> False).
  { intros Hl Hr. cbv [wordLeftSequences wordRightSequences modifiedArrows
                       flat_map app In] in Hl, Hr.
    repeat match goal with
           | H : _ \/ _ |- _ => destruct H
           | H : False |- _ => destruct H
           end; subst; discriminate. }
  rewrite detectOptionWordDirection_table.
  rewrite <- !existsb_eqb_In in *.
  destruct (existsb (eqb sequence) wordLeftSequences);
    destruct (existsb (eqb sequence) wordRightSequences);
    repeat split; intros; try discriminate; try reflexivity;
    try (exfalso; now apply Hdisj);
    intuition discriminate.
Qed.

(* ------------------------------------------------------------------ *)
(** ** What one event can do to the text *)

Lemma sameText_refl (w : World) : sameText w w.
Proof. repeat split. Qed.

Lemma quiet_of_sameText (w w0 : World) : sameText w w0 -> quietStep w w0.
Proof.
  intros (Hd & Hn & Hv & Hl & Hc). repeat split; try assumption.
  exists []. rewrite app_nil_r. now split.
Qed.

Lemma cursorCalls_quiet (props : Props) (p : Z) :
  forallb (fun c => negb (isOnChange c)) (cursorCalls props p) = true.
Proof. unfold cursorCalls. destruct (onCursorMove props); reflexivity. Qed.

Lemma updateCursor_quiet (props : Props) (p : Z) (w w0 : World) :
  sameText w w0 -> quietStep w (updateCursor props p w0).
Proof.
  intros (Hd & Hn & Hv & Hl & Hc). rewrite updateCursor_world.
  repeat split;
    cbn [displayValue nextDisplayValue valueRef lastEmittedValueRef calls];
    try assumption.
  eexists. rewrite Hc. split; [reflexivity|apply cursorCalls_quiet].
Qed.

Lemma updateValue_emitting (props : Props) (v : jsstring) (c : Z) (w w0 : World) :
  sameText w w0 -> emittingStep props w (updateValue props v (Some c) w0).
Proof.
  intros (Hd & _ & _ & _ & Hc). rewrite updateValue_world. exists v.
  cbn [displayValue nextDisplayValue valueRef lastEmittedValueRef
       caretOffsetRef calls].
  repeat split; try apply clamp_range, len_nonneg; [exact Hd|].
  now rewrite Hc.
Qed.

Lemma deleteCharacter_step (props : Props) (forward : bool) (w : World) :
  oneStep props w (deleteCharacter props forward w).
Proof.
  unfold deleteCharacter. destruct forward.
  - destruct (caretOffsetRef w <? len (valueRef w)).
    + right. apply updateValue_emitting, sameText_refl.
    + left. apply quiet_of_sameText, sameText_refl.
  - destruct (0 <? caretOffsetRef w).
    + right. apply updateValue_emitting, sameText_refl.
    + left. apply quiet_of_sameText, sameText_refl.
Qed.

Lemma handleInsert_step (env : Env) (props : Props) (text : jsstring)
      (isPaste : bool) (w w0 : World) :
  sameText w w0 -> oneStep props w (worldOf (handleInsert env props text isPaste w0)).
Proof.
  intros Hs. unfold handleInsert.
  destruct (isPaste || (5 <? len text)).
  - destruct (translatePasteForImages env text) as [translated|];
      [|left; now apply quiet_of_sameText].
    destruct ((500 <? len text) || (5 <? countLines translated)).
    + destruct (allocatePaste env (registry w0) translated) as [[i reg]|];
        [|left; now apply quiet_of_sameText].
      right. apply updateValue_emitting. exact Hs.
    + right. now apply updateValue_emitting.
  - right. now apply updateValue_emitting.
Qed.

Lemma navigation_step (props : Props) (input : jsstring) (key : Key) (w w0 : World) :
  sameText w w0 -> oneStep props w (navigation props input key w0).
Proof.
  intros Hs. pose proof Hs as (Hd & Hn & Hv & Hl & Hc). unfold navigation.
  destruct (return_ key).
  { left. destruct (onSubmit props); [|now apply quiet_of_sameText].
    repeat split;
      cbn [call displayValue nextDisplayValue valueRef lastEmittedValueRef calls];
      try assumption.
    eexists. rewrite Hc. split; reflexivity. }
  destruct (leftArrow key); [left; now apply updateCursor_quiet|].
  destruct (rightArrow key); [left; now apply updateCursor_quiet|].
  destruct (ctrl key || meta key); [left; now apply quiet_of_sameText|].
  assert (He : oneStep props w (explicitKeys props key w0)).
  { assert (Hq : forall w1, oneStep props w0 w1 -> oneStep props w w1).
    { intros w1 [(H1 & H1' & H2 & H3 & cs & H4 & H5)
                |(v & H1 & H1' & H2 & H3 & H4 & H5)].
      - left. repeat split; try congruence. exists cs. split; congruence.
      - right. exists v.
        repeat split; try assumption; try apply H4; congruence. }
    unfold explicitKeys.
    destruct (backspace key); [apply Hq, deleteCharacter_step|].
    destruct (delete key); [apply Hq, deleteCharacter_step|].
    left. now apply quiet_of_sameText. }
  unfold batchPath.
  destruct (0 <? len input); [|exact He].
  destruct (processed (batch input key w0)); [|exact He].
  right. now apply updateValue_emitting.
Qed.

Lemma pasteShortcuts_step (env : Env) (props : Props) (input : jsstring)
      (key : Key) (w w0 : World) :
  sameText w w0 ->
  oneStep props w (worldOf (pasteShortcuts env props input key w0)).
Proof.
  intros Hs. unfold pasteShortcuts.
  destruct ((meta key && isV input) || (ctrl key && shift key && isV input)).
  - destruct (tryImportClipboardImageMac env) as [p|].
    + destruct (0 <? len p).
      * now apply handleInsert_step.
      * now apply navigation_step.
    + now apply navigation_step.
  - now apply navigation_step.
Qed.

Lemma inputHandler_step (env : Env) (props : Props) (input : jsstring)
      (key : Key) (w : World) :
  oneStep props w (worldOf (inputHandler env props input key w)).
Proof.
  unfold inputHandler.
  destruct (isPasted key);
    [|apply pasteShortcuts_step, sameText_refl].
  assert (Hs : sameText w (setLastPasteDetectedAt (dateNow env) w))
    by (repeat split).
  destruct (translatePasteForImages env input) as [translated|];
    [|left; now apply quiet_of_sameText].
  match goal with
  | |- context [if 0 <? len ?t then _ else _] => destruct (0 <? len t)
  end.
  - now apply handleInsert_step.
  - now apply pasteShortcuts_step.
Qed.

Lemma handleRawInput_step (props : Props) (sequence : jsstring) (w : World) :
  oneStep props w (handleRawInput props sequence w).
Proof.
  pose proof (sameText_refl w) as Hs.
  unfold handleRawInput.
  destruct (negb (focus props)); [left; now apply quiet_of_sameText|].
  destruct (len sequence =? 0); [left; now apply quiet_of_sameText|].
  destruct (eqb sequence [127%N] || eqb sequence [8%N]);
    [apply deleteCharacter_step|].
  match goal with
  | |- context [if ?c then deletePreviousWord _ _ else _] => destruct c
  end.
  { unfold deletePreviousWord.
    match goal with |- context [if ?c then w else _] => destruct c end.
    - left. now apply quiet_of_sameText.
    - right. now apply updateValue_emitting. }
  destruct ((len sequence <=? 32) && includes sequence ESC);
    [|left; now apply quiet_of_sameText].
  destruct (firstDirection (tl (split ESC sequence))) as [[|]|].
  - left. now apply updateCursor_quiet.
  - left. now apply updateCursor_quiet.
  - left. now apply quiet_of_sameText.
Qed.

(** X7. One input notification, to the input handler or to the raw
    listener, whether the handler returns or throws, does one of two things:
    it leaves the buffer, the last emitted value and the display state as
    they were and calls no [onChange]; or it commits one new text, which is
    then the buffer and the last emitted value at once and is the state
    handed to [setDisplayValue] for the next render, calls [onChange] exactly
    once, with that text, and leaves the cursor inside it. In both cases the
    constant [displayValue] of the render that created the handler is as
    before. *)
Theorem one_commit_per_event (env : Env) (props : Props) (w : World) :
  (forall input key,
      oneStep props w (worldOf (inputHandler env props input key w)))
  /\ (forall sequence, oneStep props w (handleRawInput props sequence w)).
Proof.
  split.
  - intros input key. apply inputHandler_step.
  - intros sequence. apply handleRawInput_step.
Qed.






Lemma step_displaySynced (props : Props) (w w' : World) :
  oneStep props w w' -> displaySynced w -> displaySynced w'.
Proof.
  unfold displaySynced.
  intros [(_ & Hd & Hv & _)|(v & Hd & _ & Hv & _)] H; congruence.
Qed.

(** The Return key, with no paste flag and no modifier, hands the constant
    [displayValue] to [onSubmit] and does nothing else. *)
Lemma inputHandler_return (env : Env) (props : Props) (input : jsstring)
      (key : Key) (w : World) :
  isPasted key = false -> meta key = false -> ctrl key = false ->
  return_ key = true -> onSubmit props = true ->
  inputHandler env props input key w = Done (call (OnSubmit (displayValue w)) w).
Proof.
  intros Hp Hm Hc Hr Hs.
  unfold inputHandler, pasteShortcuts, navigation.
  now rewrite Hp, Hm, Hc, Hr, Hs.
Qed.

(** X9. Every render draws the buffer. The state that [setDisplayValue]
    holds for the next render equals [valueRef] after mounting, and every
    input event, every event of the raw listener and every render keeps them
    equal; so the [displayValue] that a render takes from the state is the
    buffer as it was when the render began. Between two renders the constant
    lags behind: no event changes it, and it is what the Return key hands to
    [onSubmit]. *)
Theorem display_shows_buffer (env : Env) (props : Props) (w : World) :
  (forall value reg,
      displaySynced (mount value reg) /\ displayValue (mount value reg) = value)
  /\ (forall input key,
        displayValue (worldOf (inputHandler env props input key w))
        = displayValue w)
  /\ (forall sequence,
        displayValue (handleRawInput props sequence w) = displayValue w)
  /\ (forall input key,
        isPasted key = false -> meta key = false -> ctrl key = false ->
        return_ key = true -> onSubmit props = true ->
        inputHandler env props input key w
        = Done (call (OnSubmit (displayValue w)) w))
  /\ (displaySynced w ->
      (forall input key,
          displaySynced (worldOf (inputHandler env props input key w)))
      /\ (forall sequence, displaySynced (handleRawInput props sequence w))
      /\ (forall old new,
            displaySynced (rerender old new w)
            /\ displayValue (rerender old new w) = valueRef w)).
Proof.
  assert (Hkeep : forall w', oneStep props w w' -> displayValue w' = displayValue w).
  { intros w' [(Hd & _)|(v & _ & Hd & _)]; exact Hd. }
  split; [intros value reg; split; reflexivity|].
  split; [intros input key; apply Hkeep, inputHandler_step|].
  split; [intros sequence; apply Hkeep, handleRawInput_step|].
  split; [intros input key; apply inputHandler_return|].
  intros H. split; [|split].
  - intros input key. eapply step_displaySynced; [apply inputHandler_step|exact H].
  - intros sequence. eapply step_displaySynced; [apply handleRawInput_step|exact H].
  - intros old new. rewrite rerender_effects.
    set (w1 := if eqb (value old) (value new) then useState w
               else valueSyncEffect (value new) (useState w)).
    assert (H1 : displaySynced w1 /\ displayValue w1 = valueRef w).
    { unfold w1. destruct (eqb (value old) (value new)); [split; exact H|].
      unfold valueSyncEffect.
      destruct (negb (eqb (value new) (lastEmittedValueRef (useState w))));
        split; try reflexivity; exact H. }
    destruct (nudge old new); exact H1.
Qed.

(** After [c] is typed into ["ab"] the buffer is ["abc"], and so is the
    state for the next render; the Return key, arriving before that render,
    submits ["ab"], and after it ["abc"]. *)
Lemma display_shows_buffer_witness :
  let props := mkProps true true true in
  let returnKey := mkKey false false false false true false false false false in
  let same := mkOwnerProps (lit "ab") None in
  let w := mount (lit "ab") (mkRegistry 1 []) in
  let typed := worldOf (inputHandler plainEnv props (lit "c") plainKey w) in
  displaySynced w
  /\ valueRef typed = lit "abc"
  /\ displaySynced typed
  /\ displayValue typed = lit "ab"
  /\ inputHandler plainEnv props [] returnKey typed
     = Done (call (OnSubmit (lit "ab")) typed)
  /\ displayValue (rerender same same typed) = lit "abc"
  /\ inputHandler plainEnv props [] returnKey (rerender same same typed)
     = Done (call (OnSubmit (lit "abc")) (rerender same same typed)).
Proof.
  intros props returnKey same w typed.
  destruct (display_shows_buffer plainEnv props w) as [Hm [Hd [_ [_ H]]]].
  destruct (Hm (lit "ab") (mkRegistry 1 [])) as [Hw _].
  destruct (H Hw) as [Hin _].
  destruct (display_shows_buffer plainEnv props typed) as [_ [_ [_ [Hret Hs]]]].
  destruct (Hs (Hin (lit "c") plainKey)) as [_ [_ Hre]].
  destruct (Hre same same) as [_ Hdrawn].
  destruct (display_shows_buffer plainEnv props (rerender same same typed))
    as [_ [_ [_ [Hret' _]]]].
  split; [exact Hw|]. split; [reflexivity|].
  split; [exact (Hin (lit "c") plainKey)|].
  split; [exact (Hd (lit "c") plainKey)|].
  split; [exact (Hret [] returnKey eq_refl eq_refl eq_refl eq_refl eq_refl)|].
  split; [exact Hdrawn|].
  exact (Hret' [] returnKey eq_refl eq_refl eq_refl eq_refl eq_refl).
Defined.

(** X10. An external value is compared with the last value emitted, not with
    the buffer. After the owner replaced the text [v] last emitted by another
    text [x], a render that supplies [v] again is taken for an echo: it takes
    the display state and does nothing else, so the buffer keeps [x] and the
    cursor stays, while the owner holds [v]. *)
Theorem replaced_text_cannot_be_restored (w : World) (v x : jsstring)
        (cp : option Z) :
  lastEmittedValueRef w = v -> x <> v ->
  let w1 := rerender (mkOwnerProps v cp) (mkOwnerProps x cp) w in
  let w2 := rerender (mkOwnerProps x cp) (mkOwnerProps v cp) w1 in
  valueRef w1 = x /\ w2 = useState w1 /\ valueRef w2 = x
  /\ caretOffsetRef w2 = caretOffsetRef w1 /\ valueRef w2 <> v.
Proof.
  intros Hv Hx. cbv zeta.
  assert (Hne : v <> x) by congruence.
  rewrite (rerender_value (mkOwnerProps v cp) (mkOwnerProps x cp) w)
    by (cbn; congruence).
  cbn [value].
  set (w1 := valueSyncEffect x (useState w)).
  assert (H1 : valueRef w1 = x /\ lastEmittedValueRef w1 = v).
  { unfold w1, valueSyncEffect. cbn [useState lastEmittedValueRef]. rewrite Hv.
    apply eqb_neq in Hx. rewrite Hx. now split. }
  destruct H1 as [H1 H1'].
  assert (H2 : rerender (mkOwnerProps x cp) (mkOwnerProps v cp) w1 = useState w1).
  { rewrite rerender_value by (cbn; congruence). cbn [value].
    unfold valueSyncEffect. cbn [useState lastEmittedValueRef].
    now rewrite H1', eqb_refl. }
  rewrite H2. cbn [useState valueRef caretOffsetRef].
  repeat split; congruence.
Qed.

(** After ["abc"] was emitted the owner clears the field and then supplies
    ["abc"] again: the buffer stays empty. *)
Lemma replaced_text_cannot_be_restored_witness :
  let w := mount (lit "abc") (mkRegistry 1 []) in
  lastEmittedValueRef w = lit "abc" /\ [] <> lit "abc"
  /\ valueRef (rerender (mkOwnerProps [] None) (mkOwnerProps (lit "abc") None)
                 (rerender (mkOwnerProps (lit "abc") None) (mkOwnerProps [] None) w))
     = [].
Proof.
  intros w.
  assert (Hx : [] <> lit "abc") by discriminate.
  destruct (replaced_text_cannot_be_restored w (lit "abc") [] None eq_refl Hx)
    as [_ [_ [H _]]].
  split; [reflexivity|]. split; [exact Hx|exact H].
Defined.

(* ------------------------------------------------------------------ *)
(** ** Arrows, and deleting inside the text *)

(** X11. With the cursor inside the text, the left arrow moves it one
    position left but not below 0, the right arrow one position right but
    not beyond the length, whatever payload comes with the key; neither
    changes the text; and right after left (from a cursor past the start) or
    left after right (from a cursor before the end) brings the cursor
    back. *)
Theorem arrow_keys (env : Env) (props : Props) (input : jsstring) (w : World) :
  cursorInRange w ->
  let go key w0 := worldOf (inputHandler env props input key w0) in
  valueRef (go leftArrowKey w) = valueRef w
  /\ caretOffsetRef (go leftArrowKey w) = Z.max 0 (caretOffsetRef w - 1)
  /\ valueRef (go rightArrowKey w) = valueRef w
  /\ caretOffsetRef (go rightArrowKey w)
     = Z.min (len (valueRef w)) (caretOffsetRef w + 1)
  /\ (0 < caretOffsetRef w ->
      caretOffsetRef (go rightArrowKey (go leftArrowKey w)) = caretOffsetRef w)
  /\ (caretOffsetRef w < len (valueRef w) ->
      caretOffsetRef (go leftArrowKey (go rightArrowKey w)) = caretOffsetRef w).
Proof.
  intros Hr. cbv beta zeta. unfold cursorInRange in Hr.
  assert (Hl : forall w0, worldOf (inputHandler env props input leftArrowKey w0)
                          = updateCursor props (caretOffsetRef w0 - 1) w0)
    by reflexivity.
  assert (Hrt : forall w0, worldOf (inputHandler env props input rightArrowKey w0)
                           = updateCursor props (caretOffsetRef w0 + 1) w0)
    by reflexivity.
  rewrite !Hl, !Hrt, !updateCursor_world.
  cbn [valueRef caretOffsetRef]. unfold clamp.
  repeat split; lia.
Qed.

Lemma arrow_keys_witness :
  let w := mount (lit "abc") (mkRegistry 1 []) in
  cursorInRange w
  /\ caretOffsetRef (worldOf (inputHandler plainEnv (mkProps true true true) []
                                           rightArrowKey w)) = 3
  /\ caretOffsetRef (worldOf (inputHandler plainEnv (mkProps true true true) []
                                           leftArrowKey w)) = 2.
Proof.
  intros w.
  assert (Hr : cursorInRange w) by (vm_compute; split; discriminate).
  destruct (arrow_keys plainEnv (mkProps true true true) [] w Hr)
    as [_ [Hl [_ [Hrt _]]]].
  split; [exact Hr|]. split; [exact Hrt|exact Hl].
Defined.

Lemma len_firstn_le (s : jsstring) (n : nat) : len (firstn n s) <= len s.
Proof. unfold len. rewrite length_firstn. lia. Qed.

(** X12. With the cursor inside the text, Backspace past the start removes
    the one character before the cursor and moves the cursor onto its place;
    Delete before the end removes the one character under the cursor and
    leaves the cursor; the rest of the text is as it was. *)
Theorem delete_inside (props : Props) (w : World) :
  cursorInRange w ->
  let text := valueRef w in
  let pos := caretOffsetRef w in
  (0 < pos ->
   let w' := deleteCharacter props false w in
   valueRef w' = firstn (Z.to_nat (pos - 1)) text ++ skipn (Z.to_nat pos) text
   /\ caretOffsetRef w' = pos - 1
   /\ len (valueRef w') = len text - 1)
  /\ (pos < len text ->
      let w' := deleteCharacter props true w in
      valueRef w' = firstn (Z.to_nat pos) text ++ skipn (Z.to_nat (pos + 1)) text
      /\ caretOffsetRef w' = pos
      /\ len (valueRef w') = len text - 1).
Proof.
  intros Hr. cbv zeta. unfold cursorInRange in Hr. split.
  - intros Hpos. unfold deleteCharacter.
    assert (E : (0 <? caretOffsetRef w) = true) by (apply Z.ltb_lt; lia).
    rewrite E, updateValue_world. cbn [valueRef caretOffsetRef].
    rewrite slice_prefix, sliceFrom_suffix by lia.
    assert (Hl : len (firstn (Z.to_nat (caretOffsetRef w - 1)) (valueRef w)
                        ++ skipn (Z.to_nat (caretOffsetRef w)) (valueRef w))
                 = len (valueRef w) - 1).
    { rewrite len_app, firstn_skipn_len, len_skipn by lia. lia. }
    rewrite Hl. split; [reflexivity|]. split; [apply clamp_id; lia|reflexivity].
  - intros Hpos. unfold deleteCharacter.
    assert (E : (caretOffsetRef w <? len (valueRef w)) = true)
      by (apply Z.ltb_lt; lia).
    rewrite E, updateValue_world. cbn [valueRef caretOffsetRef].
    rewrite slice_prefix, sliceFrom_suffix by lia.
    assert (Hl : len (firstn (Z.to_nat (caretOffsetRef w)) (valueRef w)
                        ++ skipn (Z.to_nat (caretOffsetRef w + 1)) (valueRef w))
                 = len (valueRef w) - 1).
    { rewrite len_app, firstn_skipn_len, len_skipn by lia. lia. }
    rewrite Hl. split; [reflexivity|]. split; [apply clamp_id; lia|reflexivity].
Qed.

Lemma delete_inside_witness :
  let w := setCaret 1 (mount (lit "abc") (mkRegistry 1 [])) in
  cursorInRange w
  /\ valueRef (deleteCharacter (mkProps true true true) false w) = lit "bc"
  /\ valueRef (deleteCharacter (mkProps true true true) true w) = lit "ac".
Proof.
  intros w.
  assert (Hr : cursorInRange w) by (vm_compute; split; discriminate).
  destruct (delete_inside (mkProps true true true) w Hr) as [Hb Hd].
  destruct (Hb eq_refl) as [Hb' _]. destruct (Hd eq_refl) as [Hd' _].
  split; [exact Hr|]. split; [exact Hb'|exact Hd'].
Defined.

(** X13. Typing an insertable character and then pressing Backspace gives
    back the text and the cursor, wherever inside the text the cursor was. *)
Theorem type_then_backspace (env : Env) (props : Props) (c : N) (w : World) :
  cursorInRange w -> printable c ->
  exists w1 w2,
    inputHandler env props [c] plainKey w = Done w1
    /\ inputHandler env props [] backspaceKey w1 = Done w2
    /\ valueRef w2 = valueRef w
    /\ caretOffsetRef w2 = caretOffsetRef w.
Proof.
  intros Hr Hc.
  pose proof (firstn_skipn (Z.to_nat (caretOffsetRef w)) (valueRef w)) as Hsplit.
  pose proof (firstn_skipn_len (valueRef w) (caretOffsetRef w) Hr) as Hlen.
  set (bf := firstn (Z.to_nat (caretOffsetRef w)) (valueRef w)) in *.
  set (af := skipn (Z.to_nat (caretOffsetRef w)) (valueRef w)) in *.
  assert (Hb : batch [c] plainKey w = mkBatch (bf ++ [c] ++ af) (len bf + 1) true).
  { unfold batch. cbn [fold_left].
    change (detachedBackspace [c] plainKey
              (mkBatch (valueRef w) (caretOffsetRef w) false))
      with (mkBatch (valueRef w) (caretOffsetRef w) false).
    rewrite batchStep_printable by exact Hc. cbn [nextValue nextPos].
    rewrite <- Hsplit at 1 2. rewrite <- Hlen.
    destruct (slice_split_at bf af) as [-> ->]. reflexivity. }
  set (w1 := updateValue props (bf ++ [c] ++ af) (Some (len bf + 1)) w).
  assert (H1 : inputHandler env props [c] plainKey w = Done w1).
  { change (inputHandler env props [c] plainKey w)
      with (Done (if processed (batch [c] plainKey w)
                  then updateValue props (nextValue (batch [c] plainKey w))
                                   (Some (nextPos (batch [c] plainKey w))) w
                  else explicitKeys props plainKey w)).
    now rewrite Hb. }
  assert (Hv1 : valueRef w1 = (bf ++ [c]) ++ af
                /\ caretOffsetRef w1 = len (bf ++ [c])).
  { unfold w1. rewrite updateValue_world. cbn [valueRef caretOffsetRef].
    rewrite <- app_assoc. split; [reflexivity|].
    rewrite !len_app. change (len [c]) with 1.
    apply clamp_id. pose proof (len_nonneg bf). pose proof (len_nonneg af). lia. }
  destruct Hv1 as [Hv1 Hp1].
  exists w1, (deleteCharacter props false w1).
  split; [exact H1|]. split; [reflexivity|].
  unfold deleteCharacter.
  assert (E : (0 <? caretOffsetRef w1) = true).
  { apply Z.ltb_lt. rewrite Hp1, len_app. change (len [c]) with 1.
    pose proof (len_nonneg bf). lia. }
  rewrite E, updateValue_world. cbn [valueRef caretOffsetRef].
  rewrite Hv1, Hp1.
  destruct (slice_split_at (bf ++ [c]) af) as [_ ->].
  rewrite slice_removelast by (destruct bf; discriminate).
  rewrite removelast_last, Hsplit.
  split; [reflexivity|].
  rewrite len_app. change (len [c]) with 1.
  replace (len bf + 1 - 1) with (len bf) by lia.
  rewrite Hlen. apply clamp_id. exact Hr.
Qed.

Lemma type_then_backspace_witness :
  let w := setCaret 1 (mount (lit "ab") (mkRegistry 1 [])) in
  cursorInRange w /\ printable 120
  /\ exists w1 w2,
      inputHandler plainEnv (mkProps true true true) [120%N] plainKey w = Done w1
      /\ inputHandler plainEnv (mkProps true true true) [] backspaceKey w1 = Done w2
      /\ valueRef w2 = lit "ab"
      /\ caretOffsetRef w2 = 1.
Proof.
  intros w.
  assert (Hr : cursorInRange w) by (vm_compute; split; discriminate).
  assert (Hc : printable 120) by (split; [apply N.leb_le; reflexivity|discriminate]).
  split; [exact Hr|]. split; [exact Hc|].
  exact (type_then_backspace plainEnv (mkProps true true true) 120%N w Hr Hc).
Defined.

(* ------------------------------------------------------------------ *)
(** ** Typed payloads and modifier keys *)

Lemma fold_applyCode_insertable (payload : jsstring) :
  includes payload 8 || includes payload 127 = false ->
  forall g, fold_left applyCode payload g = (fst g ++ insertable payload, snd g).
Proof.
  unfold includes, insertable.
  induction payload as [|c rest IH]; intros H g.
  - simpl. rewrite app_nil_r. now destruct g.
  - cbn [existsb] in H. apply orb_false_iff in H as [H8 H127].
    apply orb_false_iff in H8 as [H8 H8r].
    apply orb_false_iff in H127 as [H127 H127r].
    cbn [fold_left filter]. rewrite IH by (now rewrite H8r, H127r).
    unfold applyCode.
    rewrite (N.eqb_sym c 8), (N.eqb_sym c 127), H8, H127. cbn [orb].
    destruct (32 <=? c)%N; unfold insertCode; cbn [fst snd];
      [now rewrite <- app_assoc | reflexivity].
Qed.

Lemma fold_batchStep_some (payload : jsstring) :
  insertable payload <> [] ->
  forall b, processed (fold_left batchStep payload b) = true.
Proof.
  unfold insertable.
  induction payload as [|c rest IH]; intros H b; [now contradiction H|].
  cbn [fold_left filter] in *.
  destruct (32 <=? c)%N eqn:E.
  - apply fold_processed. unfold batchStep.
    destruct (N.eqb c 127 || N.eqb c 8).
    + destruct (0 <? nextPos b); reflexivity.
    + now rewrite E.
  - now apply IH.
Qed.

(** X14. A typed payload without Backspace flag, without code point 8 and
    without 127 is inserted at the cursor with every code point below 32
    left out: line feeds, carriage returns and tabs typed in are dropped, not
    displayed. The cursor moves right by the number of code units
    inserted. *)
Theorem typed_control_codes_are_dropped (env : Env) (props : Props)
        (input : jsstring) (key : Key) (w : World) :
  characterKey key -> backspace key = false ->
  includes input 8 || includes input 127 = false ->
  cursorInRange w ->
  let text := valueRef w in
  let pos := caretOffsetRef w in
  exists w',
    inputHandler env props input key w = Done w'
    /\ valueRef w' = firstn (Z.to_nat pos) text ++ insertable input
                       ++ skipn (Z.to_nat pos) text
    /\ caretOffsetRef w' = pos + len (insertable input)
    /\ (insertable input = [] -> w' = w).
Proof.
  intros Hk Hb Hlit Hr. cbv zeta.
  rewrite (inputHandler_character env props input key w Hk).
  pose proof (batch_represents input key w Hr) as [Hv Hp].
  unfold composedInput in Hv, Hp. rewrite Hb in Hv, Hp. cbn [andb] in Hv, Hp.
  rewrite (fold_applyCode_insertable input Hlit) in Hv, Hp.
  unfold gapOf, gapText, gapCursor in Hv, Hp. cbn [fst snd] in Hv, Hp.
  rewrite <- app_assoc in Hv. rewrite len_app, firstn_skipn_len in Hp by exact Hr.
  assert (He : explicitKeys props key w = w).
  { unfold explicitKeys. destruct Hk as (_ & _ & _ & _ & _ & _ & Hd).
    now rewrite Hb, Hd. }
  assert (Hnone : insertable input = [] -> batch input key w
                  = mkBatch (valueRef w) (caretOffsetRef w) false).
  { intros Hempty. unfold batch, detachedBackspace. rewrite Hb. cbn [andb].
    clear Hv Hp. revert Hempty Hlit. unfold insertable, includes.
    generalize (mkBatch (valueRef w) (caretOffsetRef w) false).
    induction input as [|c rest IH]; intros b Hempty Hlit; [reflexivity|].
    cbn [filter existsb fold_left] in *.
    apply orb_false_iff in Hlit as [H8 H127].
    apply orb_false_iff in H8 as [H8 H8r].
    apply orb_false_iff in H127 as [H127 H127r].
    destruct (32 <=? c)%N eqn:E; [discriminate|].
    assert (Hs : batchStep b c = b).
    { unfold batchStep.
      now rewrite (N.eqb_sym c 127), (N.eqb_sym c 8), H8, H127, E. }
    rewrite Hs. apply IH; [exact Hempty|now rewrite H8r, H127r]. }
  unfold batchPath.
  destruct (0 <? len input) eqn:El.
  - destruct (processed (batch input key w)) eqn:Eproc.
    + eexists. split; [reflexivity|]. rewrite updateValue_world.
      cbn [valueRef caretOffsetRef]. rewrite Hv, Hp.
      split; [reflexivity|]. split.
      * apply clamp_id. rewrite !len_app, firstn_skipn_len, len_skipn by exact Hr.
        unfold cursorInRange in Hr. pose proof (len_nonneg (insertable input)). lia.
      * intros Hempty. rewrite (Hnone Hempty) in Eproc. discriminate.
    + rewrite He. exists w. split; [reflexivity|].
      destruct (insertable input) eqn:Ei.
      * rewrite firstn_skipn. change (len []) with 0.
        repeat split; try reflexivity. lia.
      * assert (Hne : insertable input <> []) by (rewrite Ei; discriminate).
        unfold batch in Eproc.
        rewrite (fold_batchStep_some input Hne) in Eproc. discriminate.
  - rewrite He. exists w. split; [reflexivity|].
    apply Z.ltb_ge in El. rewrite (len_zero_nil input El).
    cbn [insertable filter app]. rewrite firstn_skipn. change (len []) with 0.
    repeat split; try reflexivity. lia.
Qed.

(** Typing the two lines ["a"], LF, ["b"] in one piece after ["x"] gives
    ["xab"]. *)
Lemma typed_control_codes_are_dropped_witness :
  let w := mount (lit "x") (mkRegistry 1 []) in
  characterKey plainKey /\ backspace plainKey = false
  /\ includes [97; 10; 98]%N 8 || includes [97; 10; 98]%N 127 = false
  /\ cursorInRange w
  /\ exists w',
      inputHandler plainEnv (mkProps true true true) [97; 10; 98]%N plainKey w
      = Done w'
      /\ valueRef w' = lit "xab".
Proof.
  intros w.
  assert (Hk : characterKey plainKey) by (repeat split).
  assert (Hr : cursorInRange w) by (vm_compute; split; discriminate).
  destruct (typed_control_codes_are_dropped plainEnv (mkProps true true true)
              [97; 10; 98]%N plainKey w Hk eq_refl eq_refl Hr)
    as [w' [Hrun [Hv _]]].
  split; [exact Hk|]. split; [reflexivity|]. split; [reflexivity|].
  split; [exact Hr|]. exists w'. split; [exact Hrun|exact Hv].
Defined.

(** X15. A key that carries ctrl or meta and is not a paste never changes
    the text when the clipboard holds no image: the handler returns, buffer,
    last emitted value and registry are as before, and no [onChange] is
    called. Unless the key is also Return or an arrow, the whole state is as
    before. *)
Theorem modifier_keys_leave_text (env : Env) (props : Props) (input : jsstring)
        (key : Key) (w : World) :
  isPasted key = false -> ctrl key || meta key = true ->
  tryImportClipboardImageMac env = None ->
  exists w',
    inputHandler env props input key w = Done w'
    /\ quietStep w w'
    /\ registry w' = registry w
    /\ (return_ key = false -> leftArrow key = false -> rightArrow key = false ->
        w' = w).
Proof.
  intros Hp Hm Hclip. unfold inputHandler, pasteShortcuts.
  rewrite Hp, Hclip.
  assert (Hnav : forall o : Outcome,
             (if (meta key && isV input) || (ctrl key && shift key && isV input)
              then Done (navigation props input key w)
              else Done (navigation props input key w))
             = Done (navigation props input key w)).
  { intros _. now destruct ((meta key && isV input)
                            || (ctrl key && shift key && isV input)). }
  rewrite (Hnav (Done w)).
  exists (navigation props input key w). split; [reflexivity|].
  unfold navigation. rewrite Hm.
  destruct (return_ key).
  { split; [|split; [|discriminate]].
    - destruct (onSubmit props); [|apply quiet_of_sameText, sameText_refl].
      repeat split. eexists. split; reflexivity.
    - now destruct (onSubmit props). }
  destruct (leftArrow key).
  { split; [apply updateCursor_quiet, sameText_refl|].
    split; [now rewrite updateCursor_world|discriminate]. }
  destruct (rightArrow key).
  { split; [apply updateCursor_quiet, sameText_refl|].
    split; [now rewrite updateCursor_world|discriminate]. }
  split; [apply quiet_of_sameText, sameText_refl|]. split; reflexivity.
Qed.

Lemma modifier_keys_leave_text_witness :
  let key := mkKey false false true false false false false false false in
  let w := mount (lit "ab") (mkRegistry 1 []) in
  isPasted key = false /\ ctrl key || meta key = true
  /\ tryImportClipboardImageMac plainEnv = None
  /\ inputHandler plainEnv (mkProps true true true) (lit "k") key w = Done w.
Proof.
  intros key w.
  destruct (modifier_keys_leave_text plainEnv (mkProps true true true) (lit "k")
              key w eq_refl eq_refl eq_refl) as [w' [Hrun [_ [_ Hsame]]]].
  rewrite (Hsame eq_refl eq_refl eq_refl) in Hrun.
  split; [reflexivity|]. split; [reflexivity|]. split; [reflexivity|exact Hrun].
Defined.

(* ------------------------------------------------------------------ *)
(** ** The raw listener *)

Lemma orb_eqb_In (s a b : jsstring) (l : list jsstring) :
  eqb s a || eqb s b = true -> In a l -> In b l -> In s l.
Proof.
  intros H Ha Hb. apply orb_true_iff in H as [H|H]; apply eqb_eq in H; now subst.
Qed.

(** X16. The raw listener changes the text on five sequences only: DEL, BS,
    ESC DEL, ESC BS and ctrl-W. On every other sequence the buffer, the last
    emitted value and the registry are as before and no [onChange] is
    called; and when the sequence holds no ESC, or is longer than 32 code
    units, or the input is not focused, the whole state is as before. *)
Theorem raw_listener_ignores (props : Props) (sequence : jsstring) (w : World) :
  ~ In sequence deletingSequences ->
  let w' := handleRawInput props sequence w in
  quietStep w w'
  /\ registry w' = registry w
  /\ (includes sequence ESC = false \/ 32 < len sequence \/ focus props = false ->
      w' = w).
Proof.
  intros Hnot. cbv zeta. unfold handleRawInput.
  destruct (focus props) eqn:Hf; cbn [negb];
    [|split; [apply quiet_of_sameText, sameText_refl|split; reflexivity]].
  destruct (len sequence =? 0);
    [split; [apply quiet_of_sameText, sameText_refl|split; reflexivity]|].
  destruct (eqb sequence [127%N] || eqb sequence [8%N]) eqn:E1.
  { exfalso. apply Hnot.
    apply (orb_eqb_In _ _ _ _ E1); [left; reflexivity | right; left; reflexivity]. }
  match goal with
  | |- context [if ?c then deletePreviousWord _ _ else _] => destruct c eqn:E2
  end.
  { exfalso. apply Hnot. unfold deletingSequences, wordDeleteSequences.
    repeat (apply orb_true_iff in E2 as [E2|E2]);
      apply eqb_eq in E2; subst; cbn; tauto. }
  destruct ((len sequence <=? 32) && includes sequence ESC) eqn:E3.
  - apply andb_true_iff in E3 as [El Ei]. apply Z.leb_le in El.
    assert (Hno : includes sequence ESC = false \/ 32 < len sequence
                  \/ true = false -> False).
    { intros [H|[H|H]]; [congruence|lia|discriminate]. }
    destruct (firstDirection (tl (split ESC sequence))) as [[|]|].
    + split; [apply updateCursor_quiet, sameText_refl|].
      split; [unfold moveCursorToPreviousWord; now rewrite updateCursor_world|].
      intros H. now destruct (Hno H).
    + split; [apply updateCursor_quiet, sameText_refl|].
      split; [unfold moveCursorToNextWord; now rewrite updateCursor_world|].
      intros H. now destruct (Hno H).
    + split; [apply quiet_of_sameText, sameText_refl|split; reflexivity].
  - split; [apply quiet_of_sameText, sameText_refl|split; reflexivity].
Qed.

Lemma raw_listener_ignores_witness :
  let w := mount (lit "ab") (mkRegistry 1 []) in
  ~ In (lit "q") deletingSequences
  /\ handleRawInput (mkProps true true true) (lit "q") w = w.
Proof.
  intros w.
  assert (Hnot : ~ In (lit "q") deletingSequences).
  { cbv [deletingSequences wordDeleteSequences app In].
    intuition discriminate. }
  destruct (raw_listener_ignores (mkProps true true true) (lit "q") w Hnot)
    as [_ [_ H]].
  split; [exact Hnot|]. apply H. left. reflexivity.
Defined.

(** X17. With the input focused and the cursor inside the text, each of the
    twelve sequences of [wordLeftSequences] moves the cursor to
    [findPreviousWordBoundary] of the text and the cursor, and each of the
    twelve of [wordRightSequences] moves it to [findNextWordBoundary]; the
    text is not changed. *)
Theorem word_movement (props : Props) (sequence : jsstring) (w : World) :
  focus props = true -> cursorInRange w ->
  let text := valueRef w in
  let pos := caretOffsetRef w in
  let w' := handleRawInput props sequence w in
  (In sequence wordLeftSequences ->
   valueRef w' = text /\ caretOffsetRef w' = findPreviousWordBoundary text pos)
  /\ (In sequence wordRightSequences ->
      valueRef w' = text /\ caretOffsetRef w' = findNextWordBoundary text pos).
Proof.
  intros Hf Hr. cbv zeta. unfold cursorInRange in Hr. split; intros Hin.
  - assert (E : handleRawInput props sequence w = moveCursorToPreviousWord props w).
    { unfold handleRawInput. rewrite Hf.
      cbv [wordLeftSequences modifiedArrows flat_map app In] in Hin.
      repeat match goal with
             | H : _ \/ _ |- _ => destruct H as [<-|H]
             | H : False |- _ => destruct H
             end; reflexivity. }
    rewrite E. unfold moveCursorToPreviousWord. rewrite updateCursor_world.
    cbn [valueRef caretOffsetRef]. split; [reflexivity|].
    pose proof (findPreviousWordBoundary_range (valueRef w) (caretOffsetRef w)).
    apply clamp_id. lia.
  - assert (E : handleRawInput props sequence w = moveCursorToNextWord props w).
    { unfold handleRawInput. rewrite Hf.
      cbv [wordRightSequences modifiedArrows flat_map app In] in Hin.
      repeat match goal with
             | H : _ \/ _ |- _ => destruct H as [<-|H]
             | H : False |- _ => destruct H
             end; reflexivity. }
    rewrite E. unfold moveCursorToNextWord. rewrite updateCursor_world.
    cbn [valueRef caretOffsetRef]. split; [reflexivity|].
    pose proof (findNextWordBoundary_range (valueRef w) (caretOffsetRef w)).
    apply clamp_id. lia.
Qed.

(** ESC b at the end of ["hello world"] puts the cursor at 6. *)
Lemma word_movement_witness :
  let props := mkProps true true true in
  let w := mount (lit "hello world") (mkRegistry 1 []) in
  focus props = true /\ cursorInRange w /\ In [ESC; 98%N] wordLeftSequences
  /\ caretOffsetRef (handleRawInput props [ESC; 98%N] w) = 6.
Proof.
  intros props w.
  assert (Hr : cursorInRange w) by (vm_compute; split; discriminate).
  assert (Hin : In [ESC; 98%N] wordLeftSequences) by (left; reflexivity).
  destruct (word_movement props [ESC; 98%N] w eq_refl Hr) as [Hl _].
  destruct (Hl Hin) as [_ Hc].
  split; [reflexivity|]. split; [exact Hr|]. split; [exact Hin|exact Hc].
Defined.

(* ------------------------------------------------------------------ *)
(** ** What is drawn *)

Lemma skipn_head (s : jsstring) (i : Z) (c : N) :
  0 <= i < len s -> charAt s i = [c] ->
  skipn (Z.to_nat i) s = c :: skipn (Z.to_nat (i + 1)) s.
Proof.
  intros H Hc. unfold charAt in Hc.
  assert (E : (0 <=? i) && (i <? len s) = true).
  { apply andb_true_iff. split; [apply Z.leb_le | apply Z.ltb_lt]; lia. }
  rewrite E in Hc.
  replace (Z.to_nat (i + 1)) with (1 + Z.to_nat i)%nat by lia.
  rewrite <- skipn_skipn.
  destruct (skipn (Z.to_nat i) s) as [|x rest]; [discriminate|].
  simpl in Hc. injection Hc as ->. reflexivity.
Qed.

(** X18. Whatever the cursor offset, in the text or not, the three spans
    drawn are the display text split at the cursor clamped into it: before
    the end, the spans joined are the display text and the inverted span is
    the character under the cursor; at the end, the first span is the whole
    text, the inverted span is one blank and the last span is empty. The
    placeholder is drawn only for an empty display text, and only when it is
    itself not empty. *)
Theorem render_splits_text (placeholder : option jsstring) (w : World) :
  let text := displayValue w in
  let i := Z.min (Z.max 0 (caretOffsetRef w)) (len text) in
  match render placeholder w with
  | ShowPlaceholder p => text = [] /\ placeholder = Some p /\ p <> []
  | ShowLine beforeCursor cursorChar afterCursor =>
      len beforeCursor = i /\ len cursorChar = 1
      /\ (i < len text -> beforeCursor ++ cursorChar ++ afterCursor = text)
      /\ (i = len text ->
          beforeCursor = text /\ cursorChar = [32%N] /\ afterCursor = [])
  end.
Proof.
  cbv zeta.
  set (text := displayValue w).
  set (i := Z.min (Z.max 0 (caretOffsetRef w)) (len text)).
  pose proof (len_nonneg text) as Hn.
  assert (Hi : 0 <= i <= len text) by (unfold i; lia).
  assert (Hline :
    len (slice text 0 i) = i
    /\ len (match charAt text i with [] => [32%N] | c => c end) = 1
    /\ (i < len text ->
        slice text 0 i ++ (match charAt text i with [] => [32%N] | c => c end)
          ++ sliceFrom text (i + 1) = text)
    /\ (i = len text ->
        slice text 0 i = text
        /\ (match charAt text i with [] => [32%N] | c => c end) = [32%N]
        /\ sliceFrom text (i + 1) = [])).
  { rewrite slice_prefix by exact Hi.
    split; [now apply firstn_skipn_len|].
    split; [|split].
    - destruct (Z.ltb_spec i (len text)) as [Hlt|Hge].
      + destruct (charAt_inside text i) as [c ->]; [lia|reflexivity].
      + rewrite charAt_outside by (right; lia). reflexivity.
    - intros Hlt. destruct (charAt_inside text i) as [c Hc]; [lia|].
      rewrite Hc. rewrite sliceFrom_suffix by lia.
      cbn [app]. rewrite <- (skipn_head text i c) by (lia || assumption).
      apply firstn_skipn.
    - intros Heq. rewrite charAt_outside by (right; lia).
      rewrite sliceFrom_beyond by lia.
      split; [|split; reflexivity].
      rewrite Heq. unfold len. rewrite Nat2Z.id. apply firstn_all. }
  unfold render. fold text. fold i.
  destruct placeholder as [p|]; [|exact Hline].
  destruct ((len text =? 0) && (0 <? len p)) eqn:E; [|exact Hline].
  apply andb_true_iff in E as [E0 Ep].
  apply Z.eqb_eq in E0. apply Z.ltb_lt in Ep.
  split; [apply len_zero_nil; lia|]. split; [reflexivity|].
  intros ->. discriminate Ep.
Qed.

(* ------------------------------------------------------------------ *)
(** ** The buffer stays on one line *)

Lemma singleLine_parts (text : jsstring) (n : nat) :
  singleLine text -> singleLine (firstn n text) /\ singleLine (skipn n text).
Proof.
  unfold singleLine. intros H. rewrite <- (firstn_skipn n text) in H.
  now apply Forall_app in H.
Qed.

Lemma singleLine_app (a b : jsstring) :
  singleLine a -> singleLine b -> singleLine (a ++ b).
Proof. unfold singleLine. intros. apply Forall_app. now split. Qed.

Lemma singleLine_slice (text : jsstring) (a b : Z) :
  singleLine text -> singleLine (slice text a b).
Proof.
  intros H. unfold slice.
  apply singleLine_parts. now apply singleLine_parts.
Qed.

Lemma singleLine_sliceFrom (text : jsstring) (a : Z) :
  singleLine text -> singleLine (sliceFrom text a).
Proof. intros H. unfold sliceFrom. now apply singleLine_parts. Qed.

Lemma singleLine_digits (d : Decimal.uint) :
  singleLine (lit (NilEmpty.string_of_uint d)).
Proof.
  unfold singleLine.
  induction d; cbn [NilEmpty.string_of_uint lit list_ascii_of_string List.map];
    try constructor; try assumption; split; discriminate.
Qed.

Lemma singleLine_number (z : Z) : singleLine (numberToString z).
Proof.
  unfold numberToString, NilZero.string_of_int, NilZero.string_of_uint.
  destruct (Z.to_int z) as [d|d].
  - destruct d; try apply (singleLine_digits (Decimal.D0 _));
      try (repeat constructor; discriminate);
      match goal with |- singleLine (lit (NilEmpty.string_of_uint ?x)) =>
        apply (singleLine_digits x) end.
  - cbn [lit list_ascii_of_string List.map].
    constructor; [split; discriminate|].
    destruct d; try (repeat constructor; discriminate);
      match goal with |- Forall notBreak (List.map _ (list_ascii_of_string
                                            (NilEmpty.string_of_uint ?x))) =>
        apply (singleLine_digits x) end.
Qed.

Lemma singleLine_placeholder (pasteId lines : Z) :
  singleLine (pastePlaceholder pasteId lines).
Proof.
  unfold pastePlaceholder.
  repeat apply singleLine_app; try apply singleLine_number;
    repeat constructor; discriminate.
Qed.

(** X19. When [handleInsert] returns, with the cursor inside the text, what
    it put in the buffer is a text without CR and LF (the placeholder, or the
    text with its line breaks replaced), spliced in at the cursor: the text
    before the cursor and the text from the cursor on are as they were, and
    the cursor is right after the insertion. *)
Theorem insertion_is_spliced (env : Env) (props : Props) (text : jsstring)
        (isPaste : bool) (w w' : World) :
  cursorInRange w ->
  handleInsert env props text isPaste w = Done w' ->
  exists insertion,
    singleLine insertion
    /\ valueRef w' = firstn (Z.to_nat (caretOffsetRef w)) (valueRef w)
                       ++ insertion
                       ++ skipn (Z.to_nat (caretOffsetRef w)) (valueRef w)
    /\ caretOffsetRef w' = caretOffsetRef w + len insertion
    /\ len (valueRef w') = len (valueRef w) + len insertion.
Proof.
  intros Hr Hrun.
  assert (Hgen : forall insertion w0,
             valueRef w0 = valueRef w -> caretOffsetRef w0 = caretOffsetRef w ->
             singleLine insertion -> Done (inserted props insertion w0) = Done w' ->
             exists ins,
               singleLine ins
               /\ valueRef w' = firstn (Z.to_nat (caretOffsetRef w)) (valueRef w)
                                  ++ ins
                                  ++ skipn (Z.to_nat (caretOffsetRef w)) (valueRef w)
               /\ caretOffsetRef w' = caretOffsetRef w + len ins
               /\ len (valueRef w') = len (valueRef w) + len ins).
  { intros insertion w0 Hv Hc Hs Heq. injection Heq as <-.
    assert (Hr0 : cursorInRange w0) by (unfold cursorInRange; now rewrite Hv, Hc).
    rewrite (inserted_world props insertion w0 Hr0).
    cbn [valueRef caretOffsetRef]. rewrite Hv, Hc.
    exists insertion. split; [exact Hs|]. split; [reflexivity|].
    split; [reflexivity|].
    rewrite !len_app, firstn_skipn_len, len_skipn by exact Hr. lia. }
  unfold handleInsert in Hrun.
  destruct (isPaste || (5 <? len text)).
  - destruct (translatePasteForImages env text) as [translated|]; [|discriminate].
    destruct ((500 <? len text) || (5 <? countLines translated)).
    + destruct (allocatePaste env (registry w) translated) as [[i reg]|];
        [|discriminate].
      apply (Hgen (pastePlaceholder i (countLines translated)) (setRegistry reg w));
        try reflexivity; [apply singleLine_placeholder|exact Hrun].
    + apply (Hgen (sanitizeForDisplay translated) w); try reflexivity;
        [apply sanitizeForDisplay_singleLine|exact Hrun].
  - apply (Hgen (sanitizeForDisplay text) w); try reflexivity;
      [apply sanitizeForDisplay_singleLine|exact Hrun].
Qed.

(** Pasting two lines between ["a"] and ["b"] shows them joined by the
    glyph. *)
Lemma insertion_is_spliced_witness :
  let props := mkProps true true true in
  let w := setCaret 1 (mount (lit "ab") (mkRegistry 1 [])) in
  let w' := inserted props [120; RETURN_GLYPH; 121]%N w in
  cursorInRange w
  /\ handleInsert plainEnv props [120; 10; 121]%N true w = Done w'
  /\ len (valueRef w') = 5.
Proof.
  intros props w w'.
  assert (Hr : cursorInRange w) by (vm_compute; split; discriminate).
  assert (Hrun : handleInsert plainEnv props [120; 10; 121]%N true w = Done w')
    by reflexivity.
  destruct (insertion_is_spliced plainEnv props [120; 10; 121]%N true w w' Hr Hrun)
    as [ins [_ [_ [Hc Hl]]]].
  split; [exact Hr|]. split; [exact Hrun|].
  assert (Hins : len ins = 3).
  { change (caretOffsetRef w') with 4 in Hc. change (caretOffsetRef w) with 1 in Hc.
    lia. }
  rewrite Hl, Hins. reflexivity.
Defined.

Lemma updateValue_valueRef (props : Props) (v : jsstring) (c : Z) (w : World) :
  valueRef (updateValue props v (Some c) w) = v.
Proof. now rewrite updateValue_world. Qed.

Lemma singleLine_batchStep (b : Batch) (c : N) :
  singleLine (nextValue b) -> singleLine (nextValue (batchStep b c)).
Proof.
  intros H. unfold batchStep.
  destruct (N.eqb c 127 || N.eqb c 8).
  - destruct (0 <? nextPos b); cbn [nextValue]; [|exact H].
    unfold removeBefore.
    apply singleLine_app; [now apply singleLine_slice|now apply singleLine_sliceFrom].
  - destruct (32 <=? c)%N eqn:E; [|exact H]. cbn [nextValue].
    apply N.leb_le in E.
    apply singleLine_app; [now apply singleLine_slice|].
    apply singleLine_app; [|now apply singleLine_sliceFrom].
    constructor; [|constructor]. unfold notBreak, CR, LF. split; lia.
Qed.

Lemma singleLine_batch (input : jsstring) (key : Key) (w : World) :
  singleLine (valueRef w) -> singleLine (nextValue (batch input key w)).
Proof.
  intros H. unfold batch.
  assert (H0 : singleLine (nextValue (detachedBackspace input key
                 (mkBatch (valueRef w) (caretOffsetRef w) false)))).
  { unfold detachedBackspace.
    destruct (backspace key && negb (includes input 8 || includes input 127));
      [|exact H].
    destruct (0 <? _); cbn [nextValue nextPos]; [|exact H].
    unfold removeBefore.
    apply singleLine_app; [now apply singleLine_slice|now apply singleLine_sliceFrom]. }
  revert H0. generalize (detachedBackspace input key
                           (mkBatch (valueRef w) (caretOffsetRef w) false)).
  induction input as [|c rest IH]; intros b Hb; [exact Hb|].
  cbn [fold_left]. apply IH. now apply singleLine_batchStep.
Qed.

Lemma singleLine_deleteCharacter (props : Props) (forward : bool) (w : World) :
  singleLine (valueRef w) -> singleLine (valueRef (deleteCharacter props forward w)).
Proof.
  intros H. unfold deleteCharacter. destruct forward.
  - destruct (caretOffsetRef w <? len (valueRef w)); [|exact H].
    rewrite updateValue_valueRef.
    apply singleLine_app; [now apply singleLine_slice|now apply singleLine_sliceFrom].
  - destruct (0 <? caretOffsetRef w); [|exact H].
    rewrite updateValue_valueRef.
    apply singleLine_app; [now apply singleLine_slice|now apply singleLine_sliceFrom].
Qed.

Lemma singleLine_handleInsert (env : Env) (props : Props) (text : jsstring)
      (isPaste : bool) (w : World) :
  singleLine (valueRef w) ->
  singleLine (valueRef (worldOf (handleInsert env props text isPaste w))).
Proof.
  intros H.
  assert (Hin : forall insertion w0, valueRef w0 = valueRef w ->
             singleLine insertion ->
             singleLine (valueRef (updateValue props
               (slice (valueRef w) 0 (caretOffsetRef w) ++ insertion
                  ++ sliceFrom (valueRef w) (caretOffsetRef w))
               (Some (caretOffsetRef w + len insertion)) w0))).
  { intros insertion w0 _ Hi. rewrite updateValue_valueRef.
    apply singleLine_app; [now apply singleLine_slice|].
    apply singleLine_app; [exact Hi|now apply singleLine_sliceFrom]. }
  unfold handleInsert.
  destruct (isPaste || (5 <? len text)).
  - destruct (translatePasteForImages env text) as [translated|]; [|exact H].
    destruct ((500 <? len text) || (5 <? countLines translated)).
    + destruct (allocatePaste env (registry w) translated) as [[i reg]|]; [|exact H].
      apply (Hin _ (setRegistry reg w)); [reflexivity|apply singleLine_placeholder].
    + apply Hin; [reflexivity|apply sanitizeForDisplay_singleLine].
  - apply Hin; [reflexivity|apply sanitizeForDisplay_singleLine].
Qed.

Lemma singleLine_navigation (props : Props) (input : jsstring) (key : Key) (w : World) :
  singleLine (valueRef w) -> singleLine (valueRef (navigation props input key w)).
Proof.
  intros H. unfold navigation.
  destruct (return_ key); [now destruct (onSubmit props)|].
  destruct (leftArrow key); [now rewrite updateCursor_world|].
  destruct (rightArrow key); [now rewrite updateCursor_world|].
  destruct (ctrl key || meta key); [exact H|].
  assert (He : singleLine (valueRef (explicitKeys props key w))).
  { unfold explicitKeys.
    destruct (backspace key); [now apply singleLine_deleteCharacter|].
    destruct (delete key); [now apply singleLine_deleteCharacter|exact H]. }
  unfold batchPath.
  destruct (0 <? len input); [|exact He].
  destruct (processed (batch input key w)); [|exact He].
  rewrite updateValue_valueRef. now apply singleLine_batch.
Qed.

Lemma singleLine_pasteShortcuts (env : Env) (props : Props) (input : jsstring)
      (key : Key) (w : World) :
  singleLine (valueRef w) ->
  singleLine (valueRef (worldOf (pasteShortcuts env props input key w))).
Proof.
  intros H. unfold pasteShortcuts.
  destruct ((meta key && isV input) || (ctrl key && shift key && isV input)).
  - destruct (tryImportClipboardImageMac env) as [p|].
    + destruct (0 <? len p).
      * now apply singleLine_handleInsert.
      * now apply singleLine_navigation.
    + now apply singleLine_navigation.
  - now apply singleLine_navigation.
Qed.

(** X20. The component itself never puts a line break into the buffer: if
    the buffer holds no CR and no LF, it holds none after any input event,
    pasted or typed, returned or thrown, and none after any event of the raw
    listener. (A value supplied by the owner is taken as it is.) *)
Theorem buffer_stays_on_one_line (env : Env) (props : Props) (w : World) :
  singleLine (valueRef w) ->
  (forall input key,
      singleLine (valueRef (worldOf (inputHandler env props input key w))))
  /\ (forall sequence, singleLine (valueRef (handleRawInput props sequence w))).
Proof.
  intros H. split.
  - intros input key. unfold inputHandler.
    destruct (isPasted key); [|now apply singleLine_pasteShortcuts].
    destruct (translatePasteForImages env input) as [translated|]; [|exact H].
    match goal with
    | |- context [if 0 <? len ?t then _ else _] => destruct (0 <? len t)
    end.
    + now apply (singleLine_handleInsert env props _ true
                   (setLastPasteDetectedAt (dateNow env) w)).
    + now apply (singleLine_pasteShortcuts env props input key
                   (setLastPasteDetectedAt (dateNow env) w)).
  - intros sequence. unfold handleRawInput.
    destruct (negb (focus props)); [exact H|].
    destruct (len sequence =? 0); [exact H|].
    destruct (eqb sequence [127%N] || eqb sequence [8%N]);
      [now apply singleLine_deleteCharacter|].
    match goal with
    | |- context [if ?c then deletePreviousWord _ _ else _] => destruct c
    end.
    { unfold deletePreviousWord.
      match goal with |- context [if ?c then w else _] => destruct c end;
        [exact H|].
      rewrite updateValue_valueRef.
      apply singleLine_app; [now apply singleLine_slice|now apply singleLine_sliceFrom]. }
    destruct ((len sequence <=? 32) && includes sequence ESC); [|exact H].
    destruct (firstDirection (tl (split ESC sequence))) as [[|]|]; [| |exact H].
    + unfold moveCursorToPreviousWord. now rewrite updateCursor_world.
    + unfold moveCursorToNextWord. now rewrite updateCursor_world.
Qed.

Lemma buffer_stays_on_one_line_witness :
  let w := mount (lit "ab") (mkRegistry 1 []) in
  singleLine (valueRef w)
  /\ singleLine (valueRef (worldOf (inputHandler plainEnv (mkProps true true true)
                     [99; 13; 10; 100]%N
                     (mkKey true false false false false false false false false)
                     w))).
Proof.
  intros w.
  assert (H : singleLine (valueRef w)) by (repeat constructor; discriminate).
  destruct (buffer_stays_on_one_line plainEnv (mkProps true true true) w H)
    as [Hin _].
  split; [exact H|apply Hin].
Defined.

(* ------------------------------------------------------------------ *)
(** ** The model selector: the window follows the selection *)

Lemma findIndexFrom_spec {A : Type} (p : A -> bool) (l : list A) :
  forall i, 0 <= i ->
    let r := ModelSelector.findIndexFrom p l i in
    (r = -1 /\ forallb (fun x => negb (p x)) l = true)
    \/ (i <= r < i + Z.of_nat (List.length l)
        /\ exists x, nth_error l (Z.to_nat (r - i)) = Some x /\ p x = true
           /\ forallb (fun y => negb (p y)) (firstn (Z.to_nat (r - i)) l) = true).
Proof.
  induction l as [|x rest IH]; intros i Hi; cbv zeta.
  - left. split; reflexivity.
  - cbn [ModelSelector.findIndexFrom]. destruct (p x) eqn:E.
    + right. split; [cbn [List.length]; lia|].
      exists x. replace (i - i) with 0 by lia. cbn. auto.
    + destruct (IH (i + 1) ltac:(lia)) as [[Hr Hall]|[Hr [y [Hn [Hp Hb]]]]].
      * left. split; [exact Hr|]. cbn [forallb]. now rewrite E, Hall.
      * right. split; [cbn [List.length]; lia|].
        exists y.
        replace (Z.to_nat (ModelSelector.findIndexFrom p rest (i + 1) - i))
          with (S (Z.to_nat (ModelSelector.findIndexFrom p rest (i + 1) - (i + 1))))
          by lia.
        cbn [nth_error firstn forallb]. rewrite E. auto.
Qed.

(** [findIndex] gives -1 when no element passes, and otherwise the index of
    the first element that passes. *)
Lemma findIndex_range {A : Type} (p : A -> bool) (l : list A) :
  let r := ModelSelector.findIndex p l in
  (r = -1 /\ forallb (fun x => negb (p x)) l = true)
  \/ (0 <= r < Z.of_nat (List.length l)
      /\ exists x, ModelSelector.at_ l r = Some x /\ p x = true
         /\ forallb (fun y => negb (p y)) (firstn (Z.to_nat r) l) = true).
Proof.
  cbv zeta. unfold ModelSelector.findIndex.
  destruct (findIndexFrom_spec p l 0 ltac:(lia))
    as [H|[Hr [x [Hn [Hp Hb]]]]]; [now left|].
  right. split; [lia|]. exists x. unfold ModelSelector.at_.
  replace (ModelSelector.findIndexFrom p l 0 - 0)
    with (ModelSelector.findIndexFrom p l 0) in * by lia.
  assert (E : (ModelSelector.findIndexFrom p l 0 <? 0) = false)
    by (apply Z.ltb_ge; lia).
  rewrite E. auto.
Qed.

(** X21. The selection stays a row of the list and stays inside the window
    of ten rows: if it is so before a key, it is so after it, whatever the
    key, the payload and the loading flags. *)
Theorem selection_stays_visible (filteredModels : list ModelSelector.UiModel)
        (isLoading refreshing : bool) (input : jsstring)
        (key : ModelSelector.SelectorKey) (s : ModelSelector.Selector) :
  let total := ModelSelector.totalItems filteredModels in
  ModelSelector.selectionVisible total s ->
  ModelSelector.selectionVisible total
    (ModelSelector.selectorInput filteredModels isLoading refreshing input key s).
Proof.
  cbv zeta. unfold ModelSelector.selectionVisible, ModelSelector.selectorInput,
    ModelSelector.VISIBLE_COUNT.
  intros H.
  destruct (ModelSelector.escape key); [exact H|].
  destruct (eqb input [114%N] && negb refreshing); [exact H|].
  destruct (isLoading || refreshing
            || (ModelSelector.totalItems filteredModels =? 0)); [exact H|].
  destruct (ModelSelector.upArrow key).
  { cbv zeta.
    destruct (Z.ltb_spec (Z.max 0 (ModelSelector.selectedIndex s - 1))
                         (ModelSelector.startIndex s));
      cbn [ModelSelector.setStartIndex ModelSelector.setSelectedIndex
           ModelSelector.selectedIndex ModelSelector.startIndex]; lia. }
  destruct (ModelSelector.downArrow key).
  { cbv zeta.
    destruct (Z.leb_spec (ModelSelector.startIndex s + 10)
                (Z.min (ModelSelector.totalItems filteredModels - 1)
                       (ModelSelector.selectedIndex s + 1)));
      cbn [ModelSelector.setStartIndex ModelSelector.setSelectedIndex
           ModelSelector.selectedIndex ModelSelector.startIndex]; lia. }
  destruct (ModelSelector.return_ key); [|exact H].
  destruct (ModelSelector.at_ filteredModels (ModelSelector.selectedIndex s));
    exact H.
Qed.

Lemma selection_stays_visible_witness :
  let models := List.map (fun c => ModelSelector.plainModel [c])
                         (lit "abcdefghijkl") in
  let s := ModelSelector.mkSelector 9 0 true [] in
  let down := ModelSelector.mkSelectorKey false false true false in
  ModelSelector.selectionVisible 12 s
  /\ ModelSelector.selectionVisible 12
       (ModelSelector.selectorInput models false false [] down s)
  /\ ModelSelector.startIndex
       (ModelSelector.selectorInput models false false [] down s) = 1.
Proof.
  intros models s down.
  assert (H : ModelSelector.selectionVisible 12 s).
  { unfold ModelSelector.selectionVisible, ModelSelector.VISIBLE_COUNT.
    cbn. lia. }
  split; [exact H|]. split; [|reflexivity].
  exact (selection_stays_visible models false false [] down s H).
Defined.

Lemma at_arraySlice {A : Type} (l : list A) (start i : Z) :
  0 <= start -> 0 <= i < ModelSelector.VISIBLE_COUNT ->
  ModelSelector.at_
    (ModelSelector.arraySlice l start (start + ModelSelector.VISIBLE_COUNT)) i
  = ModelSelector.at_ l (start + i).
Proof.
  unfold ModelSelector.VISIBLE_COUNT, ModelSelector.at_, ModelSelector.arraySlice,
    relIndex.
  intros Hs Hi.
  assert (E1 : (i <? 0) = false) by (apply Z.ltb_ge; lia).
  assert (E2 : (start + i <? 0) = false) by (apply Z.ltb_ge; lia).
  assert (E3 : (start <? 0) = false) by (apply Z.ltb_ge; lia).
  assert (E4 : (start + 10 <? 0) = false) by (apply Z.ltb_ge; lia).
  rewrite E1, E2, E3, E4.
  set (n := Z.of_nat (List.length l)).
  destruct (Z.le_gt_cases n (start + i)) as [Hout|Hin].
  - (* beyond the end of the list on both sides *)
    rewrite (proj2 (nth_error_None l (Z.to_nat (start + i)))) by (unfold n in Hout; lia).
    apply nth_error_None. rewrite length_firstn, length_skipn. unfold n in *. lia.
  - rewrite nth_error_firstn.
    assert (Hlt : (Z.to_nat i <? Z.to_nat (Z.min (start + 10) n - Z.min start n))%nat
                  = true) by (apply Nat.ltb_lt; lia).
    rewrite Hlt, nth_error_skipn. f_equal. lia.
Qed.

(** X22. With the selection visible, Return hands to [onSelect] the id of
    the model drawn on the highlighted row of the window, once, unless the
    list is loading, refreshing or empty; the selection and the window are
    not moved. *)
Theorem return_selects_highlighted_row
        (filteredModels : list ModelSelector.UiModel) (input : jsstring)
        (s : ModelSelector.Selector) :
  let key := ModelSelector.mkSelectorKey false false false true in
  let total := ModelSelector.totalItems filteredModels in
  ModelSelector.selectionVisible total s -> input <> [114%N] ->
  exists row,
    ModelSelector.at_ (ModelSelector.visibleModels filteredModels s)
      (ModelSelector.selectedIndex s - ModelSelector.startIndex s) = Some row
    /\ ModelSelector.selectorInput filteredModels false false input key s
       = ModelSelector.selectorCall (ModelSelector.OnSelect (ModelSelector.id row)) s.
Proof.
  cbv zeta. unfold ModelSelector.selectionVisible. intros (H1 & H2 & H3) Hin.
  unfold ModelSelector.visibleModels.
  rewrite at_arraySlice by lia.
  replace (ModelSelector.startIndex s
           + (ModelSelector.selectedIndex s - ModelSelector.startIndex s))
    with (ModelSelector.selectedIndex s) by lia.
  unfold ModelSelector.totalItems in *.
  destruct (ModelSelector.at_ filteredModels (ModelSelector.selectedIndex s))
    as [row|] eqn:Hrow.
  - exists row. split; [reflexivity|].
    unfold ModelSelector.selectorInput, ModelSelector.totalItems.
    cbn [ModelSelector.escape ModelSelector.upArrow ModelSelector.downArrow
         ModelSelector.return_ negb orb].
    apply eqb_neq in Hin. rewrite Hin. cbn [andb].
    assert (E : (Z.of_nat (List.length filteredModels) =? 0) = false)
      by (apply Z.eqb_neq; lia).
    now rewrite E, Hrow.
  - exfalso. unfold ModelSelector.at_ in Hrow.
    assert (E : (ModelSelector.selectedIndex s <? 0) = false)
      by (apply Z.ltb_ge; lia).
    rewrite E in Hrow. apply nth_error_None in Hrow. lia.
Qed.

Lemma return_selects_highlighted_row_witness :
  let models := List.map (fun c => ModelSelector.plainModel [c])
                         (lit "abcdefghijkl") in
  let s := ModelSelector.mkSelector 11 2 true [] in
  let key := ModelSelector.mkSelectorKey false false false true in
  ModelSelector.selectionVisible 12 s /\ [] <> [114%N]
  /\ ModelSelector.selectorCalls
       (ModelSelector.selectorInput models false false [] key s)
     = [ModelSelector.OnSelect (lit "l")].
Proof.
  intros models s key.
  assert (H : ModelSelector.selectionVisible 12 s).
  { unfold ModelSelector.selectionVisible, ModelSelector.VISIBLE_COUNT. cbn. lia. }
  assert (Hn : @nil N <> [114%N]) by discriminate.
  destruct (return_selects_highlighted_row models [] s H Hn) as [row [Hrow Hrun]].
  split; [exact H|]. split; [exact Hn|].
  unfold key. rewrite Hrun. injection Hrow as <-. reflexivity.
Defined.

Lemma initialSelection_done (filteredModels : list ModelSelector.UiModel)
      (currentModel : option jsstring) (s : ModelSelector.Selector) :
  ModelSelector.initializedRef s = true ->
  ModelSelector.initialSelection filteredModels currentModel s = s.
Proof.
  intros H. unfold ModelSelector.initialSelection. now rewrite H.
Qed.

Lemma initialSelection_initial (filteredModels : list ModelSelector.UiModel)
      (currentModel : jsstring) :
  filteredModels <> [] ->
  let index :=
    ModelSelector.findIndex
      (fun m => eqb (ModelSelector.handle m) currentModel) filteredModels in
  ModelSelector.initialSelection filteredModels (Some currentModel)
    ModelSelector.initial
  = ModelSelector.mkSelector
      (if 0 <=? index then index else 0)
      (if (0 <=? index) && (9 <? index) then Z.max 0 (index - 5) else 0)
      true [].
Proof.
  intros Hne. cbv zeta.
  assert (Hlen : (0 <? Z.of_nat (List.length filteredModels)) = true).
  { apply Z.ltb_lt. destruct filteredModels; [contradiction|].
    cbn [List.length]. lia. }
  unfold ModelSelector.initialSelection.
  cbn [ModelSelector.initial ModelSelector.initializedRef negb andb].
  rewrite Hlen. cbv zeta. unfold ModelSelector.VISIBLE_COUNT.
  change (10 / 2) with 5. change (10 - 1) with 9.
  destruct (0 <=? _); [|reflexivity].
  destruct (9 <? _); reflexivity.
Qed.

(** X23. The effect that places the selection runs once: on a list that is
    not empty it marks the component initialised, and a second run changes
    nothing. From the first render it leaves the selection visible; when
    some model of the list has the current model's handle, the selection is
    on the first such model, and the window starts at 0 for the first ten
    rows and five rows above the selection after them; otherwise the
    selection stays on the first row. *)
Theorem initial_selection_is_visible
        (filteredModels : list ModelSelector.UiModel) (currentModel : jsstring) :
  filteredModels <> [] ->
  let total := ModelSelector.totalItems filteredModels in
  let s := ModelSelector.initialSelection filteredModels (Some currentModel)
             ModelSelector.initial in
  ModelSelector.selectionVisible total s
  /\ ModelSelector.initializedRef s = true
  /\ ModelSelector.initialSelection filteredModels (Some currentModel) s = s
  /\ (forall m, In m filteredModels -> ModelSelector.handle m = currentModel ->
      exists row,
        ModelSelector.at_ filteredModels (ModelSelector.selectedIndex s) = Some row
        /\ ModelSelector.handle row = currentModel
        /\ forallb (fun y => negb (eqb (ModelSelector.handle y) currentModel))
                   (firstn (Z.to_nat (ModelSelector.selectedIndex s)) filteredModels)
           = true
        /\ ModelSelector.startIndex s
           = if ModelSelector.selectedIndex s <=? 9 then 0
             else ModelSelector.selectedIndex s - 5)
  /\ ((forall m, In m filteredModels -> ModelSelector.handle m <> currentModel) ->
      ModelSelector.selectedIndex s = 0 /\ ModelSelector.startIndex s = 0).
Proof.
  intros Hne. cbv zeta.
  rewrite (initialSelection_initial filteredModels currentModel Hne). cbv zeta.
  assert (Hlen : 0 < Z.of_nat (List.length filteredModels)).
  { destruct filteredModels; [contradiction|]. cbn [List.length]. lia. }
  set (p := fun m => eqb (ModelSelector.handle m) currentModel).
  pose proof (findIndex_range p filteredModels) as Hfind. cbv zeta in Hfind.
  set (index := ModelSelector.findIndex p filteredModels) in *.
  split; [|split; [reflexivity|split; [now apply initialSelection_done|]]].
  - unfold ModelSelector.selectionVisible, ModelSelector.VISIBLE_COUNT,
      ModelSelector.totalItems.
    cbn [ModelSelector.selectedIndex ModelSelector.startIndex].
    destruct Hfind as [[Hnone _]|[Hrange _]].
    + rewrite Hnone. cbn. lia.
    + destruct (Z.leb_spec 0 index); [|lia].
      destruct (Z.ltb_spec 9 index); cbn [andb]; lia.
  - cbn [ModelSelector.selectedIndex ModelSelector.startIndex].
    destruct Hfind as [[Hnone Hall]|[Hrange [row [Hrow [Hp Hfirst]]]]].
    + split; [|intros _; rewrite Hnone; split; reflexivity].
      intros m Hin Hh. exfalso. rewrite forallb_forall in Hall.
      specialize (Hall m Hin). unfold p in Hall. rewrite Hh, eqb_refl in Hall.
      discriminate.
    + assert (E0 : (0 <=? index) = true) by (apply Z.leb_le; lia).
      rewrite E0. cbn [andb]. split.
      * intros m _ _. exists row. split; [exact Hrow|].
        split; [now apply eqb_eq|]. split; [exact Hfirst|].
        destruct (Z.ltb_spec 9 index); destruct (Z.leb_spec index 9); lia.
      * intros Hno. exfalso.
        assert (Hin : In row filteredModels).
        { unfold ModelSelector.at_ in Hrow.
          destruct (index <? 0); [discriminate|]. eapply nth_error_In, Hrow. }
        apply (Hno row Hin). now apply eqb_eq.
Qed.

Lemma initial_selection_is_visible_witness :
  let models := List.map (fun c => ModelSelector.plainModel [c])
                         (lit "abcdefghijkl") in
  let s := ModelSelector.initialSelection models (Some (lit "l"))
             ModelSelector.initial in
  models <> []
  /\ ModelSelector.selectionVisible 12 s
  /\ ModelSelector.selectedIndex s = 11 /\ ModelSelector.startIndex s = 6.
Proof.
  intros models s.
  assert (Hne : models <> []) by discriminate.
  destruct (initial_selection_is_visible models (lit "l") Hne) as [Hv _].
  split; [exact Hne|]. split; [exact Hv|]. split; reflexivity.
Defined.

(** X24. Escape calls [onCancel] whatever the flags. While the list is
    loading, refreshing or empty, no key moves the selection or the window
    and no key selects a model: the state is as before but for at most one
    call, which is [onCancel] for Escape and otherwise the refresh of the
    list, made for the payload [r] and never while a refresh is running. *)
Theorem selector_is_gated (filteredModels : list ModelSelector.UiModel)
        (isLoading refreshing : bool) (input : jsstring)
        (key : ModelSelector.SelectorKey) (s : ModelSelector.Selector) :
  let s' := ModelSelector.selectorInput filteredModels isLoading refreshing
              input key s in
  (ModelSelector.escape key = true ->
   s' = ModelSelector.selectorCall ModelSelector.OnCancel s)
  /\ (isLoading || refreshing
      || (ModelSelector.totalItems filteredModels =? 0) = true ->
      s' = s
      \/ s' = ModelSelector.selectorCall ModelSelector.OnCancel s
      \/ (s' = ModelSelector.selectorCall (ModelSelector.LoadModels true) s
          /\ refreshing = false /\ input = [114%N])).
Proof.
  cbv zeta. unfold ModelSelector.selectorInput. split.
  - intros ->. reflexivity.
  - intros Hg. destruct (ModelSelector.escape key); [right; now left|].
    destruct (eqb input [114%N]) eqn:Er; cbn [andb].
    + destruct refreshing; cbn [negb].
      * rewrite Hg. now left.
      * right. right. split; [reflexivity|]. split; [reflexivity|].
        now apply eqb_eq.
    + rewrite Hg. now left.
Qed.

Lemma selector_is_gated_witness :
  let up := ModelSelector.mkSelectorKey false true false false in
  let s := ModelSelector.mkSelector 3 0 true [] in
  let models := [ModelSelector.plainModel (lit "a")] in
  true || false || (ModelSelector.totalItems models =? 0) = true
  /\ ModelSelector.selectorInput models true false [] up s = s.
Proof.
  intros up s models.
  destruct (selector_is_gated models true false [] up s) as [_ H].
  split; [reflexivity|].
  destruct (H eq_refl) as [Hs|[Hc|[Hl _]]]; [exact Hs| |];
    [discriminate Hc|discriminate Hl].
Defined.

Lemma arraySlice_length {A : Type} (l : list A) (start : Z) :
  0 <= start <= Z.of_nat (List.length l) ->
  Z.of_nat (List.length
    (ModelSelector.arraySlice l start (start + ModelSelector.VISIBLE_COUNT)))
  = Z.min ModelSelector.VISIBLE_COUNT (Z.of_nat (List.length l) - start).
Proof.
  intros H. unfold ModelSelector.arraySlice, ModelSelector.VISIBLE_COUNT, relIndex.
  assert (E1 : (start <? 0) = false) by (apply Z.ltb_ge; lia).
  assert (E2 : (start + 10 <? 0) = false) by (apply Z.ltb_ge; lia).
  rewrite E1, E2, length_firstn, length_skipn. lia.
Qed.

(** X25. With the selection visible, the rows drawn and the two hints
    account for every model: the number above the window, the rows of the
    window and the number below it add up to the length of the list; the
    window holds ten rows, or all that are left from its start. *)
Theorem window_accounts_for_all (filteredModels : list ModelSelector.UiModel)
        (s : ModelSelector.Selector) :
  let total := ModelSelector.totalItems filteredModels in
  let count h := match h with Some n => n | None => 0 end in
  let rows := Z.of_nat (List.length (ModelSelector.visibleModels filteredModels s)) in
  ModelSelector.selectionVisible total s ->
  count (ModelSelector.moreAbove s) + rows
    + count (ModelSelector.moreBelow filteredModels s) = total
  /\ rows = Z.min 10 (total - ModelSelector.startIndex s)
  /\ 0 < rows.
Proof.
  cbv zeta. unfold ModelSelector.selectionVisible, ModelSelector.visibleModels,
    ModelSelector.moreAbove, ModelSelector.moreBelow, ModelSelector.totalItems.
  intros (H1 & H2 & H3).
  rewrite arraySlice_length by lia. unfold ModelSelector.VISIBLE_COUNT in *.
  destruct (Z.ltb_spec 0 (ModelSelector.startIndex s));
    destruct (Z.ltb_spec (ModelSelector.startIndex s + 10)
                (Z.of_nat (List.length filteredModels))); lia.
Qed.

Lemma window_accounts_for_all_witness :
  let models := List.map (fun c => ModelSelector.plainModel [c])
                         (lit "abcdefghijkl") in
  let s := ModelSelector.mkSelector 5 1 true [] in
  ModelSelector.selectionVisible (ModelSelector.totalItems models) s
  /\ ModelSelector.moreAbove s = Some 1
  /\ ModelSelector.moreBelow models s = Some 1
  /\ Z.of_nat (List.length (ModelSelector.visibleModels models s)) = 10.
Proof.
  intros models s.
  assert (H : ModelSelector.selectionVisible (ModelSelector.totalItems models) s).
  { unfold ModelSelector.selectionVisible, ModelSelector.VISIBLE_COUNT.
    cbn. lia. }
  destruct (window_accounts_for_all models s H) as [_ [Hrows _]].
  split; [exact H|]. split; [reflexivity|]. split; [reflexivity|].
  rewrite Hrows. reflexivity.
Defined.

(** X26. With the list loaded and the selection visible, the up arrow on
    the first row and the down arrow on the last row leave the state as it
    is; elsewhere they move the selection by exactly one row, and the window
    moves by one row exactly when the selection would leave it. *)
Theorem arrows_move_one_row (filteredModels : list ModelSelector.UiModel)
        (input : jsstring) (s : ModelSelector.Selector) :
  let total := ModelSelector.totalItems filteredModels in
  let up := ModelSelector.mkSelectorKey false true false false in
  let down := ModelSelector.mkSelectorKey false false true false in
  let press key := ModelSelector.selectorInput filteredModels false false input key s in
  ModelSelector.selectionVisible total s -> input <> [114%N] ->
  let sel := ModelSelector.selectedIndex s in
  let start := ModelSelector.startIndex s in
  (sel = 0 -> press up = s)
  /\ (sel = total - 1 -> press down = s)
  /\ (0 < sel ->
      ModelSelector.selectedIndex (press up) = sel - 1
      /\ ModelSelector.startIndex (press up)
         = if sel =? start then start - 1 else start)
  /\ (sel < total - 1 ->
      ModelSelector.selectedIndex (press down) = sel + 1
      /\ ModelSelector.startIndex (press down)
         = if sel =? start + 9 then start + 1 else start).
Proof.
  cbv zeta. unfold ModelSelector.selectionVisible, ModelSelector.VISIBLE_COUNT.
  intros (H1 & H2 & H3) Hin.
  apply eqb_neq in Hin.
  assert (E : (ModelSelector.totalItems filteredModels =? 0) = false)
    by (apply Z.eqb_neq; lia).
  unfold ModelSelector.selectorInput, ModelSelector.VISIBLE_COUNT.
  cbn [ModelSelector.escape ModelSelector.upArrow ModelSelector.downArrow
       ModelSelector.return_ negb orb].
  rewrite Hin, E. cbn [andb]. cbv zeta.
  destruct s as [sel start ini cs].
  cbn [ModelSelector.selectedIndex ModelSelector.startIndex] in *.
  unfold ModelSelector.setStartIndex, ModelSelector.setSelectedIndex.
  cbn [ModelSelector.selectedIndex ModelSelector.startIndex
       ModelSelector.initializedRef ModelSelector.selectorCalls].
  repeat split.
  - intros ->.
    destruct (Z.ltb_spec (Z.max 0 (0 - 1)) start); [lia|].
    f_equal.
  - intros ->.
    destruct (Z.leb_spec (start + 10)
                (Z.min (ModelSelector.totalItems filteredModels - 1)
                       (ModelSelector.totalItems filteredModels - 1 + 1))); [lia|].
    cbn [ModelSelector.selectedIndex]. f_equal. lia.
  - destruct (Z.ltb_spec (Z.max 0 (sel - 1)) start);
      cbn [ModelSelector.selectedIndex]; lia.
  - destruct (Z.ltb_spec (Z.max 0 (sel - 1)) start);
      destruct (Z.eqb_spec sel start); cbn [ModelSelector.startIndex]; lia.
  - destruct (Z.leb_spec (start + 10)
                (Z.min (ModelSelector.totalItems filteredModels - 1) (sel + 1)));
      cbn [ModelSelector.selectedIndex]; lia.
  - destruct (Z.leb_spec (start + 10)
                (Z.min (ModelSelector.totalItems filteredModels - 1) (sel + 1)));
      destruct (Z.eqb_spec sel (start + 9)); cbn [ModelSelector.startIndex]; lia.
Qed.

Lemma arrows_move_one_row_witness :
  let models := List.map (fun c => ModelSelector.plainModel [c])
                         (lit "abcdefghijkl") in
  let s := ModelSelector.mkSelector 11 2 true [] in
  let down := ModelSelector.mkSelectorKey false false true false in
  ModelSelector.selectionVisible (ModelSelector.totalItems models) s
  /\ [] <> [114%N]
  /\ ModelSelector.selectorInput models false false [] down s = s.
Proof.
  intros models s down.
  assert (H : ModelSelector.selectionVisible (ModelSelector.totalItems models) s).
  { unfold ModelSelector.selectionVisible, ModelSelector.VISIBLE_COUNT.
    cbn. lia. }
  assert (Hn : @nil N <> [114%N]) by discriminate.
  destruct (arrows_move_one_row models [] s H Hn) as [_ [Hd _]].
  split; [exact H|]. split; [exact Hn|]. apply Hd. reflexivity.
Defined.

(* ------------------------------------------------------------------ *)
(** ** Dynamic models: which handles are listed *)

Lemma mapGet_mapSet (key key' : jsstring) (v : CustomModels.MapValue)
      (m : CustomModels.JsMap) :
  CustomModels.mapGet key (CustomModels.mapSet key' v m)
  = if eqb key' key then Some v else CustomModels.mapGet key m.
Proof.
  induction m as [|[k x] rest IH]; cbn [CustomModels.mapSet CustomModels.mapGet].
  - reflexivity.
  - destruct (eqb k key') eqn:E1.
    + apply eqb_eq in E1. subst k. cbn [CustomModels.mapGet].
      now destruct (eqb key' key).
    + cbn [CustomModels.mapGet]. destruct (eqb k key) eqn:E2; [|exact IH].
      destruct (eqb key' key) eqn:E3; [|reflexivity].
      apply eqb_eq in E2, E3. subst. rewrite eqb_refl in E1. discriminate.
Qed.

(** An object is found in [configModels] only under the key of a model. *)
Definition objectsUnderKeys (keys : list jsstring) (m : CustomModels.JsMap) : Prop :=
  forall k c, CustomModels.mapGet k m = Some (CustomModels.VConf c) -> In k keys.

Lemma setModels_objects (entries : list (jsstring * CustomModels.ModelConf)) :
  forall keys n m,
    incl (List.map fst entries) keys -> objectsUnderKeys keys m ->
    objectsUnderKeys keys (CustomModels.setModels entries n m).
Proof.
  induction entries as [|[key conf] rest IH]; intros keys n m Hincl Hm; [exact Hm|].
  cbn [CustomModels.setModels]. apply IH.
  - intros k Hk. apply Hincl. now right.
  - intros k c. rewrite !mapGet_mapSet.
    destruct (eqb (CustomModels.SORT_PREFIX ++ key) k); [discriminate|].
    destruct (eqb key k) eqn:E; [|apply Hm].
    intros _. apply eqb_eq in E. subst k. apply Hincl. now left.
Qed.

Lemma setProviders_objects (providers : list (jsstring * CustomModels.Provider)) :
  forall keys m,
    incl (flat_map (fun kp => CustomModels.providerKeys (snd kp)) providers) keys ->
    objectsUnderKeys keys m ->
    objectsUnderKeys keys (CustomModels.setProviders providers m).
Proof.
  induction providers as [|[pk p] rest IH]; intros keys m Hincl Hm; [exact Hm|].
  cbn [CustomModels.setProviders]. cbn [flat_map snd] in Hincl.
  apply IH; [intros k Hk; apply Hincl, in_or_app; now right|].
  unfold CustomModels.providerKeys in Hincl.
  destruct (CustomModels.models p) as [entries|]; [|exact Hm].
  apply setModels_objects; [|exact Hm].
  intros k Hk. apply Hincl, in_or_app. now left.
Qed.

Lemma configModels_objects (config : option CustomModels.ProxyConfig) :
  objectsUnderKeys (CustomModels.modelKeys config) (CustomModels.configModels config).
Proof.
  unfold CustomModels.configModels, CustomModels.modelKeys.
  destruct config as [c|]; [|intros k c0 H; discriminate H].
  destruct (CustomModels.provider c) as [providers|];
    [|intros k c0 H; discriminate H].
  apply setProviders_objects; [apply incl_refl|].
  intros k c0 H. discriminate H.
Qed.

Lemma dynamicEntry_handle (cm : CustomModels.JsMap) (h : jsstring) (n : Z) :
  CustomModels.handle (fst (CustomModels.dynamicEntry cm h n)) = h
  /\ CustomModels.id (fst (CustomModels.dynamicEntry cm h n)) = h.
Proof. split; reflexivity. Qed.

Lemma collect_handles (cm : CustomModels.JsMap) (available known : list jsstring) :
  List.map (fun e => CustomModels.handle (fst e))
           (CustomModels.collect cm available known)
  = filter (fun h => negb (CustomModels.has known h)) available.
Proof.
  unfold CustomModels.collect.
  assert (H : forall acc,
             List.map (fun e => CustomModels.handle (fst e))
               (fold_left
                  (fun dynamicModels handle =>
                     if negb (CustomModels.has known handle)
                     then dynamicModels
                            ++ [CustomModels.dynamicEntry cm handle
                                  (Z.of_nat (List.length dynamicModels))]
                     else dynamicModels) available acc)
             = List.map (fun e => CustomModels.handle (fst e)) acc
                 ++ filter (fun h => negb (CustomModels.has known h)) available).
  { induction available as [|h rest IH]; intros acc; cbn [fold_left filter].
    - now rewrite app_nil_r.
    - rewrite IH. destruct (negb (CustomModels.has known h)); [|reflexivity].
      rewrite map_app. cbn [List.map]. now rewrite <- app_assoc. }
  apply (H []).
Qed.

Lemma numbered_fst (entries : list (CustomModels.UiModel * CustomModels.SortIndex)) :
  forall l, CustomModels.numbered entries = Some l ->
            List.map fst l = List.map fst entries.
Proof.
  induction entries as [|[m [n|]] rest IH]; intros l H;
    cbn [CustomModels.numbered] in H.
  - injection H as <-. reflexivity.
  - destruct (CustomModels.numbered rest) as [l'|]; [|discriminate].
    injection H as <-. cbn [List.map fst]. now rewrite (IH l').
  - discriminate.
Qed.

Lemma numbered_all (entries : list (CustomModels.UiModel * CustomModels.SortIndex)) :
  Forall (fun e => snd e <> CustomModels.SortObject) entries ->
  exists l, CustomModels.numbered entries = Some l.
Proof.
  induction 1 as [|[m [n|]] rest Hx _ [l IH]].
  - now exists [].
  - exists ((m, n) :: l). cbn [CustomModels.numbered]. now rewrite IH.
  - now contradiction Hx.
Qed.

Lemma insertEntry_perm (e : CustomModels.UiModel * Z) (l : list (CustomModels.UiModel * Z)) :
  Permutation (CustomModels.insertEntry e l) (e :: l).
Proof.
  induction l as [|x rest IH]; cbn [CustomModels.insertEntry]; [reflexivity|].
  destruct (snd e <=? snd x); [reflexivity|].
  rewrite IH. apply perm_swap.
Qed.

Lemma sortEntries_perm (l : list (CustomModels.UiModel * Z)) :
  Permutation (CustomModels.sortEntries l) l.
Proof.
  induction l as [|e rest IH]; cbn [CustomModels.sortEntries]; [reflexivity|].
  rewrite insertEntry_perm. now constructor.
Qed.

Lemma collect_numbers (config : option CustomModels.ProxyConfig)
      (available known : list jsstring) :
  CustomModels.plainKeys config ->
  Forall (fun e => snd e <> CustomModels.SortObject)
         (CustomModels.collect (CustomModels.configModels config) available known).
Proof.
  intros Hplain. unfold CustomModels.collect.
  assert (H : forall acc,
             Forall (fun e => snd e <> CustomModels.SortObject) acc ->
             Forall (fun e => snd e <> CustomModels.SortObject)
               (fold_left
                  (fun dynamicModels handle =>
                     if negb (CustomModels.has known handle)
                     then dynamicModels
                            ++ [CustomModels.dynamicEntry
                                  (CustomModels.configModels config) handle
                                  (Z.of_nat (List.length dynamicModels))]
                     else dynamicModels) available acc)).
  { induction available as [|h rest IH]; intros acc Hacc; [exact Hacc|].
    cbn [fold_left]. apply IH.
    destruct (negb (CustomModels.has known h)); [|exact Hacc].
    apply Forall_app. split; [exact Hacc|]. constructor; [|constructor].
    unfold CustomModels.dynamicEntry. cbn [snd].
    destruct (CustomModels.truthyConf _); [|discriminate].
    destruct (CustomModels.mapGet
                (CustomModels.SORT_PREFIX ++ CustomModels.modelKeyOf h)
                (CustomModels.configModels config)) as [[c|n]|] eqn:E;
      try discriminate.
    exfalso. apply configModels_objects in E.
    now apply (Hplain _ (CustomModels.modelKeyOf h) E). }
  apply H. constructor.
Qed.

(** The listing of [getDynamicModels], for every use below. *)
Lemma dynamic_listing (config : option CustomModels.ProxyConfig)
      (availableHandles knownHandles : list jsstring) :
  CustomModels.plainKeys config ->
  exists dynamicModels,
    CustomModels.getDynamicModels config availableHandles knownHandles
    = Some dynamicModels
    /\ Permutation (List.map CustomModels.handle dynamicModels)
         (filter (fun h => negb (CustomModels.has knownHandles h)) availableHandles).
Proof.
  intros Hplain. unfold CustomModels.getDynamicModels.
  set (entries := CustomModels.collect (CustomModels.configModels config)
                    availableHandles knownHandles).
  destruct (numbered_all entries (collect_numbers config availableHandles
                                    knownHandles Hplain)) as [l Hl].
  rewrite Hl. eexists. split; [reflexivity|].
  rewrite <- (collect_handles (CustomModels.configModels config)
                availableHandles knownHandles).
  fold entries. rewrite <- (map_map fst CustomModels.handle entries).
  apply Permutation_map. rewrite <- (numbered_fst entries l Hl).
  apply Permutation_map, sortEntries_perm.
Qed.

(** X27. When no model key of the configuration begins with
    [_sort_order_], [getDynamicModels] returns, and what it returns lists
    the available handles that are not known, each as often as it is
    available, in some order, and no other handle; every model returned has
    its handle as its id. *)
Theorem dynamic_models_are_the_unknown_handles
        (config : option CustomModels.ProxyConfig)
        (availableHandles knownHandles : list jsstring) :
  CustomModels.plainKeys config ->
  exists dynamicModels,
    CustomModels.getDynamicModels config availableHandles knownHandles
    = Some dynamicModels
    /\ Permutation (List.map CustomModels.handle dynamicModels)
         (filter (fun h => negb (CustomModels.has knownHandles h)) availableHandles)
    /\ Forall (fun m => CustomModels.id m = CustomModels.handle m) dynamicModels.
Proof.
  intros Hplain. unfold CustomModels.getDynamicModels.
  set (entries := CustomModels.collect (CustomModels.configModels config)
                    availableHandles knownHandles).
  destruct (numbered_all entries (collect_numbers config availableHandles
                                    knownHandles Hplain)) as [l Hl].
  rewrite Hl. eexists. split; [reflexivity|].
  pose proof (numbered_fst entries l Hl) as Hfst.
  assert (Hperm : Permutation (List.map fst (CustomModels.sortEntries l))
                              (List.map fst entries)).
  { rewrite <- Hfst. apply Permutation_map, sortEntries_perm. }
  split.
  - rewrite <- (collect_handles (CustomModels.configModels config)
                  availableHandles knownHandles).
    fold entries. rewrite <- (map_map fst CustomModels.handle entries).
    now apply Permutation_map.
  - assert (Hall : Forall (fun m => CustomModels.id m = CustomModels.handle m)
                          (List.map fst entries)).
    { unfold entries, CustomModels.collect.
      assert (H : forall available acc,
                 Forall (fun m => CustomModels.id m = CustomModels.handle m)
                        (List.map fst acc) ->
                 Forall (fun m => CustomModels.id m = CustomModels.handle m)
                   (List.map fst
                      (fold_left
                         (fun dynamicModels handle =>
                            if negb (CustomModels.has knownHandles handle)
                            then dynamicModels
                                   ++ [CustomModels.dynamicEntry
                                         (CustomModels.configModels config) handle
                                         (Z.of_nat (List.length dynamicModels))]
                            else dynamicModels) available acc))).
      { induction available as [|h rest IH]; intros acc Hacc; [exact Hacc|].
        cbn [fold_left]. apply IH.
        destruct (negb (CustomModels.has knownHandles h)); [|exact Hacc].
        rewrite map_app. apply Forall_app. split; [exact Hacc|].
        constructor; [reflexivity|constructor]. }
      apply H. constructor. }
    rewrite Forall_forall in *. intros m Hm. apply Hall.
    eapply Permutation_in; [exact Hperm|exact Hm].
Qed.

Lemma dynamic_models_are_the_unknown_handles_witness :
  let gpt := CustomModels.mkModelConf (Some (lit "GPT")) (Some 8000) None None None in
  let config := Some (CustomModels.mkProxyConfig
                        (Some [(lit "p", CustomModels.mkProvider
                                           (Some [(lit "gpt", gpt)]))])) in
  CustomModels.plainKeys config
  /\ exists dynamicModels,
      CustomModels.getDynamicModels config [lit "q/x"; lit "k"; lit "p/gpt"] [lit "k"]
      = Some dynamicModels
      /\ List.map CustomModels.handle dynamicModels = [lit "p/gpt"; lit "q/x"]
      /\ List.map CustomModels.label dynamicModels = [lit "GPT"; lit "x"].
Proof.
  intros gpt config.
  assert (Hplain : CustomModels.plainKeys config).
  { intros k rest [<-|[]]. discriminate. }
  destruct (dynamic_models_are_the_unknown_handles config
              [lit "q/x"; lit "k"; lit "p/gpt"] [lit "k"] Hplain)
    as [dynamicModels [Hrun _]].
  split; [exact Hplain|]. exists dynamicModels. split; [exact Hrun|].
  assert (E : Some dynamicModels
              = CustomModels.getDynamicModels config
                  [lit "q/x"; lit "k"; lit "p/gpt"] [lit "k"])
    by (symmetry; exact Hrun).
  vm_compute in E. injection E as ->. split; reflexivity.
Defined.

(* ------------------------------------------------------------------ *)
(** ** Dynamic models without a configuration *)

Lemma collect_unconfigured (available known : list jsstring) :
  CustomModels.collect [] available known
  = List.map (fun e => (fst e, CustomModels.SortNum (snd e)))
      (CustomModels.unconfiguredFrom 0
         (filter (fun h => negb (CustomModels.has known h)) available)).
Proof.
  unfold CustomModels.collect.
  assert (H : forall acc,
             fold_left
               (fun dynamicModels handle =>
                  if negb (CustomModels.has known handle)
                  then dynamicModels
                         ++ [CustomModels.dynamicEntry [] handle
                               (Z.of_nat (List.length dynamicModels))]
                  else dynamicModels) available acc
             = acc ++ List.map (fun e => (fst e, CustomModels.SortNum (snd e)))
                       (CustomModels.unconfiguredFrom (Z.of_nat (List.length acc))
                          (filter (fun h => negb (CustomModels.has known h))
                                  available))).
  { induction available as [|h rest IH]; intros acc; cbn [fold_left filter].
    - cbn. now rewrite app_nil_r.
    - destruct (negb (CustomModels.has known h)); [|apply IH].
      rewrite IH, <- app_assoc. f_equal.
      cbn [CustomModels.unconfiguredFrom List.map app fst snd].
      rewrite length_app. cbn [List.length].
      replace (Z.of_nat (List.length acc + 1)) with (Z.of_nat (List.length acc) + 1)
        by lia.
      reflexivity. }
  apply (H []).
Qed.

Lemma numbered_of_numbers (l : list (CustomModels.UiModel * Z)) :
  CustomModels.numbered
    (List.map (fun e => (fst e, CustomModels.SortNum (snd e))) l) = Some l.
Proof.
  induction l as [|[m n] rest IH]; [reflexivity|].
  cbn [List.map fst snd CustomModels.numbered]. now rewrite IH.
Qed.

Lemma sortEntries_unconfigured (handles : list jsstring) :
  forall n, CustomModels.sortEntries (CustomModels.unconfiguredFrom n handles)
            = CustomModels.unconfiguredFrom n handles.
Proof.
  induction handles as [|h rest IH]; intros n; [reflexivity|].
  cbn [CustomModels.unconfiguredFrom CustomModels.sortEntries]. rewrite IH.
  destruct rest as [|h' rest']; [reflexivity|].
  cbn [CustomModels.unconfiguredFrom CustomModels.insertEntry snd].
  assert (E : (9999 + n <=? 9999 + (n + 1)) = true) by (apply Z.leb_le; lia).
  now rewrite E.
Qed.

Lemma unconfiguredFrom_models (handles : list jsstring) :
  forall n, List.map fst (CustomModels.unconfiguredFrom n handles)
            = List.map CustomModels.unconfiguredModel handles.
Proof.
  induction handles as [|h rest IH]; intros n; [reflexivity|].
  cbn [CustomModels.unconfiguredFrom List.map fst]. now rewrite IH.
Qed.

(** X28. Without a configuration (the file is missing or cannot be read, or
    it names no provider), [getDynamicModels] returns the available handles
    that are not known, in the order of the set: each with the second
    segment of the handle as its label, or the whole handle when it has no
    slash, with a description made from the first segment, and with no
    update arguments. *)
Theorem dynamic_models_without_configuration
        (availableHandles knownHandles : list jsstring) :
  let listed :=
    List.map CustomModels.unconfiguredModel
      (filter (fun h => negb (CustomModels.has knownHandles h)) availableHandles) in
  CustomModels.getDynamicModels None availableHandles knownHandles = Some listed
  /\ CustomModels.getDynamicModels (Some (CustomModels.mkProxyConfig None))
       availableHandles knownHandles = Some listed
  /\ CustomModels.getDynamicModels (Some (CustomModels.mkProxyConfig (Some [])))
       availableHandles knownHandles = Some listed.
Proof.
  cbv zeta.
  assert (H : forall config, CustomModels.configModels config = [] ->
             CustomModels.getDynamicModels config availableHandles knownHandles
             = Some (List.map CustomModels.unconfiguredModel
                       (filter (fun h => negb (CustomModels.has knownHandles h))
                               availableHandles))).
  { intros config Hc. unfold CustomModels.getDynamicModels.
    rewrite Hc, collect_unconfigured, numbered_of_numbers.
    now rewrite sortEntries_unconfigured, unconfiguredFrom_models. }
  repeat split; apply H; reflexivity.
Qed.

(* ------------------------------------------------------------------ *)
(** ** The list of the selector covers the available models *)

Lemma has_In (handles : list jsstring) (h : jsstring) :
  CustomModels.has handles h = true <-> In h handles.
Proof. unfold CustomModels.has. apply existsb_eqb_In. Qed.

(** X29. Once the handles are loaded, and when no model key of the
    configuration begins with [_sort_order_], the list of the selector is
    the known models that are available, in the order of the table, followed
    by the dynamic models; a handle is the handle of some listed model
    exactly when it is available. When the loader failed the list is the
    whole table, and before it answered the list is empty. *)
Theorem listed_models_cover_available
        (config : option CustomModels.ProxyConfig)
        (typedModels : list ModelSelector.UiModel) (handles : list jsstring) :
  CustomModels.plainKeys config ->
  (exists dynamicModels,
      ModelSelector.filteredModelsOf config typedModels (ModelSelector.Loaded handles)
      = Some (filter (fun m => CustomModels.has handles (ModelSelector.handle m))
                     typedModels ++ dynamicModels)
      /\ forall h,
          In h handles
          <-> exists m,
              In m (filter (fun m => CustomModels.has handles (ModelSelector.handle m))
                           typedModels ++ dynamicModels)
              /\ ModelSelector.handle m = h)
  /\ ModelSelector.filteredModelsOf config typedModels ModelSelector.Failed
     = Some typedModels
  /\ ModelSelector.filteredModelsOf config typedModels ModelSelector.NotLoaded
     = Some [].
Proof.
  intros Hplain. split; [|split; reflexivity].
  unfold ModelSelector.filteredModelsOf.
  set (knownModels := filter (fun m => CustomModels.has handles (ModelSelector.handle m))
                             typedModels).
  destruct (dynamic_listing config handles
              (List.map ModelSelector.handle knownModels) Hplain)
    as [dynamicModels [Hrun Hperm]].
  exists dynamicModels. rewrite Hrun. split; [reflexivity|].
  intros h. split.
  - intros Hin.
    destruct (CustomModels.has (List.map ModelSelector.handle knownModels) h) eqn:Ek.
    + apply has_In, in_map_iff in Ek as [m [Hm Hk]].
      exists m. split; [apply in_or_app; now left|exact Hm].
    + assert (Hf : In h (filter (fun h0 => negb (CustomModels.has
                           (List.map ModelSelector.handle knownModels) h0)) handles)).
      { apply filter_In. split; [exact Hin|]. now rewrite Ek. }
      apply (Permutation_in _ (Permutation_sym Hperm)) in Hf.
      apply in_map_iff in Hf as [m [Hm Hd]].
      exists m. split; [apply in_or_app; now right|exact Hm].
  - intros [m [Hm Hh]]. apply in_app_or in Hm as [Hk|Hd].
    + unfold knownModels in Hk. apply filter_In in Hk as [_ Hk].
      apply has_In in Hk. now rewrite <- Hh.
    + assert (Hf : In h (List.map CustomModels.handle dynamicModels)).
      { apply in_map_iff. exists m. split; [exact Hh|exact Hd]. }
      apply (Permutation_in _ Hperm) in Hf. now apply filter_In in Hf as [Hf _].
Qed.

Lemma listed_models_cover_available_witness :
  let table := [ModelSelector.plainModel (lit "a/m"); ModelSelector.plainModel (lit "b/n")] in
  CustomModels.plainKeys None
  /\ ModelSelector.filteredModelsOf None table (ModelSelector.Loaded [lit "c/o"; lit "b/n"])
     = Some [ModelSelector.plainModel (lit "b/n");
             CustomModels.unconfiguredModel (lit "c/o")].
Proof.
  intros table.
  assert (Hplain : CustomModels.plainKeys None) by (intros k rest []).
  destruct (listed_models_cover_available None table [lit "c/o"; lit "b/n"] Hplain)
    as [[dynamicModels [Hrun _]] _].
  split; [exact Hplain|].
  rewrite Hrun. symmetry in Hrun. vm_compute in Hrun. injection Hrun as Hd.
  rewrite Hd. reflexivity.
Defined.

(* ------------------------------------------------------------------ *)
(** ** Dynamic models: the configured ones come first *)

(** What [configModels] holds once the keys [done] were entered: numbers sit
    under prefixed keys only and are sort orders below 9999, and each key
    entered has its object and its sort order. *)
Definition entered (done : list jsstring) (m : CustomModels.JsMap) : Prop :=
  (forall k n, CustomModels.mapGet k m = Some (CustomModels.VNum n) ->
               (exists k', k = CustomModels.SORT_PREFIX ++ k') /\ 0 <= n < 9999)
  /\ (forall k, In k done ->
                (exists c, CustomModels.mapGet k m = Some (CustomModels.VConf c))
                /\ (exists n, CustomModels.mapGet (CustomModels.SORT_PREFIX ++ k) m
                              = Some (CustomModels.VNum n))).

Lemma eqb_prefixed (k k' : jsstring) :
  eqb (CustomModels.SORT_PREFIX ++ k) (CustomModels.SORT_PREFIX ++ k') = eqb k k'.
Proof.
  destruct (eqb k k') eqn:E.
  - apply eqb_eq in E. subst. apply eqb_refl.
  - apply eqb_neq. intros H. apply app_inv_head in H. apply eqb_neq in E.
    contradiction.
Qed.

Lemma eqb_plain (k k' : jsstring) :
  CustomModels.plainKey k ->
  eqb (CustomModels.SORT_PREFIX ++ k') k = false
  /\ eqb k (CustomModels.SORT_PREFIX ++ k') = false.
Proof.
  intros H. split; apply eqb_neq; intros E; apply (H k'); congruence.
Qed.

Lemma setModels_entered (entries : list (jsstring * CustomModels.ModelConf)) :
  forall done i m,
    0 <= i -> i + Z.of_nat (List.length entries) <= 9999 ->
    Forall CustomModels.plainKey (done ++ List.map fst entries) ->
    entered done m ->
    entered (done ++ List.map fst entries) (CustomModels.setModels entries i m).
Proof.
  induction entries as [|[key conf] rest IH]; intros done i m Hi Hb Hplain Hm.
  - cbn [List.map]. now rewrite app_nil_r.
  - cbn [CustomModels.setModels List.map fst List.length] in *.
    replace (done ++ key :: List.map fst rest)
      with ((done ++ [key]) ++ List.map fst rest) in * by now rewrite <- app_assoc.
    apply IH; [lia|lia|exact Hplain|].
    assert (Hkey : CustomModels.plainKey key).
    { rewrite Forall_forall in Hplain. apply Hplain.
      apply in_or_app. left. apply in_or_app. right. now left. }
    destruct Hm as [Hnum Hdone]. split.
    + intros k n. rewrite !mapGet_mapSet.
      destruct (eqb (CustomModels.SORT_PREFIX ++ key) k) eqn:E1.
      * intros H. injection H as <-. apply eqb_eq in E1.
        split; [now exists key|lia].
      * destruct (eqb key k); [discriminate|apply Hnum].
    + intros k Hk. rewrite !mapGet_mapSet.
      assert (Hpk : CustomModels.plainKey k).
      { rewrite Forall_forall in Hplain. apply Hplain. apply in_or_app. now left. }
      destruct (eqb_plain k key Hpk) as [E1 _]. rewrite E1.
      rewrite eqb_prefixed.
      destruct (eqb_plain key k Hkey) as [_ E2]. rewrite E2.
      destruct (eqb key k) eqn:E.
      * split; eauto.
      * apply in_app_or in Hk as [Hk|[Hk|[]]].
        -- now apply Hdone.
        -- subst k. rewrite eqb_refl in E. discriminate.
Qed.

Lemma setProviders_entered (providers : list (jsstring * CustomModels.Provider)) :
  forall done m,
    Forall (fun kp => Z.of_nat (List.length (CustomModels.providerKeys (snd kp)))
                      < 10000) providers ->
    Forall CustomModels.plainKey
           (done ++ flat_map (fun kp => CustomModels.providerKeys (snd kp)) providers) ->
    entered done m ->
    entered (done ++ flat_map (fun kp => CustomModels.providerKeys (snd kp)) providers)
            (CustomModels.setProviders providers m).
Proof.
  induction providers as [|[pk p] rest IH]; intros done m Hsmall Hplain Hm.
  - cbn [flat_map]. now rewrite app_nil_r.
  - cbn [CustomModels.setProviders flat_map snd] in *.
    rewrite app_assoc in *. inversion Hsmall as [|? ? Hp Hrest]; subst.
    apply IH; [exact Hrest|exact Hplain|].
    cbn [snd] in Hp. unfold CustomModels.providerKeys in *.
    destruct (CustomModels.models p) as [entries|].
    + apply setModels_entered; [lia| |
        |exact Hm].
      * rewrite length_map in Hp. lia.
      * apply Forall_app in Hplain. apply Hplain.
    + now rewrite app_nil_r.
Qed.

Lemma configModels_entered (config : option CustomModels.ProxyConfig) :
  CustomModels.plainKeys config -> CustomModels.smallProviders config ->
  entered (CustomModels.modelKeys config) (CustomModels.configModels config).
Proof.
  intros Hplain Hsmall.
  assert (Hempty : entered [] []).
  { split; [intros k n H; discriminate H|intros k []]. }
  unfold CustomModels.configModels, CustomModels.modelKeys,
    CustomModels.smallProviders, CustomModels.plainKeys in *.
  destruct config as [c|]; [|exact Hempty].
  destruct (CustomModels.provider c) as [providers|] eqn:Ep; [|exact Hempty].
  cbn [CustomModels.modelKeys] in Hplain.
  apply (setProviders_entered providers [] [] Hsmall); [|exact Hempty].
  cbn [app]. apply Forall_forall. intros k Hk rest. apply Hplain.
  unfold CustomModels.modelKeys. now rewrite Ep.
Qed.

Lemma insertEntry_sorted (e : CustomModels.UiModel * Z)
      (l : list (CustomModels.UiModel * Z)) :
  StronglySorted (fun a b => snd a <= snd b) l ->
  StronglySorted (fun a b => snd a <= snd b) (CustomModels.insertEntry e l).
Proof.
  induction 1 as [|x rest Hs IH Hx]; cbn [CustomModels.insertEntry].
  - repeat constructor.
  - destruct (Z.leb_spec (snd e) (snd x)) as [Hle|Hgt].
    + constructor; [now constructor|].
      constructor; [exact Hle|].
      eapply Forall_impl; [|exact Hx]. intros a Ha. cbn beta in *. lia.
    + constructor; [exact IH|].
      apply (Permutation_Forall (Permutation_sym (insertEntry_perm e rest))).
      constructor; [lia|exact Hx].
Qed.

Lemma sortEntries_sorted (l : list (CustomModels.UiModel * Z)) :
  StronglySorted (fun a b => snd a <= snd b) (CustomModels.sortEntries l).
Proof.
  induction l as [|e rest IH]; cbn [CustomModels.sortEntries]; [constructor|].
  now apply insertEntry_sorted.
Qed.

Lemma sorted_later {A : Type} (R : A -> A -> Prop) (l1 l2 : list A) (x : A) :
  StronglySorted R (l1 ++ x :: l2) -> Forall (R x) l2.
Proof.
  induction l1 as [|y rest IH]; cbn [app]; intros H;
    apply StronglySorted_inv in H as [Hs Hf]; [exact Hf|now apply IH].
Qed.

(** The sort index of an entry tells whether its model is configured. *)
Definition classified (config : option CustomModels.ProxyConfig)
           (e : CustomModels.UiModel * Z) : Prop :=
  (CustomModels.configured config (fst e) /\ snd e < 9999)
  \/ (~ CustomModels.configured config (fst e) /\ 9999 <= snd e).

Lemma dynamicEntry_classified (config : option CustomModels.ProxyConfig)
      (h : jsstring) (count : Z) :
  CustomModels.plainKeys config -> CustomModels.smallProviders config ->
  CustomModels.plainKey (CustomModels.modelKeyOf h) -> 0 <= count ->
  exists n,
    snd (CustomModels.dynamicEntry (CustomModels.configModels config) h count)
    = CustomModels.SortNum n
    /\ classified config
         (fst (CustomModels.dynamicEntry (CustomModels.configModels config) h count),
          n).
Proof.
  intros Hplain Hsmall Hkey Hcount.
  destruct (configModels_entered config Hplain Hsmall) as [Hnum Hdone].
  pose proof (configModels_objects config) as Hobj.
  unfold classified, CustomModels.configured. cbn [fst snd].
  change (CustomModels.handle
            (fst (CustomModels.dynamicEntry (CustomModels.configModels config) h count)))
    with h.
  unfold CustomModels.dynamicEntry. cbn [snd].
  set (k := CustomModels.modelKeyOf h) in *.
  destruct (in_dec (list_eq_dec N.eq_dec) k (CustomModels.modelKeys config))
    as [Hin|Hout].
  - destruct (Hdone k Hin) as [[c Hc] [n Hn]].
    rewrite Hc, Hn. cbn [CustomModels.truthyConf].
    exists n. split; [reflexivity|]. left. split; [exact Hin|].
    apply Hnum in Hn. lia.
  - assert (Hnone : CustomModels.mapGet k (CustomModels.configModels config) = None).
    { destruct (CustomModels.mapGet k (CustomModels.configModels config))
        as [[c|n]|] eqn:E; [| |reflexivity].
      - exfalso. apply Hout. eapply Hobj, E.
      - exfalso. apply Hnum in E as [[k' Hk'] _]. now apply (Hkey k'). }
    rewrite Hnone. cbn [CustomModels.truthyConf].
    exists (9999 + count). split; [reflexivity|]. right. split; [exact Hout|lia].
Qed.

Lemma collect_classified (config : option CustomModels.ProxyConfig)
      (available known : list jsstring) :
  CustomModels.plainKeys config -> CustomModels.smallProviders config ->
  Forall (fun h => CustomModels.plainKey (CustomModels.modelKeyOf h)) available ->
  Forall (fun e => exists n, snd e = CustomModels.SortNum n
                             /\ classified config (fst e, n))
         (CustomModels.collect (CustomModels.configModels config) available known).
Proof.
  intros Hplain Hsmall Hav. unfold CustomModels.collect.
  assert (H : forall acc,
             Forall (fun e => exists n, snd e = CustomModels.SortNum n
                                        /\ classified config (fst e, n)) acc ->
             Forall (fun e => exists n, snd e = CustomModels.SortNum n
                                        /\ classified config (fst e, n))
               (fold_left
                  (fun dynamicModels handle =>
                     if negb (CustomModels.has known handle)
                     then dynamicModels
                            ++ [CustomModels.dynamicEntry
                                  (CustomModels.configModels config) handle
                                  (Z.of_nat (List.length dynamicModels))]
                     else dynamicModels) available acc)).
  { induction Hav as [|h rest Hh _ IH]; intros acc Hacc; [exact Hacc|].
    cbn [fold_left]. apply IH.
    destruct (negb (CustomModels.has known h)); [|exact Hacc].
    apply Forall_app. split; [exact Hacc|]. constructor; [|constructor].
    apply dynamicEntry_classified; try assumption. lia. }
  apply H. constructor.
Qed.

Lemma numbered_Forall (P : CustomModels.UiModel * Z -> Prop)
      (entries : list (CustomModels.UiModel * CustomModels.SortIndex)) :
  forall l,
    CustomModels.numbered entries = Some l ->
    Forall (fun e => exists n, snd e = CustomModels.SortNum n /\ P (fst e, n))
           entries ->
    Forall P l.
Proof.
  induction entries as [|[m [x|]] rest IH]; intros l Hl Hall;
    cbn [CustomModels.numbered] in Hl.
  - injection Hl as <-. constructor.
  - destruct (CustomModels.numbered rest) as [l'|]; [|discriminate].
    injection Hl as <-. inversion Hall as [|? ? [n [Hn Hp]] Hrest]; subst.
    cbn [fst snd] in *. injection Hn as <-.
    constructor; [exact Hp|now apply IH].
  - discriminate.
Qed.

(** X30. When no model key of the configuration and no key of an available
    handle begins with [_sort_order_], and no provider lists 10000 models or
    more, the models that the configuration knows come first in what
    [getDynamicModels] returns: no model without a configuration stands
    before a model with one. *)
Theorem configured_models_come_first
        (config : option CustomModels.ProxyConfig)
        (availableHandles knownHandles : list jsstring)
        (dynamicModels : list CustomModels.UiModel) :
  CustomModels.plainKeys config -> CustomModels.smallProviders config ->
  Forall (fun h => CustomModels.plainKey (CustomModels.modelKeyOf h))
         availableHandles ->
  CustomModels.getDynamicModels config availableHandles knownHandles
  = Some dynamicModels ->
  forall before m1 between m2 after,
    dynamicModels = before ++ m1 :: between ++ m2 :: after ->
    CustomModels.configured config m2 -> CustomModels.configured config m1.
Proof.
  intros Hplain Hsmall Hav Hrun before m1 between m2 after Hsplit Hc2.
  unfold CustomModels.getDynamicModels in Hrun.
  destruct (CustomModels.numbered _) as [l|] eqn:Hl; [|discriminate].
  injection Hrun as <-.
  pose proof (numbered_Forall (classified config) _ l Hl
                (collect_classified config availableHandles knownHandles
                   Hplain Hsmall Hav)) as Hcl.
  apply (Permutation_Forall (Permutation_sym (sortEntries_perm l))) in Hcl.
  pose proof (sortEntries_sorted l) as Hsorted.
  set (sorted := CustomModels.sortEntries l) in *.
  apply map_eq_app in Hsplit as (s1 & s2 & Hs & _ & Hrest).
  destruct s2 as [|e1 s2]; [discriminate|]. cbn [List.map] in Hrest.
  injection Hrest as He1 Hrest.
  apply map_eq_app in Hrest as (s3 & s4 & Hs2 & _ & Hrest).
  destruct s4 as [|e2 s4]; [discriminate|]. cbn [List.map] in Hrest.
  injection Hrest as He2 _.
  subst s2. rewrite Hs in Hsorted, Hcl.
  pose proof (sorted_later _ _ _ _ Hsorted) as Hlater.
  rewrite Forall_forall in Hlater, Hcl.
  assert (Hle : snd e1 <= snd e2).
  { apply Hlater. apply in_or_app. right. now left. }
  assert (H1 : classified config e1).
  { apply Hcl. apply in_or_app. right. now left. }
  assert (H2 : classified config e2).
  { apply Hcl. apply in_or_app. right. right. apply in_or_app. right. now left. }
  unfold classified in H1, H2. rewrite He1, He2 in *.
  destruct H1 as [[H1 _]|[_ H1]]; [exact H1|].
  destruct H2 as [[_ H2]|[H2 _]]; [lia|contradiction].
Qed.

Lemma configured_models_come_first_witness :
  let gpt := CustomModels.mkModelConf (Some (lit "GPT")) None None (Some true) None in
  let config := Some (CustomModels.mkProxyConfig
                        (Some [(lit "p", CustomModels.mkProvider
                                           (Some [(lit "gpt", gpt)]))])) in
  let first := fst (CustomModels.dynamicEntry (CustomModels.configModels config)
                      (lit "p/gpt") 1) in
  CustomModels.plainKeys config /\ CustomModels.smallProviders config
  /\ CustomModels.getDynamicModels config [lit "q/x"; lit "p/gpt"] []
     = Some [first; CustomModels.unconfiguredModel (lit "q/x")]
  /\ (CustomModels.configured config (CustomModels.unconfiguredModel (lit "q/x"))
      -> CustomModels.configured config first).
Proof.
  intros gpt config first.
  assert (Hplain : CustomModels.plainKeys config).
  { intros k rest [<-|[]]. discriminate. }
  assert (Hsmall : CustomModels.smallProviders config).
  { repeat constructor. }
  assert (Hav : Forall (fun h => CustomModels.plainKey (CustomModels.modelKeyOf h))
                       [lit "q/x"; lit "p/gpt"]).
  { repeat constructor; intros rest; discriminate. }
  assert (Hrun : CustomModels.getDynamicModels config [lit "q/x"; lit "p/gpt"] []
                 = Some [first; CustomModels.unconfiguredModel (lit "q/x")])
    by reflexivity.
  split; [exact Hplain|]. split; [exact Hsmall|]. split; [exact Hrun|].
  apply (configured_models_come_first config [lit "q/x"; lit "p/gpt"] []
           _ Hplain Hsmall Hav Hrun [] first []
           (CustomModels.unconfiguredModel (lit "q/x")) []).
  reflexivity.
Defined.
